(** * ProtoLens: the byte-region decoder and its region index

    A shallow embedding of [src/utils/protoDecoder.ts] and of the
    [ByteRegion] interface of [src/types.ts].

    - JavaScript numbers that the decoder manipulates are byte offsets,
      lengths and 32-bit tags; all of them are integers far below [2^53],
      so they are carried as [Z] and the 32-bit operators ([>>>], [&],
      [|]) are written with [Z.shiftr], [Z.land], [Z.lor].
    - The decoder mutates JavaScript objects and arrays that it also hands
      out by reference ([targetObj], the arrays of repeated fields, the
      [value] of a region).  Objects therefore live in an explicit store
      and are named by their location.
    - The one [protobuf.Reader] of a decode call is a cursor [pos] over an
      immutable buffer.  The reader is a library object; the decoder is
      written against the interface [WireReader] below.
    - [while] loops and the recursion of [readMessage] are driven by a
      fuel argument; [decodeWithRegions_total] shows that the fuel given
      by [decodeWithRegions] is never exhausted. *)

From Stdlib Require Import ZArith List String Ascii Strings.Byte Bool Lia DecimalString.
From Stdlib Require DecimalPos DecimalN.
Import ListNotations.
Local Open Scope Z_scope.

(** ** JavaScript values and the object store *)

Definition Loc := nat.

(** Floating-point results are kept as their IEEE bit patterns; typed
    arrays as their bytes.  [VInherited member] is what a plain object
    gives for a key that it inherits from [Object.prototype] and does not
    hold itself: a function, or the prototype object for [__proto__]. *)
Inductive Value : Type :=
| VUndefined
| VNull
| VNum (n : Z)
| VBool (b : bool)
| VStr (s : string)
| VBytes (bs : list byte)
| VFloat (bits : Z)
| VDouble (bits : Z)
| VRef (l : Loc)
| VInherited (member : string).

(** A plain object keeps its properties in insertion order. *)
Inductive Obj : Type :=
| OObject (props : list (string * Value))
| OArray (elems : list Value).

Definition Heap := list Obj.

(** What a [throw] carries.  [JsError] is [new Error(message)]. *)
Inductive Thrown : Type :=
| JsRangeError (offset : Z)
| JsTypeError (what : string)
| JsError (message : string).

(** JavaScript truthiness, as used by [!targetObj[fieldName]]. *)
Definition truthy (v : Value) : bool :=
  match v with
  | VUndefined | VNull => false
  | VNum n => negb (n =? 0)
  | VBool b => b
  | VStr s => negb (String.eqb s EmptyString)
  | VBytes _ => true
  | VFloat bits =>
      let m := Z.land bits 2147483647 in
      negb (m =? 0) && (m <=? 2139095040)
  | VDouble bits =>
      let m := Z.land bits 9223372036854775807 in
      negb (m =? 0) && (m <=? 9218868437227405312)
  | VRef _ => true
  | VInherited _ => true
  end.

(** ** src/types.ts: ByteRegion *)

Module ByteRegion.
Record t : Type := mk {
  start : Z;
  end_ : Z;
  path : string;
  value : Value;
  type : string;
  wireType : Z;
  fieldName : string;
  depth : nat
}.
End ByteRegion.

(** ** The schema view: the part of protobuf.Type and protobuf.Field that
    the decoder reads *)

(** [field.resolvedType]: [null], an instance of [protobuf.Enum], or an
    instance of [protobuf.Type] (named by its reference in the root, so
    that message types may refer to each other and to themselves). *)
Inductive Resolved : Type :=
| RNone
| REnum
| RType (ref : string).

Module Field.
Record t : Type := mk {
  id : Z;
  name : string;
  type : string;
  repeated : bool;
  packed : bool;
  map : bool;
  resolvedType : Resolved
}.
End Field.

(** [fields] lists [currentType.fields] in the order in which
    [for (const name in currentType.fields)] visits it. *)
Module ProtoType.
Record t : Type := mk {
  name : string;
  fields : list Field.t
}.
End ProtoType.

(** Resolution of a type reference to the message type it denotes. *)
Definition Root := string -> ProtoType.t.

(** ** The decoding monad: cursor, store and region list, with exceptions *)

Record State : Type := mkState {
  st_pos : Z;
  st_heap : Heap;
  st_regions : list ByteRegion.t
}.

Inductive Outcome (A : Type) : Type :=
| Ok (a : A)
| Throw (e : Thrown)
| OutOfFuel.
Arguments Ok {A} a.
Arguments Throw {A} e.
Arguments OutOfFuel {A}.

Definition M (A : Type) : Type := State -> Outcome (A * State).

Definition ret {A} (a : A) : M A := fun s => Ok (a, s).

Definition bind {A B} (m : M A) (k : A -> M B) : M B :=
  fun s =>
    match m s with
    | Ok (a, s') => k a s'
    | Throw e => Throw e
    | OutOfFuel => OutOfFuel
    end.

Definition throw {A} (e : Thrown) : M A := fun _ => Throw e.
Definition outOfFuel {A} : M A := fun _ => OutOfFuel.

Declare Scope js_scope.
Delimit Scope js_scope with js.
Notation "x <- m ;; k" := (bind m (fun x => k))
  (at level 61, m at next level, right associativity) : js_scope.
Notation "m ;; k" := (bind m (fun _ => k))
  (at level 61, right associativity) : js_scope.
Local Open Scope js_scope.

Definition getPos : M Z := fun s => Ok (st_pos s, s).

Definition pushRegion (r : ByteRegion.t) : M unit :=
  fun s => Ok (tt, mkState (st_pos s) (st_heap s) (st_regions s ++ [r])).

(** *** Objects and arrays in the store *)

(** The keys that every object created by [{}] inherits from
    [Object.prototype]. *)
Definition objectPrototypeMembers : list string :=
  [ "constructor"; "__defineGetter__"; "__defineSetter__"; "hasOwnProperty";
    "__lookupGetter__"; "__lookupSetter__"; "isPrototypeOf";
    "propertyIsEnumerable"; "toString"; "valueOf"; "__proto__";
    "toLocaleString" ]%string.

Definition inherited (k : string) : bool :=
  existsb (String.eqb k) objectPrototypeMembers.

(** The value of [obj[k]] for an object with the own properties [props]:
    the own property when there is one, else the inherited member, else
    [undefined]. *)
Definition propLookup (k : string) (props : list (string * Value)) : Value :=
  match find (fun kv => String.eqb (fst kv) k) props with
  | Some kv => snd kv
  | None => if inherited k then VInherited k else VUndefined
  end.

Fixpoint propStore (k : string) (v : Value) (props : list (string * Value))
  : list (string * Value) :=
  match props with
  | [] => [(k, v)]
  | kv :: rest =>
      if String.eqb (fst kv) k then (k, v) :: rest
      else kv :: propStore k v rest
  end.

Fixpoint heapUpdate (l : Loc) (o : Obj) (h : Heap) : Heap :=
  match h, l with
  | [], _ => []
  | _ :: rest, O => o :: rest
  | x :: rest, S l' => x :: heapUpdate l' o rest
  end.

Definition alloc (o : Obj) : M Loc :=
  fun s => Ok (List.length (st_heap s),
               mkState (st_pos s) (st_heap s ++ [o]) (st_regions s)).

(** [{}] and [[]]. *)
Definition newObject : M Loc := alloc (OObject []).
Definition newArray : M Loc := alloc (OArray []).

(** [obj[key]] on a plain object created by the decoder: its own property,
    or the member of that name that it inherits ([constructor],
    [toString], ...), which is neither falsy nor an array, or
    [undefined]. *)
Definition getProp (obj : Loc) (key : string) : M Value :=
  fun s =>
    match nth_error (st_heap s) obj with
    | Some (OObject props) => Ok (propLookup key props, s)
    | _ => Throw (JsTypeError "not an object")
    end.

(** [obj[key] = v]: the property is stored in the object itself, also
    when the key names an inherited function, which it then hides.  The
    decoder assigns under field names only, and [__proto__], the one key
    whose assignment is not a store, is no field name: the library keeps
    the fields of a type in a plain object under their names, in which
    that key cannot be held. *)
Definition setProp (obj : Loc) (key : string) (v : Value) : M unit :=
  fun s =>
    match nth_error (st_heap s) obj with
    | Some (OObject props) =>
        Ok (tt, mkState (st_pos s)
                        (heapUpdate obj (OObject (propStore key v props)) (st_heap s))
                        (st_regions s))
    | _ => Throw (JsTypeError "not an object")
    end.

(** [Array.isArray(v)]. *)
Definition isArray (v : Value) : M bool :=
  fun s =>
    match v with
    | VRef l =>
        match nth_error (st_heap s) l with
        | Some (OArray _) => Ok (true, s)
        | _ => Ok (false, s)
        end
    | _ => Ok (false, s)
    end.

(** [v.length], read by the decoder only after [Array.isArray(v)]. *)
Definition arrayLength (v : Value) : M Z :=
  fun s =>
    match v with
    | VRef l =>
        match nth_error (st_heap s) l with
        | Some (OArray elems) => Ok (Z.of_nat (List.length elems), s)
        | _ => Throw (JsTypeError "not an array")
        end
    | _ => Throw (JsTypeError "not an array")
    end.

(** [a.push(v)]; a value without a [push] method makes the call throw. *)
Definition arrayPush (a : Value) (v : Value) : M unit :=
  fun s =>
    match a with
    | VRef l =>
        match nth_error (st_heap s) l with
        | Some (OArray elems) =>
            Ok (tt, mkState (st_pos s)
                            (heapUpdate l (OArray (elems ++ [v])) (st_heap s))
                            (st_regions s))
        | _ => Throw (JsTypeError "push is not a function")
        end
    | _ => Throw (JsTypeError "push is not a function")
    end.

(** ** The reader interface *)

(** A reader call at a cursor either returns a value and the new cursor or
    throws. *)
Inductive Read (A : Type) : Type :=
| Got (a : A) (pos' : Z)
| Fail (e : Thrown).
Arguments Got {A} a pos'.
Arguments Fail {A} e.

(** The reader of the decode call is an object of the protobufjs library,
    which is not part of the repository; the decoder is parameterised by
    it.  [uint32] returns an unsigned 32-bit number, on which [>>>] and
    [&] are [Z.shiftr] and [Z.land].  [readMethod name] is [reader[name]]
    when that is a function that reads one value, as the decoder's
    reflective calls expect; type names are taken not to name any other
    member of the reader object.  The laws say that a call which returns
    has consumed input: a value read starts inside the buffer and moves
    the cursor forward, a skip never moves it backward.  Nothing is
    assumed about when a call throws. *)
Class WireReader : Type := {
  uint32 : list byte -> Z -> Read Z;
  int32 : list byte -> Z -> Read Z;
  skipType : list byte -> Z -> Z -> Read unit;
  readMethod : string -> option (list byte -> Z -> Read Value);
  uint32_advances : forall buf p v p',
    uint32 buf p = Got v p' -> p < p' /\ p < Z.of_nat (List.length buf);
  int32_advances : forall buf p v p',
    int32 buf p = Got v p' -> p < p' /\ p < Z.of_nat (List.length buf);
  readMethod_advances : forall name m buf p v p',
    readMethod name = Some m ->
    m buf p = Got v p' -> p < p' /\ p < Z.of_nat (List.length buf);
  skipType_monotone : forall buf wt p u p',
    skipType buf wt p = Got u p' -> p <= p'
}.

(** ** src/utils/protoDecoder.ts *)

(** [String(n)] for a non-negative integer. *)
Definition decimal (n : Z) : string :=
  NilZero.string_of_uint (N.to_uint (Z.to_N n)).

(** [basePath ? `${basePath}.${fieldName}` : fieldName]. *)
Definition joinPath (basePath fieldName : string) : string :=
  if String.eqb basePath EmptyString then fieldName
  else (basePath ++ "." ++ fieldName)%string.

(** The [for ... in] search of lines 32-39: the first field whose id is
    [fieldId]. *)
Definition findField (currentType : ProtoType.t) (fieldId : Z) : option Field.t :=
  find (fun field_ => Field.id field_ =? fieldId) (ProtoType.fields currentType).

Module Decoded.
(** [{ result, regions }], together with the store in which [result]
    and the region values are to be read. *)
Record t : Type := mk {
  result : Value;
  regions : list ByteRegion.t;
  heap : Heap
}.
End Decoded.

Definition failureMessage : string :=
  "Failed to decode binary with provided proto type.".

Section Decoder.
Context {reader : WireReader}.
Variable root : Root.
Variable buffer : list byte.

(** A call of a reader method on the shared reader. *)
Definition readerCall {A} (method : list byte -> Z -> Read A) : M A :=
  fun s =>
    match method buffer (st_pos s) with
    | Got a p => Ok (a, mkState p (st_heap s) (st_regions s))
    | Fail e => Throw e
    end.

(** [(reader as any)[name]()]. *)
Definition readerReflect (name : string) : M Value :=
  match readMethod name with
  | Some method => readerCall method
  | None => throw (JsTypeError "reader[field.type] is not a function")
  end.

(** Lines 68-71: [while (reader.pos < packedEnd) { arr.push(reader[type]()) }]. *)
Fixpoint packedLoop (fuel : nat) (typeName : string) (arr : Value) (packedEnd : Z)
  : M unit :=
  match fuel with
  | O => outOfFuel
  | S fuel' =>
      p <- getPos ;;
      if p <? packedEnd then
        val <- readerReflect typeName ;;
        arrayPush arr val ;;
        packedLoop fuel' typeName arr packedEnd
      else ret tt
  end.

(** [if (!targetObj[fieldName]) targetObj[fieldName] = []]. *)
Definition ensureArray (targetObj : Loc) (fieldName : string) : M unit :=
  cur <- getProp targetObj fieldName ;;
  if negb (truthy cur) then
    a <- newArray ;;
    setProp targetObj fieldName (VRef a)
  else ret tt.

(** Lines 134-138 (and 96-100): append to the repeated field's array or
    assign the property. *)
Definition storeValue (field : Field.t) (targetObj : Loc) (fieldName : string)
    (v : Value) : M unit :=
  if Field.repeated field then
    arr <- getProp targetObj fieldName ;;
    arrayPush arr v
  else setProp targetObj fieldName v.

(** Lines 151-160. *)
Definition recordRegion (startPos : Z) (currentPath : string) (v : Value)
    (field : option Field.t) (wireType : Z) (fieldName : string) (depth : nat)
  : M unit :=
  p <- getPos ;;
  pushRegion
    (ByteRegion.mk startPos p currentPath v
       (match field with Some f => Field.type f | None => "unknown"%string end)
       wireType fieldName depth).

(** One iteration of the [while] loop of [readMessage] (lines 27-160);
    [self] is the recursive call of line 112. *)
Definition readField
    (self : ProtoType.t -> Z -> Loc -> string -> nat -> Z -> M unit)
    (fuel : nat)
    (currentType : ProtoType.t) (targetObj : Loc) (basePath : string)
    (depth : nat) (globalOffset : Z) : M unit :=
  startPos <- getPos ;;
  tag <- readerCall uint32 ;;
  let fieldId := Z.shiftr tag 3 in
  let wireType := Z.land tag 7 in
  let field := findField currentType fieldId in
  let fieldName :=
    match field with
    | Some f => Field.name f
    | None => ("unknown_" ++ decimal fieldId)%string
    end in
  let isRepeated :=
    match field with Some f => Field.repeated f | None => false end in
  (if isRepeated then ensureArray targetObj fieldName else ret tt) ;;
  currentPath <-
    (if isRepeated then
       cur <- getProp targetObj fieldName ;;
       isArr <- isArray cur ;;
       if isArr then
         n <- arrayLength cur ;;
         ret (joinPath basePath fieldName ++ "[" ++ decimal n ++ "]")%string
       else ret (joinPath basePath fieldName)
     else ret (joinPath basePath fieldName)) ;;
  let regionStart := startPos + globalOffset in
  match field with
  | Some f =>
      if Field.map f then
        readerCall (fun b p => skipType b wireType p) ;;
        recordRegion startPos currentPath VNull field wireType fieldName depth
      else if Field.repeated f && Field.packed f && (wireType =? 2) then
        packedLen <- readerCall uint32 ;;
        p <- getPos ;;
        let packedEnd := p + packedLen in
        ensureArray targetObj fieldName ;;
        arr <- getProp targetObj fieldName ;;
        packedLoop fuel (Field.type f) arr packedEnd ;;
        p' <- getPos ;;
        pushRegion
          (ByteRegion.mk regionStart (p' + globalOffset)
             (joinPath basePath fieldName) arr
             ("packed " ++ Field.type f)%string wireType fieldName depth)
      else
        v <-
          match wireType =? 2, Field.resolvedType f with
          | true, RType ref =>
              len <- readerCall uint32 ;;
              p <- getPos ;;
              let msgEnd := p + len in
              nestedObj <- newObject ;;
              storeValue f targetObj fieldName (VRef nestedObj) ;;
              self (root ref) msgEnd nestedObj currentPath (S depth) 0 ;;
              ret (VRef nestedObj)
          | _, _ =>
              v <-
                match readMethod (Field.type f) with
                | Some method => readerCall method
                | None =>
                    match Field.resolvedType f with
                    | REnum => n <- readerCall int32 ;; ret (VNum n)
                    | _ =>
                        readerCall (fun b p => skipType b wireType p) ;;
                        ret (VStr "[Skipped]")
                    end
                end ;;
              storeValue f targetObj fieldName v ;;
              ret v
          end ;;
        recordRegion startPos currentPath v field wireType fieldName depth
  | None =>
      readerCall (fun b p => skipType b wireType p) ;;
      recordRegion startPos currentPath (VStr "Unknown Field") field
        wireType fieldName depth
  end.

(** Lines 18-162. *)
Fixpoint readMessage (fuel : nat)
    (currentType : ProtoType.t) (endPos : Z) (targetObj : Loc)
    (basePath : string) (depth : nat) (globalOffset : Z) : M unit :=
  match fuel with
  | O => outOfFuel
  | S fuel' =>
      p <- getPos ;;
      if p <? endPos then
        readField (readMessage fuel') fuel'
          currentType targetObj basePath depth globalOffset ;;
        readMessage fuel' currentType endPos targetObj basePath depth globalOffset
      else ret tt
  end.

(** The state in which [readMessage] is first called: [regions = []],
    [result = {}] at location 0, the reader at offset 0. *)
Definition initialState : State := mkState 0 [OObject []] [].

(** Lines 7-172.  [reader.len] is the length of the buffer; whatever
    [readMessage] throws is replaced by one fixed [Error]. *)
Definition decodeWithRegions (type : ProtoType.t) : Outcome Decoded.t :=
  let len := Z.of_nat (List.length buffer) in
  match readMessage (S (List.length buffer)) type len 0%nat EmptyString 0%nat 0
          initialState with
  | Ok (_, s) => Ok (Decoded.mk (VRef 0%nat) (st_regions s) (st_heap s))
  | Throw _ => Throw (JsError failureMessage)
  | OutOfFuel => OutOfFuel
  end.
End Decoder.

(** *** The region index (lines 174-188) *)

(** [byteIndex >= r.start && byteIndex < r.end]. *)
Definition covers (byteIndex : Z) (r : ByteRegion.t) : bool :=
  (ByteRegion.start r <=? byteIndex) && (byteIndex <? ByteRegion.end_ r).

(** [r.end - r.start]. *)
Definition span (r : ByteRegion.t) : Z := ByteRegion.end_ r - ByteRegion.start r.

(** [(a.end - a.start) - (b.end - b.start)]. *)
Definition bySpan (a b : ByteRegion.t) : Z := span a - span b.

(** [Array.prototype.sort] with a comparator is a stable sort: elements
    that compare equal keep their order.  Insertion from the right keeps
    an element in front of everything it does not exceed. *)
Fixpoint sortInsert {A} (cmp : A -> A -> Z) (x : A) (sorted : list A) : list A :=
  match sorted with
  | [] => [x]
  | y :: rest =>
      if cmp x y <=? 0 then x :: y :: rest
      else y :: sortInsert cmp x rest
  end.

Fixpoint sort {A} (cmp : A -> A -> Z) (l : list A) : list A :=
  match l with
  | [] => []
  | x :: rest => sortInsert cmp x (sort cmp rest)
  end.

(** [candidates[0]], [undefined] on an empty array. *)
Definition findRegionByByte (regions : list ByteRegion.t) (byteIndex : Z)
  : option ByteRegion.t :=
  let candidates := filter (covers byteIndex) regions in
  let candidates := sort bySpan candidates in
  nth_error candidates 0.

Definition findRegionsByPath (regions : list ByteRegion.t) (path : string)
  : list ByteRegion.t :=
  filter (fun r => String.eqb (ByteRegion.path r) path) regions.

(** ** A concrete reader *)

Module SpecReader.

Definition byteVal (b : byte) : Z := Z.of_N (Byte.to_N b).

(** The bytes from the cursor to the end of the buffer. *)
Definition rest (buf : list byte) (pos : Z) : list byte :=
  if pos <? 0 then [] else skipn (Z.to_nat pos) buf.

Definition mapRead {A B} (f : A -> B) (r : Read A) : Read B :=
  match r with
  | Got a p => Got (f a) p
  | Fail e => Fail e
  end.

(** Modelled from the spec: the reader is an object of the protobufjs
    library and its code is not in the repository.  Section 4.1,
    [readVarint]: a base-128 varint, least significant group first, a
    byte below 128 ends it; OutOfBounds if the buffer ends before the
    terminating byte. *)
Fixpoint varintFrom (bs : list byte) (shift acc pos : Z) : Read Z :=
  match bs with
  | [] => Fail (JsRangeError pos)
  | b :: bs' =>
      let acc' := Z.lor acc (Z.shiftl (Z.land (byteVal b) 127) shift) in
      if byteVal b <? 128 then Got acc' (pos + 1)
      else varintFrom bs' (shift + 7) acc' (pos + 1)
  end.

(** Modelled from the spec: [readVarint() -> uint64] of section 4.1. *)
Definition readVarint (buf : list byte) (pos : Z) : Read Z :=
  mapRead (fun v => v mod 2 ^ 64) (varintFrom (rest buf pos) 0 0 pos).

(** Modelled from the spec: [readFixed32]/[readFixed64] of section 4.1,
    for a width of [n] bytes; OutOfBounds if fewer than [n] remain. *)
Definition readFixed (n : nat) (buf : list byte) (pos : Z) : Read (list byte) :=
  let bs := firstn n (rest buf pos) in
  if (List.length bs =? n)%nat then Got bs (pos + Z.of_nat n)
  else Fail (JsRangeError pos).

(** Modelled from the spec: [readLengthDelimited() -> (length, byteSlice)]
    of section 4.1. *)
Definition readLengthDelimited (buf : list byte) (pos : Z)
  : Read (Z * list byte) :=
  match readVarint buf pos with
  | Got len p => mapRead (fun bs => (len, bs)) (readFixed (Z.to_nat len) buf p)
  | Fail e => Fail e
  end.

(** Modelled from the spec: [skip(wireType)] of section 4.1; wire types
    other than 0, 1, 2 and 5 are a failing case (section 6). *)
Definition skip (buf : list byte) (wireType : Z) (pos : Z) : Read unit :=
  if wireType =? 0 then mapRead (fun _ => tt) (readVarint buf pos)
  else if wireType =? 1 then mapRead (fun _ => tt) (readFixed 8 buf pos)
  else if wireType =? 2 then mapRead (fun _ => tt) (readLengthDelimited buf pos)
  else if wireType =? 5 then mapRead (fun _ => tt) (readFixed 4 buf pos)
  else Fail (JsError "invalid wire type").

Fixpoint littleEndian (bs : list byte) : Z :=
  match bs with
  | [] => 0
  | b :: bs' => byteVal b + 256 * littleEndian bs'
  end.

(** The signed reading of the low [w] bits. *)
Definition signed (w : Z) (v : Z) : Z :=
  let u := v mod 2 ^ w in
  if u <? 2 ^ (w - 1) then u else u - 2 ^ w.

(** [(n >>> 1) ^ -(n & 1)]. *)
Definition zigzag (n : Z) : Z := Z.lxor (Z.shiftr n 1) (- Z.land n 1).

(** Modelled from the spec: tags and lengths are varints read as unsigned
    32-bit numbers (section 4.2, steps 2, 5 and 6). *)
Definition read_uint32 (buf : list byte) (pos : Z) : Read Z :=
  mapRead (fun v => v mod 2 ^ 32) (readVarint buf pos).

(** Modelled from the spec: "decode as a 32-bit signed varint" (section
    4.2, step 7). *)
Definition read_int32 (buf : list byte) (pos : Z) : Read Z :=
  mapRead (signed 32) (readVarint buf pos).

(** Modelled from the spec: section 4.2 step 7 dispatches on the
    descriptor's type name to the matching primitive read.  The names
    are those the decoder lists (line 118) and the four fixed-width
    scalar types of the wire format. *)
Definition methods : list (string * (list byte -> Z -> Read Value)) :=
  [ ("double"%string, fun b p => mapRead (fun bs => VDouble (littleEndian bs)) (readFixed 8 b p));
    ("float"%string, fun b p => mapRead (fun bs => VFloat (littleEndian bs)) (readFixed 4 b p));
    ("int32"%string, fun b p => mapRead VNum (read_int32 b p));
    ("int64"%string, fun b p => mapRead (fun v => VNum (signed 64 v)) (readVarint b p));
    ("uint32"%string, fun b p => mapRead VNum (read_uint32 b p));
    ("uint64"%string, fun b p => mapRead VNum (readVarint b p));
    ("sint32"%string, fun b p => mapRead (fun v => VNum (zigzag v)) (read_uint32 b p));
    ("sint64"%string, fun b p => mapRead (fun v => VNum (zigzag v)) (readVarint b p));
    ("bool"%string, fun b p => mapRead (fun v => VBool (negb (v =? 0))) (read_uint32 b p));
    ("string"%string,
      fun b p => mapRead (fun lb => VStr (string_of_list_byte (snd lb)))
                   (readLengthDelimited b p));
    ("bytes"%string, fun b p => mapRead (fun lb => VBytes (snd lb)) (readLengthDelimited b p));
    ("fixed32"%string, fun b p => mapRead (fun bs => VNum (littleEndian bs)) (readFixed 4 b p));
    ("sfixed32"%string,
      fun b p => mapRead (fun bs => VNum (signed 32 (littleEndian bs))) (readFixed 4 b p));
    ("fixed64"%string, fun b p => mapRead (fun bs => VNum (littleEndian bs)) (readFixed 8 b p));
    ("sfixed64"%string,
      fun b p => mapRead (fun bs => VNum (signed 64 (littleEndian bs))) (readFixed 8 b p)) ].

Definition method (name : string) : option (list byte -> Z -> Read Value) :=
  option_map snd (find (fun entry => String.eqb (fst entry) name) methods).

End SpecReader.

(** ** Schemas used in the examples *)

Module Examples.
(** A root in which no reference is ever followed. *)
Definition noTypes : Root := fun _ => ProtoType.mk "" [].

(** [message Person { string name = 1; int32 id = 2; }] *)
Definition Person : ProtoType.t :=
  ProtoType.mk "Person"
    [ Field.mk 1 "name" "string" false false false RNone;
      Field.mk 2 "id" "int32" false false false RNone ].

(** [message Inner { int32 x = 1; }] and
    [message Outer { Inner m = 1; }] *)
Definition Inner : ProtoType.t :=
  ProtoType.mk "Inner" [ Field.mk 1 "x" "int32" false false false RNone ].

Definition Outer : ProtoType.t :=
  ProtoType.mk "Outer" [ Field.mk 1 "m" "Inner" false false false (RType "Inner") ].

Definition innerRoot : Root := fun _ => Inner.

(** [message Ints { repeated int32 v = 1 [packed = true]; }] *)
Definition Ints : ProtoType.t :=
  ProtoType.mk "Ints" [ Field.mk 1 "v" "int32" true true false RNone ].

(** [message Colors { repeated Color c = 1 [packed = true]; }] with
    [Color] an enum. *)
Definition Colors : ProtoType.t :=
  ProtoType.mk "Colors" [ Field.mk 1 "c" "Color" true true false REnum ].
End Examples.

(** ** The shape of an emitted region list *)

(** [Emitted d lo hi l]: [l] is what one run of the [readMessage] loop at
    depth [d] appends to the region list while it moves the cursor from
    [lo] to [hi].  Each field occurrence contributes the regions [kids]
    recorded by the nested call it makes (none for a leaf) and then its own
    region [r], which starts where the field's tag starts and ends where
    the cursor is left. *)
Inductive Emitted : nat -> Z -> Z -> list ByteRegion.t -> Prop :=
| Emitted_nil (d : nat) (p : Z) : Emitted d p p []
| Emitted_field (d : nat) (lo a b hi : Z)
    (kids : list ByteRegion.t) (r : ByteRegion.t) (rest : list ByteRegion.t) :
    lo < a ->
    Emitted (S d) a b kids ->
    ByteRegion.start r = lo ->
    ByteRegion.end_ r = b ->
    ByteRegion.depth r = d ->
    Emitted d b hi rest ->
    Emitted d lo hi (kids ++ r :: rest).

(** The longest prefix whose elements satisfy [f]. *)
Fixpoint takeWhile {A} (f : A -> bool) (l : list A) : list A :=
  match l with
  | [] => []
  | x :: rest => if f x then x :: takeWhile f rest else []
  end.

(** The regions recorded while the occurrence [A] was being decoded, given
    the regions [before] that precede [A] in the list: the run of deeper
    regions that ends just in front of [A]. *)
Definition recordedInside (before : list ByteRegion.t) (A : ByteRegion.t)
  : list ByteRegion.t :=
  takeWhile (fun B => (ByteRegion.depth A <? ByteRegion.depth B)%nat) (rev before).

(** [a] is a strict structural ancestor of [b]: [b] continues [a] with a
    further path segment, [.name] or [[index]]. *)
Fixpoint isAncestorPath (a b : string) : bool :=
  match a, b with
  | EmptyString, String c _ => Ascii.eqb c "." || Ascii.eqb c "["
  | String x a', String y b' => Ascii.eqb x y && isAncestorPath a' b'
  | _, EmptyString => false
  end.

(** ** The concrete reader satisfies the reader laws *)

Module SpecReaderFacts.
Import SpecReader.

Lemma mapRead_got {A B} (f : A -> B) (r : Read A) (b : B) (p : Z) :
  mapRead f r = Got b p -> exists a, r = Got a p /\ b = f a.
Proof.
  destruct r as [a q|e]; simpl; intros H; inversion H; subst; eauto.
Qed.

Lemma rest_nonempty (buf : list byte) (pos : Z) :
  rest buf pos <> [] -> 0 <= pos < Z.of_nat (List.length buf).
Proof.
  unfold rest. destruct (pos <? 0) eqn:Hneg; [congruence|].
  apply Z.ltb_ge in Hneg. intros Hne. split; [assumption|].
  destruct (Nat.le_gt_cases (List.length buf) (Z.to_nat pos)) as [Hle|Hlt].
  - exfalso. apply Hne. apply skipn_all2. assumption.
  - lia.
Qed.

Lemma varintFrom_advances (bs : list byte) :
  forall shift acc pos v p',
    varintFrom bs shift acc pos = Got v p' -> pos < p' /\ bs <> [].
Proof.
  induction bs as [|b bs IH]; simpl; intros shift acc pos v p' H.
  - discriminate.
  - split; [|discriminate].
    destruct (byteVal b <? 128).
    + inversion H; lia.
    + apply IH in H. lia.
Qed.

Lemma readVarint_advances (buf : list byte) (pos v p' : Z) :
  readVarint buf pos = Got v p' ->
  pos < p' /\ pos < Z.of_nat (List.length buf).
Proof.
  unfold readVarint. intros H.
  apply mapRead_got in H. destruct H as (a & H & _).
  apply varintFrom_advances in H. destruct H as [Hlt Hne].
  apply rest_nonempty in Hne. lia.
Qed.

Lemma readFixed_got (n : nat) (buf : list byte) (pos : Z) (bs : list byte) (p' : Z) :
  readFixed n buf pos = Got bs p' ->
  p' = pos + Z.of_nat n /\ ((0 < n)%nat -> pos < Z.of_nat (List.length buf)).
Proof.
  unfold readFixed. destruct (Nat.eqb_spec (List.length (firstn n (rest buf pos))) n) as [Hlen|];
    [|discriminate].
  intros H. inversion H; subst. split; [reflexivity|].
  intros Hn. assert (Hne : rest buf pos <> []).
  { intros Hnil. rewrite Hnil, firstn_nil in Hlen. simpl in Hlen. lia. }
  apply rest_nonempty in Hne. lia.
Qed.

Lemma readLengthDelimited_advances (buf : list byte) (pos : Z) lb (p' : Z) :
  readLengthDelimited buf pos = Got lb p' ->
  pos < p' /\ pos < Z.of_nat (List.length buf).
Proof.
  unfold readLengthDelimited.
  destruct (readVarint buf pos) as [len p|e] eqn:Hv; [|discriminate].
  intros H. apply mapRead_got in H. destruct H as (bs & H & _).
  apply readVarint_advances in Hv. apply readFixed_got in H. lia.
Qed.

Lemma read_uint32_advances (buf : list byte) (pos v p' : Z) :
  read_uint32 buf pos = Got v p' ->
  pos < p' /\ pos < Z.of_nat (List.length buf).
Proof.
  unfold read_uint32. intros H. apply mapRead_got in H.
  destruct H as (a & H & _). eapply readVarint_advances; eassumption.
Qed.

Lemma read_int32_advances (buf : list byte) (pos v p' : Z) :
  read_int32 buf pos = Got v p' ->
  pos < p' /\ pos < Z.of_nat (List.length buf).
Proof.
  unfold read_int32. intros H. apply mapRead_got in H.
  destruct H as (a & H & _). eapply readVarint_advances; eassumption.
Qed.

Lemma skip_monotone (buf : list byte) (wireType pos : Z) (u : unit) (p' : Z) :
  skip buf wireType pos = Got u p' -> pos <= p'.
Proof.
  unfold skip. intros H.
  repeat match type of H with
         | (if ?c then _ else _) = _ => destruct c
         end;
    try discriminate;
    apply mapRead_got in H; destruct H as (a & H & _).
  - apply readVarint_advances in H. lia.
  - apply readFixed_got in H. lia.
  - apply readLengthDelimited_advances in H. lia.
  - apply readFixed_got in H. lia.
Qed.

Ltac read_advances H :=
  apply mapRead_got in H; destruct H as (? & H & _);
  first [ apply readVarint_advances in H
        | apply read_uint32_advances in H
        | apply read_int32_advances in H
        | apply readLengthDelimited_advances in H
        | apply readFixed_got in H ];
  lia.

Lemma methods_advance :
  Forall (fun entry =>
            forall buf p v p', snd entry buf p = Got v p' ->
                               p < p' /\ p < Z.of_nat (List.length buf))
         methods.
Proof.
  unfold methods.
  repeat (apply Forall_cons; [simpl; intros buf p v p' H; read_advances H|]).
  apply Forall_nil.
Qed.

Lemma method_advances (name : string) m (buf : list byte) (p : Z) (v : Value) (p' : Z) :
  method name = Some m ->
  m buf p = Got v p' -> p < p' /\ p < Z.of_nat (List.length buf).
Proof.
  unfold method. intros Hm Hr.
  destruct (find (fun entry => String.eqb (fst entry) name) methods)
    as [entry|] eqn:Hfind; [|discriminate].
  simpl in Hm. inversion Hm; subst m.
  apply find_some in Hfind. destruct Hfind as [Hin _].
  pose proof methods_advance as Hall.
  rewrite Forall_forall in Hall. eapply Hall; eassumption.
Qed.

End SpecReaderFacts.

(** The reader of section 4.1 as an instance of the interface. *)
#[export] Instance specReader : WireReader := {|
  uint32 := SpecReader.read_uint32;
  int32 := SpecReader.read_int32;
  skipType := SpecReader.skip;
  readMethod := SpecReader.method;
  uint32_advances := SpecReaderFacts.read_uint32_advances;
  int32_advances := SpecReaderFacts.read_int32_advances;
  readMethod_advances := SpecReaderFacts.method_advances;
  skipType_monotone := SpecReaderFacts.skip_monotone
|}.

(** ** Reasoning rules for the decoding monad *)

Section Rules.
(** What a run that exhausts its fuel is taken to establish: [True] for
    statements about the runs that return, [False] to show that the
    fuel suffices. *)
Variable F : Prop.

Definition wp {A} (m : M A) (s : State) (Q : A -> State -> Prop) : Prop :=
  match m s with
  | Ok (a, s') => Q a s'
  | Throw _ => True
  | OutOfFuel => F
  end.

Lemma wp_ret {A} (a : A) (s : State) (Q : A -> State -> Prop) :
  Q a s -> wp (ret a) s Q.
Proof. intros H; exact H. Qed.

Lemma wp_bind {A B} (m : M A) (k : A -> M B) (s : State) (Q : B -> State -> Prop) :
  wp m s (fun a s1 => wp (k a) s1 Q) -> wp (bind m k) s Q.
Proof.
  unfold wp, bind. destruct (m s) as [[a s1]|e|]; auto.
Qed.

Lemma wp_weaken {A} (m : M A) (s : State) (Q Q' : A -> State -> Prop) :
  wp m s Q -> (forall a s', Q a s' -> Q' a s') -> wp m s Q'.
Proof.
  unfold wp. destruct (m s) as [[a s1]|e|]; auto.
Qed.

Lemma wp_getPos (s : State) (Q : Z -> State -> Prop) :
  Q (st_pos s) s -> wp getPos s Q.
Proof. intros H; exact H. Qed.

Lemma wp_pushRegion (r : ByteRegion.t) (s : State) (Q : unit -> State -> Prop) :
  Q tt (mkState (st_pos s) (st_heap s) (st_regions s ++ [r])) ->
  wp (pushRegion r) s Q.
Proof. intros H; exact H. Qed.

(** Operations on the store: they return or throw, and leave the cursor
    and the region list alone. *)
Definition pureHeap {A} (m : M A) : Prop :=
  forall s,
    match m s with
    | Ok (_, s') => st_pos s' = st_pos s /\ st_regions s' = st_regions s
    | Throw _ => True
    | OutOfFuel => False
    end.

Lemma pureHeap_ret {A} (a : A) : pureHeap (ret a).
Proof. intros s; simpl; auto. Qed.

Lemma pureHeap_getPos : pureHeap getPos.
Proof. intros s; simpl; auto. Qed.

Lemma pureHeap_bind {A B} (m : M A) (k : A -> M B) :
  pureHeap m -> (forall a, pureHeap (k a)) -> pureHeap (bind m k).
Proof.
  intros Hm Hk s. unfold bind. specialize (Hm s).
  destruct (m s) as [[a s1]|e|]; auto.
  specialize (Hk a s1). destruct (k a s1) as [[b s2]|e|]; auto.
  destruct Hm, Hk. split; congruence.
Qed.

Lemma pureHeap_alloc (o : Obj) : pureHeap (alloc o).
Proof. intros s; simpl; auto. Qed.

Lemma pureHeap_newObject : pureHeap newObject.
Proof. apply pureHeap_alloc. Qed.

Lemma pureHeap_newArray : pureHeap newArray.
Proof. apply pureHeap_alloc. Qed.

Lemma pureHeap_getProp (obj : Loc) (key : string) : pureHeap (getProp obj key).
Proof.
  intros s. unfold getProp.
  destruct (nth_error (st_heap s) obj) as [[props|elems]|]; simpl; auto.
Qed.

Lemma pureHeap_setProp (obj : Loc) (key : string) (v : Value) :
  pureHeap (setProp obj key v).
Proof.
  intros s. unfold setProp.
  destruct (nth_error (st_heap s) obj) as [[props|elems]|]; simpl; auto.
Qed.

Lemma pureHeap_isArray (v : Value) : pureHeap (isArray v).
Proof.
  intros s. unfold isArray. destruct v; simpl; auto.
  destruct (nth_error (st_heap s) l) as [[props|elems]|]; simpl; auto.
Qed.

Lemma pureHeap_arrayLength (v : Value) : pureHeap (arrayLength v).
Proof.
  intros s. unfold arrayLength. destruct v; simpl; auto.
  destruct (nth_error (st_heap s) l) as [[props|elems]|]; simpl; auto.
Qed.

Lemma pureHeap_arrayPush (a v : Value) : pureHeap (arrayPush a v).
Proof.
  intros s. unfold arrayPush. destruct a; simpl; auto.
  destruct (nth_error (st_heap s) l) as [[props|elems]|]; simpl; auto.
Qed.

Lemma wp_pureHeap {A} (m : M A) (s : State) (Q : A -> State -> Prop) :
  pureHeap m ->
  (forall a h', Q a (mkState (st_pos s) h' (st_regions s))) ->
  wp m s Q.
Proof.
  intros Hm HQ. unfold wp. specialize (Hm s).
  destruct (m s) as [[a [p h rs]]|e|]; simpl in *; [|trivial|contradiction].
  destruct Hm as [-> ->]. apply HQ.
Qed.
End Rules.

Create HintDb pureheap.
#[local] Hint Resolve pureHeap_ret pureHeap_getPos pureHeap_alloc pureHeap_newObject
  pureHeap_newArray pureHeap_getProp pureHeap_setProp
  pureHeap_isArray pureHeap_arrayLength pureHeap_arrayPush : pureheap.

Ltac pure_heap :=
  solve [repeat first
    [ apply pureHeap_bind; [|intro; cbv beta]
    | match goal with
      | |- pureHeap (if ?c then _ else _) => destruct c
      end
    | solve [auto with pureheap] ]].

(** ** Cursor and region bookkeeping of the decoder *)

Section DecoderFacts.
Context {reader : WireReader}.
Variable root : Root.
Variable buffer : list byte.
Variable F : Prop.

(** Fuel [fuel] is enough at cursor [p]: more fuel than bytes left. *)
Definition enough (fuel : nat) (p : Z) : Prop :=
  F \/ ((0 < fuel)%nat /\ Z.of_nat (List.length buffer) - p < Z.of_nat fuel).

Lemma enough_step (fuel : nat) (p p' : Z) :
  enough (S fuel) p -> p < Z.of_nat (List.length buffer) -> p < p' ->
  enough fuel p'.
Proof. unfold enough. intros [HF|[_ H]] Hlen Hlt; [left; assumption|right; lia]. Qed.

Lemma enough_monotone (fuel : nat) (p p' : Z) :
  enough fuel p -> p <= p' -> enough fuel p'.
Proof. unfold enough. intros [HF|[H0 H]] Hle; [left; assumption|right; lia]. Qed.

Lemma enough_zero (p : Z) : enough 0 p -> F.
Proof. unfold enough. intros [HF|[H0 _]]; [assumption|lia]. Qed.

Lemma wp_readerCall {A} (method : list byte -> Z -> Read A) (s : State)
    (Q : A -> State -> Prop) :
  (forall a p', method buffer (st_pos s) = Got a p' ->
                Q a (mkState p' (st_heap s) (st_regions s))) ->
  wp F (readerCall buffer method) s Q.
Proof.
  intros HQ. unfold wp, readerCall.
  destruct (method buffer (st_pos s)) as [a p'|e]; auto.
Qed.

Lemma pureHeap_ensureArray (targetObj : Loc) (fieldName : string) :
  pureHeap (ensureArray targetObj fieldName).
Proof. unfold ensureArray. pure_heap. Qed.

Lemma pureHeap_storeValue (f : Field.t) (targetObj : Loc) (fieldName : string)
    (v : Value) :
  pureHeap (storeValue f targetObj fieldName v).
Proof. unfold storeValue. pure_heap. Qed.

(** The packed loop moves the cursor forward and records nothing. *)
Lemma packedLoop_wp (fuel : nat) (typeName : string) (arr : Value) (packedEnd : Z) :
  forall s,
    enough fuel (st_pos s) ->
    wp F (packedLoop buffer fuel typeName arr packedEnd) s
      (fun _ s' => st_pos s <= st_pos s' /\ st_regions s' = st_regions s).
Proof.
  induction fuel as [|fuel IH]; intros s Hfuel.
  - unfold wp; simpl. eapply enough_zero; eassumption.
  - simpl. apply wp_bind, wp_getPos.
    destruct (st_pos s <? packedEnd).
    + apply wp_bind. unfold readerReflect.
      destruct (readMethod typeName) as [method|] eqn:Hmethod; [|exact I].
      apply wp_readerCall. intros val p' Hread.
      destruct (readMethod_advances _ _ _ _ _ _ Hmethod Hread) as [Hlt Hlen].
      apply wp_bind, wp_pureHeap; [pure_heap|]. intros _ h'. simpl.
      eapply wp_weaken.
      * apply IH. simpl. eapply enough_step; eassumption.
      * simpl. intros _ s' [Hle Hrs]. split; [lia|assumption].
    + apply wp_ret. split; [lia|reflexivity].
Qed.

(** What a run of [readMessage] at depth [d] from state [s] guarantees
    about the state it returns. *)
Definition emitsFrom (d : nat) (s : State) : unit -> State -> Prop :=
  fun _ s' =>
    exists new,
      st_regions s' = st_regions s ++ new /\
      Emitted d (st_pos s) (st_pos s') new.

(** One field occurrence: the regions of the nested call, then its own. *)
Definition fieldFrom (fuel : nat) (d : nat) (s : State) : unit -> State -> Prop :=
  fun _ s' =>
    exists kids r a,
      st_regions s' = st_regions s ++ kids ++ [r] /\
      st_pos s < a /\
      Emitted (S d) a (st_pos s') kids /\
      ByteRegion.start r = st_pos s /\
      ByteRegion.end_ r = st_pos s' /\
      ByteRegion.depth r = d /\
      enough fuel (st_pos s').

Lemma recordRegion_leaf (fuel : nat) (p0 : Z) (h0 : Heap) (rs : list ByteRegion.t)
    (currentPath : string) (v : Value) (field : option Field.t) (wireType : Z)
    (fieldName : string) (d : nat) (p : Z) (h : Heap) :
  p0 < p -> enough fuel p ->
  wp F (recordRegion p0 currentPath v field wireType fieldName d)
    (mkState p h rs) (fieldFrom fuel d (mkState p0 h0 rs)).
Proof.
  intros Hlt Hfuel. unfold recordRegion.
  apply wp_bind, wp_getPos, wp_pushRegion. simpl.
  eexists [], _, p. simpl. repeat split; try reflexivity; try assumption.
  constructor.
Qed.

#[local] Hint Resolve pureHeap_ensureArray pureHeap_storeValue : pureheap.

Tactic Notation "wp_pure" ident(x) ident(h) :=
  apply wp_bind, wp_pureHeap; [pure_heap | intros x h; simpl].

Tactic Notation "wp_read" ident(x) ident(p) ident(H) :=
  apply wp_bind, wp_readerCall; intros x p H; simpl in H |- *.

Section Field.
Variable self : ProtoType.t -> Z -> Loc -> string -> nat -> Z -> M unit.
Variable fuel : nat.
Hypothesis self_emits :
  forall t e o bp d s,
    enough fuel (st_pos s) -> wp F (self t e o bp d 0) s (emitsFrom d s).

(** A leaf value: read by a reader method, as an enum, or skipped. *)
Lemma scalar_wp (f : Field.t) (wireType : Z) (p : Z) (h : Heap)
    (rs : list ByteRegion.t) (Q : Value -> State -> Prop) :
  (forall v p' h', p <= p' -> Q v (mkState p' h' rs)) ->
  wp F (match readMethod (Field.type f) with
        | Some method => readerCall buffer method
        | None =>
            match Field.resolvedType f with
            | REnum => n <- readerCall buffer int32 ;; ret (VNum n)
            | _ =>
                readerCall buffer (fun b q => skipType b wireType q) ;;
                ret (VStr "[Skipped]")
            end
        end) (mkState p h rs) Q.
Proof.
  intros HQ.
  destruct (readMethod (Field.type f)) as [method|] eqn:Hmethod.
  - apply wp_readerCall. intros v p' Hread. simpl in Hread |- *.
    apply (readMethod_advances _ _ _ _ _ _ Hmethod) in Hread.
    apply HQ. lia.
  - assert (Hskip : wp F (readerCall buffer (fun b q => skipType b wireType q) ;;
                          ret (VStr "[Skipped]")) (mkState p h rs) Q).
    { wp_read u p' Hskip. apply skipType_monotone in Hskip.
      apply wp_ret, HQ. assumption. }
    destruct (Field.resolvedType f); try exact Hskip.
    wp_read n p' Hread. apply int32_advances in Hread.
    apply wp_ret, HQ. lia.
Qed.

Lemma readField_wp (t : ProtoType.t) (o : Loc) (bp : string) (d : nat) (s : State) :
  enough (S fuel) (st_pos s) ->
  wp F (readField root buffer self fuel t o bp d 0) s (fieldFrom fuel d s).
Proof.
  destruct s as [p0 h0 rs]. simpl. intros Hfuel. unfold readField.
  apply wp_bind, wp_getPos. simpl.
  wp_read tag p1 Htag.
  destruct (uint32_advances _ _ _ _ Htag) as [Hlt Hlen].
  assert (Hfuel1 : enough fuel p1) by (eapply enough_step; eassumption).
  cbv zeta.
  destruct (findField t (Z.shiftr tag 3)) as [f|].
  - wp_pure u1 h1. wp_pure currentPath h2.
    destruct (Field.map f).
    { wp_read u2 p2 Hskip. apply skipType_monotone in Hskip.
      apply recordRegion_leaf; [lia|].
      eapply enough_monotone; eassumption. }
    destruct (Field.repeated f && Field.packed f && (Z.land tag 7 =? 2)).
    { wp_read packedLen p2 Hplen. apply uint32_advances in Hplen.
      apply wp_bind, wp_getPos. simpl.
      wp_pure u3 h3. wp_pure arr h4.
      apply wp_bind. eapply wp_weaken.
      { apply packedLoop_wp. simpl. eapply enough_monotone; [eassumption|lia]. }
      simpl. intros _ [p3 h5 rs'] [Hle Hrs]. simpl in Hle, Hrs. subst rs'.
      apply wp_bind, wp_getPos, wp_pushRegion. simpl.
      eexists [], _, p3.
      repeat split; simpl; try reflexivity; try lia; try apply Emitted_nil.
      eapply enough_monotone; [eassumption|lia]. }
    apply wp_bind.
    assert (Hleaf :
      wp F (v <- match readMethod (Field.type f) with
                 | Some method => readerCall buffer method
                 | None =>
                     match Field.resolvedType f with
                     | REnum => n <- readerCall buffer int32 ;; ret (VNum n)
                     | _ =>
                         readerCall buffer (fun b q => skipType b (Z.land tag 7) q) ;;
                         ret (VStr "[Skipped]")
                     end
                 end ;;
            storeValue f o (Field.name f) v ;; ret v)
        (mkState p1 h2 rs)
        (fun v s1 =>
           wp F (recordRegion p0 currentPath v (Some f) (Z.land tag 7) (Field.name f) d)
             s1 (fieldFrom fuel d (mkState p0 h0 rs)))).
    { apply wp_bind, scalar_wp. intros v p' h3 Hle.
      wp_pure u3 h4. apply wp_ret.
      apply recordRegion_leaf; [lia|].
      eapply enough_monotone; eassumption. }
    destruct (Z.land tag 7 =? 2); [|exact Hleaf].
    destruct (Field.resolvedType f) as [| |ref] eqn:Hres;
      [exact Hleaf|exact Hleaf|].
    clear Hleaf.
    wp_read len p2 Hmlen. apply uint32_advances in Hmlen.
    apply wp_bind, wp_getPos. simpl.
    wp_pure nestedObj h3. wp_pure u3 h4.
    apply wp_bind. eapply wp_weaken.
    { apply self_emits. simpl. eapply enough_monotone; [eassumption|lia]. }
    simpl. intros _ [p3 h5 rs'] (kids & Hrs & Hkids). simpl in Hrs, Hkids. subst rs'.
    apply wp_ret.
    unfold recordRegion. apply wp_bind, wp_getPos, wp_pushRegion. simpl.
    assert (Hle : p2 <= p3).
    { clear - Hkids. induction Hkids; lia. }
    eexists kids, _, p2.
    repeat split; simpl; try (symmetry; apply app_assoc);
      try reflexivity; try lia; try assumption.
    eapply enough_monotone; [eassumption|lia].
  - wp_pure u1 h1. wp_pure currentPath h2.
    wp_read u2 p2 Hskip. apply skipType_monotone in Hskip.
    apply recordRegion_leaf; [lia|].
    eapply enough_monotone; eassumption.
Qed.
End Field.

Lemma readMessage_wp (fuel : nat) :
  forall t e o bp d s,
    enough fuel (st_pos s) ->
    wp F (readMessage root buffer fuel t e o bp d 0) s (emitsFrom d s).
Proof.
  induction fuel as [|fuel IH]; intros t e o bp d s Hfuel.
  - unfold wp; simpl. eapply enough_zero; eassumption.
  - simpl. apply wp_bind, wp_getPos.
    destruct (st_pos s <? e).
    + apply wp_bind. eapply wp_weaken.
      * apply readField_wp; [exact IH | assumption].
      * intros u1 s1 (kids & r & a & Hrs & Hlt & Hkids & Hstart & Hend & Hdepth & Hfuel1).
        eapply wp_weaken; [apply IH; assumption|].
        intros u2 s2 (new & Hrs2 & Hnew).
        exists (kids ++ r :: new). split.
        -- rewrite Hrs2, Hrs. rewrite <- !app_assoc. reflexivity.
        -- econstructor; eassumption.
    + apply wp_ret. exists []. split; [symmetry; apply app_nil_r | constructor].
Qed.
End DecoderFacts.

(** The fuel that [decodeWithRegions] passes is never exhausted: every
    call returns a result or throws. *)
Lemma decodeWithRegions_total {reader : WireReader} (root : Root)
    (buffer : list byte) (type : ProtoType.t) :
  decodeWithRegions root buffer type <> OutOfFuel.
Proof.
  unfold decodeWithRegions.
  pose proof (readMessage_wp root buffer False (S (List.length buffer)) type
                (Z.of_nat (List.length buffer)) 0%nat EmptyString 0%nat initialState)
    as H.
  unfold wp in H.
  destruct (readMessage root buffer (S (List.length buffer)) type
              (Z.of_nat (List.length buffer)) 0%nat EmptyString 0%nat 0 initialState)
    as [[u s]|e|]; try discriminate.
  exfalso. apply H. right. simpl. lia.
Qed.

(** The region list of a successful decode is the emission of the root
    message's loop, started at offset 0. *)
Lemma decodeWithRegions_emitted {reader : WireReader} (root : Root)
    (buffer : list byte) (type : ProtoType.t) (d : Decoded.t) :
  decodeWithRegions root buffer type = Ok d ->
  exists hi, Emitted 0 0 hi (Decoded.regions d).
Proof.
  unfold decodeWithRegions.
  pose proof (readMessage_wp root buffer True (S (List.length buffer)) type
                (Z.of_nat (List.length buffer)) 0%nat EmptyString 0%nat initialState
                (or_introl I))
    as H.
  unfold wp in H.
  destruct (readMessage root buffer (S (List.length buffer)) type
              (Z.of_nat (List.length buffer)) 0%nat EmptyString 0%nat 0 initialState)
    as [[u s]|e|]; try discriminate.
  intros Hd. inversion Hd; subst d. simpl.
  destruct H as (new & Hrs & Hnew). simpl in Hrs, Hnew.
  exists (st_pos s). rewrite Hrs. exact Hnew.
Qed.

(** ** Consequences of the emission shape *)

Lemma Emitted_le (d : nat) (lo hi : Z) (l : list ByteRegion.t) :
  Emitted d lo hi l -> lo <= hi.
Proof. induction 1; lia. Qed.

Lemma Emitted_bounds (d : nat) (lo hi : Z) (l : list ByteRegion.t) :
  Emitted d lo hi l ->
  Forall (fun r => lo <= ByteRegion.start r /\
                   ByteRegion.start r < ByteRegion.end_ r /\
                   ByteRegion.end_ r <= hi /\
                   (d <= ByteRegion.depth r)%nat) l.
Proof.
  induction 1 as [d p|d lo a b hi kids r rest Hlt Hkids IHkids Hs He Hd Hrest IHrest].
  - constructor.
  - pose proof (Emitted_le _ _ _ _ Hkids) as Hab.
    pose proof (Emitted_le _ _ _ _ Hrest) as Hbh.
    apply Forall_app. split; [|constructor].
    + eapply Forall_impl; [|exact IHkids]. simpl. intros x (H1 & H2 & H3 & H4).
      repeat split; lia.
    + repeat split; lia.
    + eapply Forall_impl; [|exact IHrest]. simpl. intros x (H1 & H2 & H3 & H4).
      repeat split; lia.
Qed.

Lemma takeWhile_In {A} (f : A -> bool) (l : list A) (x : A) :
  In x (takeWhile f l) -> In x l.
Proof.
  induction l as [|y l IH]; simpl; [tauto|].
  destruct (f y); simpl; [|tauto]. intros [H|H]; auto.
Qed.

Lemma takeWhile_app_stop {A} (f : A -> bool) (xs : list A) (y : A) (ys : list A) :
  f y = false -> takeWhile f (xs ++ y :: ys) = takeWhile f xs.
Proof.
  intros Hy. induction xs as [|x xs IH]; simpl.
  - rewrite Hy. reflexivity.
  - destruct (f x); [rewrite IH|]; reflexivity.
Qed.

(** Every region recorded while an occurrence was being decoded lies
    within the occurrence's own region. *)
Lemma Emitted_inside (d : nat) (lo hi : Z) (l : list ByteRegion.t) :
  Emitted d lo hi l ->
  forall l1 A l2 B,
    l = l1 ++ A :: l2 ->
    In B (recordedInside l1 A) ->
    ByteRegion.start A <= ByteRegion.start B /\
    ByteRegion.end_ B <= ByteRegion.end_ A.
Proof.
  induction 1 as [d p|d lo a b hi kids r rest Hlt Hkids IHkids Hs He Hd Hrest IHrest];
    intros l1 A l2 B Heq HB.
  - destruct l1; discriminate.
  - assert (Hown : forall B', In B' (recordedInside kids r) ->
                              ByteRegion.start r <= ByteRegion.start B' /\
                              ByteRegion.end_ B' <= ByteRegion.end_ r).
    { intros B' HB'. apply takeWhile_In in HB'. apply in_rev in HB'.
      pose proof (Emitted_bounds _ _ _ _ Hkids) as Hall.
      rewrite Forall_forall in Hall. specialize (Hall _ HB'). lia. }
    apply app_eq_app in Heq. destruct Heq as [l [[Hk Hl]|[Hk Hl]]].
    + destruct l as [|x l].
      * rewrite app_nil_r in Hk. simpl in Hl. inversion Hl; subst. auto.
      * simpl in Hl. inversion Hl; subst. eapply IHkids; [reflexivity|eassumption].
    + destruct l as [|x l].
      * rewrite app_nil_r in Hk. simpl in Hl. inversion Hl; subst. auto.
      * simpl in Hl. inversion Hl; subst.
        eapply IHrest; [reflexivity|].
        unfold recordedInside in HB |- *.
        rewrite rev_app_distr in HB. simpl in HB. rewrite <- app_assoc in HB.
        simpl in HB. rewrite takeWhile_app_stop in HB; [exact HB|].
        pose proof (Emitted_bounds _ _ _ _ Hrest) as Hall.
        rewrite Forall_forall in Hall.
        assert (HA : In A (l ++ A :: l2)) by (apply in_elt).
        specialize (Hall _ HA). apply Nat.ltb_ge. lia.
Qed.

(** Post-order: a region of depth above [d] is followed, later in the
    list, by the region of the field occurrence that encloses it, one
    level up. *)
Lemma Emitted_parent_follows (d : nat) (lo hi : Z) (l : list ByteRegion.t) :
  Emitted d lo hi l ->
  forall l1 B l2,
    l = l1 ++ B :: l2 ->
    (d < ByteRegion.depth B)%nat ->
    exists m A l3,
      l2 = m ++ A :: l3 /\
      S (ByteRegion.depth A) = ByteRegion.depth B /\
      ByteRegion.start A <= ByteRegion.start B /\
      ByteRegion.end_ B <= ByteRegion.end_ A.
Proof.
  induction 1 as [d p|d lo a b hi kids r rest Hlt Hkids IHkids Hs He Hd Hrest IHrest];
    intros l1 B l2 Heq Hdeep.
  - destruct l1; discriminate.
  - apply app_eq_app in Heq. destruct Heq as [l [[Hk Hl]|[Hk Hl]]].
    + destruct l as [|x l]; simpl in Hl; injection Hl as HB Hl2.
      { rewrite HB in Hdeep. lia. }
      subst x l2.
      destruct (Nat.eq_dec (ByteRegion.depth B) (S d)) as [Heqd|Hneq].
      * exists l, r, rest. split; [reflexivity|]. split; [lia|].
        pose proof (Emitted_bounds _ _ _ _ Hkids) as Hall.
        rewrite Forall_forall in Hall.
        assert (HB : In B kids) by (rewrite Hk; apply in_elt).
        specialize (Hall _ HB). lia.
      * destruct (IHkids l1 B l Hk) as (m & A & l3 & Hl2 & HA); [lia|].
        exists m, A, (l3 ++ r :: rest). split; [|exact HA].
        rewrite Hl2. rewrite <- app_assoc. reflexivity.
    + destruct l as [|x l]; simpl in Hl; injection Hl as HB Hl2.
      { rewrite <- HB in Hdeep. lia. }
      eapply IHrest; [exact Hl2|assumption].
Qed.

(** ** The region index *)

Lemma covers_spec (byteIndex : Z) (r : ByteRegion.t) :
  covers byteIndex r = true <->
  ByteRegion.start r <= byteIndex < ByteRegion.end_ r.
Proof. unfold covers. rewrite andb_true_iff, Z.leb_le, Z.ltb_lt. tauto. Qed.

Lemma sortInsert_head {A} (cmp : A -> A -> Z) (x : A) (sorted : list A) :
  nth_error (sortInsert cmp x sorted) 0 =
  match nth_error sorted 0 with
  | None => Some x
  | Some y => if cmp x y <=? 0 then Some x else Some y
  end.
Proof.
  destruct sorted as [|y rest]; simpl; [reflexivity|].
  destruct (cmp x y <=? 0); reflexivity.
Qed.

(** The first element of the sorted candidates is the first candidate of
    least span. *)
Lemma sort_bySpan_head (l : list ByteRegion.t) :
  match nth_error (sort bySpan l) 0 with
  | None => l = []
  | Some r =>
      exists l1 l2,
        l = l1 ++ r :: l2 /\
        (forall x, In x l1 -> span r < span x) /\
        (forall x, In x l2 -> span r <= span x)
  end.
Proof.
  induction l as [|x l IH]; [reflexivity|].
  change (sort bySpan (x :: l)) with (sortInsert bySpan x (sort bySpan l)).
  rewrite sortInsert_head.
  destruct (nth_error (sort bySpan l) 0) as [y|].
  - destruct IH as (l1 & l2 & Hl & H1 & H2).
    unfold bySpan. destruct (Z.leb_spec (span x - span y) 0) as [Hle|Hgt].
    + exists [], l. simpl. repeat split; [tauto|].
      intros z Hz. subst l. apply in_app_or in Hz. destruct Hz as [Hz|[Hz|Hz]].
      * specialize (H1 _ Hz). lia.
      * subst z. lia.
      * specialize (H2 _ Hz). lia.
    + exists (x :: l1), l2. subst l. simpl. repeat split; [|assumption].
      intros z [Hz|Hz]; [subst z; lia|auto].
  - subst l. exists [], []. simpl. repeat split; tauto.
Qed.

Lemma filter_split {A} (f : A -> bool) (l c1 : list A) (r : A) (c2 : list A) :
  filter f l = c1 ++ r :: c2 ->
  exists l1 l2,
    l = l1 ++ r :: l2 /\ filter f l1 = c1 /\ filter f l2 = c2 /\ f r = true.
Proof.
  revert c1. induction l as [|x l IH]; simpl; intros c1 H.
  - destruct c1; discriminate.
  - destruct (f x) eqn:Hx.
    + destruct c1 as [|c c1]; simpl in H; inversion H; subst.
      * exists [], l. simpl. auto.
      * destruct (IH _ H2) as (l1 & l2 & Hl & Hf1 & Hf2 & Hr).
        exists (c :: l1), l2. subst l. simpl. rewrite Hx, Hf1. auto.
    + destruct (IH _ H) as (l1 & l2 & Hl & Hf1 & Hf2 & Hr).
      exists (x :: l1), l2. subst l. simpl. rewrite Hx. auto.
Qed.

(** C2. For every region list and byte index, [findRegionByByte] returns
    nothing exactly when no region's interval [start, end) contains the
    index; otherwise it returns a region of the list that contains the
    index, no containing region has a smaller span, and every containing
    region that comes earlier in the list has a strictly larger span (the
    first of the smallest is returned). *)
Theorem findRegionByByte_first_smallest (regions : list ByteRegion.t) (byteIndex : Z) :
  match findRegionByByte regions byteIndex with
  | None =>
      forall r, In r regions ->
                ~ (ByteRegion.start r <= byteIndex < ByteRegion.end_ r)
  | Some r =>
      exists before after,
        regions = before ++ r :: after /\
        ByteRegion.start r <= byteIndex < ByteRegion.end_ r /\
        (forall x, In x before ->
                   ByteRegion.start x <= byteIndex < ByteRegion.end_ x ->
                   span r < span x) /\
        (forall x, In x after ->
                   ByteRegion.start x <= byteIndex < ByteRegion.end_ x ->
                   span r <= span x)
  end.
Proof.
  unfold findRegionByByte.
  pose proof (sort_bySpan_head (filter (covers byteIndex) regions)) as H.
  destruct (nth_error (sort bySpan (filter (covers byteIndex) regions)) 0) as [r|].
  - destruct H as (c1 & c2 & Hc & H1 & H2).
    apply filter_split in Hc. destruct Hc as (l1 & l2 & Hl & Hf1 & Hf2 & Hr).
    exists l1, l2. split; [assumption|]. split; [apply covers_spec; assumption|].
    split; intros x Hx Hcov; apply covers_spec in Hcov.
    + apply H1. rewrite <- Hf1. apply filter_In. auto.
    + apply H2. rewrite <- Hf2. apply filter_In. auto.
  - intros r Hr Hcov. apply covers_spec in Hcov.
    assert (Hin : In r (filter (covers byteIndex) regions)) by (apply filter_In; auto).
    rewrite H in Hin. exact Hin.
Qed.

(** On the regions of [Outer { m: Inner { x: 1 } }]: byte 3 lies in both
    regions and the smaller one is returned, byte 1 lies in [m] only, byte
    4 in none; of two regions of equal span the earlier one is returned. *)
Example findRegionByByte_examples :
  let mx := ByteRegion.mk 2 4 "m.x" (VNum 1) "int32" 0 "x" 1 in
  let m := ByteRegion.mk 0 4 "m" (VRef 1%nat) "Inner" 2 "m" 0 in
  let a := ByteRegion.mk 0 2 "id" (VNum 7) "int32" 0 "id" 0 in
  let b := ByteRegion.mk 0 2 "id" (VNum 9) "int32" 0 "id" 0 in
  findRegionByByte [mx; m] 3 = Some mx /\
  findRegionByByte [m; mx] 3 = Some mx /\
  findRegionByByte [mx; m] 1 = Some m /\
  findRegionByByte [mx; m] 4 = None /\
  findRegionByByte [a; b] 1 = Some a /\
  findRegionByByte [b; a] 1 = Some b.
Proof. repeat split; reflexivity. Qed.

(** ** Claims about the decoder *)

(** C1. Decoding [0x0A, 0x02, 'A', 'l', 0x10, 0x07] against the schema
    [{ name: string = 1; id: int32 = 2 }] succeeds; the decoded value is
    [{ name: "Al", id: 7 }] and the regions are exactly [name], bytes 0 to
    4, type "string", wire type 2, depth 0, and [id], bytes 4 to 6, type
    "int32", wire type 0, depth 0. *)
Theorem decode_person_scenario (root : Root) :
  decodeWithRegions (reader := specReader) root
    [x0a; x02; x41; x6c; x10; x07] Examples.Person
  = Ok (Decoded.mk (VRef 0%nat)
          [ ByteRegion.mk 0 4 "name" (VStr "Al") "string" 2 "name" 0;
            ByteRegion.mk 4 6 "id" (VNum 7) "int32" 0 "id" 0 ]
          [ OObject [("name"%string, VStr "Al"); ("id"%string, VNum 7)] ]).
Proof. reflexivity. Qed.

(** C3. On every schema and buffer on which decode succeeds, every region
    of the returned list has [start < end]. *)
Theorem regions_start_before_end {reader : WireReader} (root : Root)
    (buffer : list byte) (type : ProtoType.t) (d : Decoded.t) :
  decodeWithRegions root buffer type = Ok d ->
  Forall (fun r => ByteRegion.start r < ByteRegion.end_ r) (Decoded.regions d).
Proof.
  intros Hd. apply decodeWithRegions_emitted in Hd. destruct Hd as [hi Hem].
  apply Emitted_bounds in Hem. eapply Forall_impl; [|exact Hem].
  simpl. intros r H. lia.
Qed.

Lemma regions_start_before_end_witness :
  decodeWithRegions (reader := specReader) Examples.noTypes
    [x0a; x02; x41; x6c; x10; x07] Examples.Person
  = Ok (Decoded.mk (VRef 0%nat)
          [ ByteRegion.mk 0 4 "name" (VStr "Al") "string" 2 "name" 0;
            ByteRegion.mk 4 6 "id" (VNum 7) "int32" 0 "id" 0 ]
          [ OObject [("name"%string, VStr "Al"); ("id"%string, VNum 7)] ])
  /\ Forall (fun r => ByteRegion.start r < ByteRegion.end_ r)
       [ ByteRegion.mk 0 4 "name" (VStr "Al") "string" 2 "name" 0;
         ByteRegion.mk 4 6 "id" (VNum 7) "int32" 0 "id" 0 ].
Proof.
  split; [reflexivity|].
  exact (regions_start_before_end (reader := specReader) Examples.noTypes
           [x0a; x02; x41; x6c; x10; x07] Examples.Person _ eq_refl).
Defined.

(** C4, as stated, fails: a non-repeated message field that occurs twice
    yields two regions with path [m], and the children of the second
    occurrence have the path [m.x], of which [m] is a structural ancestor,
    yet they lie outside the first occurrence's bytes. *)
Lemma path_ancestry_counterexample :
  decodeWithRegions (reader := specReader) Examples.innerRoot
    [x0a; x02; x08; x01; x0a; x02; x08; x02] Examples.Outer
  = Ok (Decoded.mk (VRef 0%nat)
          [ ByteRegion.mk 2 4 "m.x" (VNum 1) "int32" 0 "x" 1;
            ByteRegion.mk 0 4 "m" (VRef 1%nat) "Inner" 2 "m" 0;
            ByteRegion.mk 6 8 "m.x" (VNum 2) "int32" 0 "x" 1;
            ByteRegion.mk 4 8 "m" (VRef 2%nat) "Inner" 2 "m" 0 ]
          [ OObject [("m"%string, VRef 2%nat)];
            OObject [("x"%string, VNum 1)];
            OObject [("x"%string, VNum 2)] ])
  /\ isAncestorPath "m" "m.x" = true
  /\ ~ (ByteRegion.start (ByteRegion.mk 0 4 "m" (VRef 1%nat) "Inner" 2 "m" 0)
          <= ByteRegion.start (ByteRegion.mk 6 8 "m.x" (VNum 2) "int32" 0 "x" 1)
        /\ ByteRegion.end_ (ByteRegion.mk 6 8 "m.x" (VNum 2) "int32" 0 "x" 1)
          <= ByteRegion.end_ (ByteRegion.mk 0 4 "m" (VRef 1%nat) "Inner" 2 "m" 0)).
Proof.
  split; [reflexivity|]. split; [reflexivity|]. simpl. lia.
Qed.

(** C4, amended. On every schema and buffer on which decode succeeds, a
    region [A] contains every region [B] that was recorded while [A]'s
    field occurrence was being decoded (the deeper regions that end just
    in front of [A] in the list): [A.start <= B.start] and
    [B.end <= A.end]. *)
Theorem nested_regions_contained {reader : WireReader} (root : Root)
    (buffer : list byte) (type : ProtoType.t) (d : Decoded.t)
    (before : list ByteRegion.t) (A : ByteRegion.t) (after : list ByteRegion.t)
    (B : ByteRegion.t) :
  decodeWithRegions root buffer type = Ok d ->
  Decoded.regions d = before ++ A :: after ->
  In B (recordedInside before A) ->
  ByteRegion.start A <= ByteRegion.start B /\
  ByteRegion.end_ B <= ByteRegion.end_ A.
Proof.
  intros Hd Hsplit HB.
  apply decodeWithRegions_emitted in Hd. destruct Hd as [hi Hem].
  eapply Emitted_inside; eassumption.
Qed.

Lemma nested_regions_contained_witness :
  let mx1 := ByteRegion.mk 2 4 "m.x" (VNum 1) "int32" 0 "x" 1 in
  let m1 := ByteRegion.mk 0 4 "m" (VRef 1%nat) "Inner" 2 "m" 0 in
  let mx2 := ByteRegion.mk 6 8 "m.x" (VNum 2) "int32" 0 "x" 1 in
  let m2 := ByteRegion.mk 4 8 "m" (VRef 2%nat) "Inner" 2 "m" 0 in
  let d := Decoded.mk (VRef 0%nat) [mx1; m1; mx2; m2]
             [ OObject [("m"%string, VRef 2%nat)];
               OObject [("x"%string, VNum 1)];
               OObject [("x"%string, VNum 2)] ] in
  decodeWithRegions (reader := specReader) Examples.innerRoot
    [x0a; x02; x08; x01; x0a; x02; x08; x02] Examples.Outer = Ok d /\
  Decoded.regions d = [mx1; m1; mx2] ++ m2 :: [] /\
  In mx2 (recordedInside [mx1; m1; mx2] m2) /\
  ByteRegion.start m2 <= ByteRegion.start mx2 /\
  ByteRegion.end_ mx2 <= ByteRegion.end_ m2.
Proof.
  intros mx1 m1 mx2 m2 d.
  assert (Hd : decodeWithRegions (reader := specReader) Examples.innerRoot
                 [x0a; x02; x08; x01; x0a; x02; x08; x02] Examples.Outer = Ok d)
    by reflexivity.
  assert (Hin : In mx2 (recordedInside [mx1; m1; mx2] m2)) by (simpl; auto).
  split; [exact Hd|]. split; [reflexivity|]. split; [exact Hin|].
  exact (nested_regions_contained (reader := specReader) Examples.innerRoot
           [x0a; x02; x08; x01; x0a; x02; x08; x02] Examples.Outer d
           [mx1; m1; mx2] m2 [] mx2 Hd eq_refl Hin).
Defined.

(** C5, as stated, fails: neither loop checks where the cursor lands.
    The nested message [m] declares one byte of content, its field [x]
    takes two, the nested call returns with the cursor on 4 while its
    [endPos] is 3, and the decode succeeds.  Likewise a packed block
    declared one byte long whose varint takes two. *)
Lemma overshoot_is_accepted_counterexample :
  readMessage (reader := specReader) Examples.innerRoot [x0a; x01; x08; x05]
    4 Examples.Inner 3 1%nat "m" 1%nat 0
    (mkState 2 [OObject [("m"%string, VRef 1%nat)]; OObject []] [])
  = Ok (tt, mkState 4
              [OObject [("m"%string, VRef 1%nat)]; OObject [("x"%string, VNum 5)]]
              [ByteRegion.mk 2 4 "m.x" (VNum 5) "int32" 0 "x" 1])
  /\ decodeWithRegions (reader := specReader) Examples.innerRoot
       [x0a; x01; x08; x05] Examples.Outer
     = Ok (Decoded.mk (VRef 0%nat)
             [ ByteRegion.mk 2 4 "m.x" (VNum 5) "int32" 0 "x" 1;
               ByteRegion.mk 0 4 "m" (VRef 1%nat) "Inner" 2 "m" 0 ]
             [OObject [("m"%string, VRef 1%nat)]; OObject [("x"%string, VNum 5)]])
  /\ packedLoop (reader := specReader) [x0a; x01; x80; x01] 4 "int32" (VRef 1%nat) 3
       (mkState 2 [OObject [("v"%string, VRef 1%nat)]; OArray []] [])
     = Ok (tt, mkState 4 [OObject [("v"%string, VRef 1%nat)]; OArray [VNum 128]] [])
  /\ decodeWithRegions (reader := specReader) Examples.noTypes
       [x0a; x01; x80; x01] Examples.Ints
     = Ok (Decoded.mk (VRef 0%nat)
             [ByteRegion.mk 0 4 "v" (VRef 1%nat) "packed int32" 2 "v" 0]
             [OObject [("v"%string, VRef 1%nat)]; OArray [VNum 128]]).
Proof. repeat split; reflexivity. Qed.

(** C5, amended. Overshoot is not checked: the loop over a message and the
    loop over a packed block run while the cursor is below their end, so a
    loop that returns leaves the cursor at or past that end, not
    necessarily on it, and decoding goes on from there. *)
Theorem loops_stop_at_or_past_end {reader : WireReader} (root : Root)
    (buffer : list byte) :
  (forall fuel currentType endPos targetObj basePath depth globalOffset s s',
      readMessage root buffer fuel currentType endPos targetObj basePath depth
        globalOffset s = Ok (tt, s') ->
      endPos <= st_pos s') /\
  (forall fuel typeName arr packedEnd s s',
      packedLoop buffer fuel typeName arr packedEnd s = Ok (tt, s') ->
      packedEnd <= st_pos s').
Proof.
  split.
  - induction fuel as [|fuel IH]; simpl; intros t e o bp d g s s' H; [discriminate|].
    unfold bind at 1 in H. simpl in H.
    destruct (Z.ltb_spec (st_pos s) e) as [Hlt|Hge].
    + unfold bind at 1 in H.
      destruct (readField root buffer (readMessage root buffer fuel) fuel t o bp d g s)
        as [[u s1]|err|]; try discriminate.
      eapply IH; eassumption.
    + inversion H; subst. assumption.
  - induction fuel as [|fuel IH]; simpl; intros ty arr pe s s' H; [discriminate|].
    unfold bind at 1 in H. simpl in H.
    destruct (Z.ltb_spec (st_pos s) pe) as [Hlt|Hge].
    + unfold bind at 1 in H.
      destruct (readerReflect buffer ty s) as [[val s1]|err|]; try discriminate.
      unfold bind at 1 in H.
      destruct (arrayPush arr val s1) as [[u s2]|err|]; try discriminate.
      eapply IH; eassumption.
    + inversion H; subst. assumption.
Qed.

Lemma loops_stop_at_or_past_end_witness :
  readMessage (reader := specReader) Examples.innerRoot [x0a; x01; x08; x05]
    4 Examples.Inner 3 1%nat "m" 1%nat 0
    (mkState 2 [OObject [("m"%string, VRef 1%nat)]; OObject []] [])
  = Ok (tt, mkState 4
              [OObject [("m"%string, VRef 1%nat)]; OObject [("x"%string, VNum 5)]]
              [ByteRegion.mk 2 4 "m.x" (VNum 5) "int32" 0 "x" 1])
  /\ 3 <= 4
  /\ packedLoop (reader := specReader) [x0a; x01; x80; x01] 4 "int32" (VRef 1%nat) 3
       (mkState 2 [OObject [("v"%string, VRef 1%nat)]; OArray []] [])
     = Ok (tt, mkState 4 [OObject [("v"%string, VRef 1%nat)]; OArray [VNum 128]] [])
  /\ 3 <= 4.
Proof.
  assert (Hmsg :
    readMessage (reader := specReader) Examples.innerRoot [x0a; x01; x08; x05]
      4 Examples.Inner 3 1%nat "m" 1%nat 0
      (mkState 2 [OObject [("m"%string, VRef 1%nat)]; OObject []] [])
    = Ok (tt, mkState 4
                [OObject [("m"%string, VRef 1%nat)]; OObject [("x"%string, VNum 5)]]
                [ByteRegion.mk 2 4 "m.x" (VNum 5) "int32" 0 "x" 1]))
    by reflexivity.
  assert (Hpacked :
    packedLoop (reader := specReader) [x0a; x01; x80; x01] 4 "int32" (VRef 1%nat) 3
      (mkState 2 [OObject [("v"%string, VRef 1%nat)]; OArray []] [])
    = Ok (tt, mkState 4 [OObject [("v"%string, VRef 1%nat)]; OArray [VNum 128]] []))
    by reflexivity.
  split; [exact Hmsg|]. split.
  - exact (proj1 (loops_stop_at_or_past_end (reader := specReader)
                    Examples.innerRoot [x0a; x01; x08; x05])
             _ _ _ _ _ _ _ _ _ Hmsg).
  - split; [exact Hpacked|].
    exact (proj2 (loops_stop_at_or_past_end (reader := specReader)
                    Examples.noTypes [x0a; x01; x80; x01])
             _ _ _ _ _ _ Hpacked).
Defined.

(** In every successful decode a region below the top level is followed by
    the region of the message field in which it was decoded. *)
Lemma parent_region_follows {reader : WireReader} (root : Root)
    (buffer : list byte) (type : ProtoType.t) (d : Decoded.t)
    (before : list ByteRegion.t) (B : ByteRegion.t) (after : list ByteRegion.t) :
  decodeWithRegions root buffer type = Ok d ->
  Decoded.regions d = before ++ B :: after ->
  (0 < ByteRegion.depth B)%nat ->
  exists m A rest,
    after = m ++ A :: rest /\
    S (ByteRegion.depth A) = ByteRegion.depth B /\
    ByteRegion.start A <= ByteRegion.start B /\
    ByteRegion.end_ B <= ByteRegion.end_ A.
Proof.
  intros Hd Hsplit Hdeep.
  apply decodeWithRegions_emitted in Hd. destruct Hd as [hi Hem].
  eapply Emitted_parent_follows; eassumption.
Qed.

(** C7. The region of a nested message field is pushed after the recursive
    call returns, so it follows the regions of the fields decoded inside
    it, where the claim has it in front of them: on
    [Outer { m: Inner { x: 1 } }] the list is [m.x] and then [m]. *)
Theorem nested_region_follows_its_children :
  decodeWithRegions (reader := specReader) Examples.innerRoot
    [x0a; x02; x08; x01] Examples.Outer
  = Ok (Decoded.mk (VRef 0%nat)
          [ ByteRegion.mk 2 4 "m.x" (VNum 1) "int32" 0 "x" 1;
            ByteRegion.mk 0 4 "m" (VRef 1%nat) "Inner" 2 "m" 0 ]
          [OObject [("m"%string, VRef 1%nat)]; OObject [("x"%string, VNum 1)]]).
Proof. reflexivity. Qed.

(** C8, as stated, fails: the failure that leaves [decodeWithRegions]
    does not determine the name of the type that was being decoded. *)
Lemma failure_carries_no_type_name_counterexample :
  ~ exists typeNameOf : Thrown -> string,
      forall (root : Root) (buffer : list byte) (type : ProtoType.t) (e : Thrown),
        decodeWithRegions (reader := specReader) root buffer type = Throw e ->
        typeNameOf e = ProtoType.name type.
Proof.
  intros [typeNameOf H].
  pose proof (H Examples.noTypes [x08] Examples.Person _ eq_refl) as H1.
  pose proof (H Examples.noTypes [x08] Examples.Inner _ eq_refl) as H2.
  simpl in H1, H2. rewrite H1 in H2. discriminate.
Qed.

(** C8, amended. Every call of decode either returns its result or throws
    one [Error] whose message is the fixed text
    "Failed to decode binary with provided proto type."; the failure names
    neither the type nor an offset, and with it no value tree and no
    region list is returned. *)
Theorem failure_is_one_fixed_error {reader : WireReader} (root : Root)
    (buffer : list byte) (type : ProtoType.t) :
  (exists d, decodeWithRegions root buffer type = Ok d) \/
  decodeWithRegions root buffer type = Throw (JsError failureMessage).
Proof.
  pose proof (decodeWithRegions_total root buffer type) as Htotal.
  unfold decodeWithRegions in *.
  destruct (readMessage root buffer (S (List.length buffer)) type
              (Z.of_nat (List.length buffer)) 0%nat EmptyString 0%nat 0 initialState)
    as [[u s]|e|].
  - left. eexists. reflexivity.
  - right. reflexivity.
  - contradiction.
Qed.

(** ** Running single iterations *)

Section Runs.
Context {reader : WireReader}.
Variable root : Root.
Variable buffer : list byte.

Lemma readMessage_next (fuel : nat) (t : ProtoType.t) (e : Z) (o : Loc)
    (bp : string) (d : nat) (g : Z) (s s1 : State) :
  st_pos s < e ->
  readField root buffer (readMessage root buffer fuel) fuel t o bp d g s = Ok (tt, s1) ->
  readMessage root buffer (S fuel) t e o bp d g s =
  readMessage root buffer fuel t e o bp d g s1.
Proof.
  intros Hlt Hfield. simpl. unfold bind at 1. simpl.
  rewrite (proj2 (Z.ltb_lt _ _) Hlt). unfold bind at 1. rewrite Hfield. reflexivity.
Qed.

Lemma readMessage_done (fuel : nat) (t : ProtoType.t) (e : Z) (o : Loc)
    (bp : string) (d : nat) (g : Z) (s : State) :
  e <= st_pos s ->
  readMessage root buffer (S fuel) t e o bp d g s = Ok (tt, s).
Proof.
  intros Hge. simpl. unfold bind at 1. simpl.
  rewrite (proj2 (Z.ltb_ge _ _) Hge). reflexivity.
Qed.

(** An occurrence of an unknown field: the value is skipped, the store
    is left as it was, and the region's path carries no index. *)
Lemma readField_unknown
    (self : ProtoType.t -> Z -> Loc -> string -> nat -> Z -> M unit) (fuel : nat)
    (t : ProtoType.t) (o : Loc) (bp : string) (d : nat) (g : Z) (s : State)
    (tag p1 : Z) (u : unit) (p2 : Z) :
  uint32 buffer (st_pos s) = Got tag p1 ->
  findField t (Z.shiftr tag 3) = None ->
  skipType buffer (Z.land tag 7) p1 = Got u p2 ->
  readField root buffer self fuel t o bp d g s =
  Ok (tt, mkState p2 (st_heap s)
            (st_regions s ++
               [ByteRegion.mk (st_pos s) p2
                  (joinPath bp ("unknown_" ++ decimal (Z.shiftr tag 3)))
                  (VStr "Unknown Field") "unknown" (Z.land tag 7)
                  ("unknown_" ++ decimal (Z.shiftr tag 3)) d])).
Proof.
  intros Htag Hfind Hskip.
  unfold readField, bind, getPos, readerCall. rewrite Htag.
  cbv zeta. rewrite Hfind. simpl. rewrite Hskip. reflexivity.
Qed.

(** An occurrence of a known field that is neither repeated nor a map
    nor a nested message, and whose type names a reader method: the
    property is assigned, whatever it held before, and the region's path
    is the plain field path. *)
Lemma readField_scalar
    (self : ProtoType.t -> Z -> Loc -> string -> nat -> Z -> M unit) (fuel : nat)
    (t : ProtoType.t) (o : Loc) (bp : string) (d : nat) (s : State)
    (props : list (string * Value)) (f : Field.t)
    (method : list byte -> Z -> Read Value) (tag p1 : Z) (v : Value) (p2 : Z) :
  nth_error (st_heap s) o = Some (OObject props) ->
  uint32 buffer (st_pos s) = Got tag p1 ->
  findField t (Z.shiftr tag 3) = Some f ->
  Field.repeated f = false ->
  Field.map f = false ->
  (forall ref, Field.resolvedType f <> RType ref) ->
  readMethod (Field.type f) = Some method ->
  method buffer p1 = Got v p2 ->
  readField root buffer self fuel t o bp d 0 s =
  Ok (tt, mkState p2
            (heapUpdate o (OObject (propStore (Field.name f) v props)) (st_heap s))
            (st_regions s ++
               [ByteRegion.mk (st_pos s) p2 (joinPath bp (Field.name f)) v
                  (Field.type f) (Z.land tag 7) (Field.name f) d])).
Proof.
  intros Hobj Htag Hfind Hrep Hmap Hres Hmethod Hread.
  unfold readField, bind, getPos, readerCall. rewrite Htag.
  cbv zeta. rewrite Hfind. rewrite Hrep, Hmap. simpl.
  destruct (Z.land tag 7 =? 2); destruct (Field.resolvedType f) as [| |ref] eqn:Hr;
    try (exfalso; eapply Hres; reflexivity);
    rewrite Hmethod; simpl; rewrite Hread; simpl;
    unfold storeValue, setProp; rewrite Hrep; simpl;
    rewrite Hobj; reflexivity.
Qed.

(** A run that throws. *)
Definition throws {A} (m : M A) (s : State) : Prop := exists e, m s = Throw e.

Lemma throws_bind_left {A B} (m : M A) (k : A -> M B) (s : State) :
  throws m s -> throws (bind m k) s.
Proof. intros [e H]. exists e. unfold bind. rewrite H. reflexivity. Qed.

Lemma throws_bind_pure {A B} (m : M A) (k : A -> M B) (s : State) :
  pureHeap m ->
  (forall a h', throws (k a) (mkState (st_pos s) h' (st_regions s))) ->
  throws (bind m k) s.
Proof.
  intros Hm Hk. unfold throws, bind. specialize (Hm s).
  destruct (m s) as [[a [p h rs]]|e|]; simpl in Hm.
  - destruct Hm as [-> ->]. apply Hk.
  - eauto.
  - contradiction.
Qed.

Lemma throws_bind_getPos {B} (k : Z -> M B) (s : State) :
  throws (k (st_pos s)) s -> throws (bind getPos k) s.
Proof. intros H. exact H. Qed.

Lemma throws_bind_read {A B} (method : list byte -> Z -> Read A) (k : A -> M B)
    (s : State) (a : A) (p : Z) :
  method buffer (st_pos s) = Got a p ->
  throws (k a) (mkState p (st_heap s) (st_regions s)) ->
  throws (bind (readerCall buffer method) k) s.
Proof.
  intros Hread Hk. unfold throws, bind, readerCall. rewrite Hread. exact Hk.
Qed.

(** A non-empty packed block of a type without a reader method: the
    first element read throws. *)
Lemma readField_packed_throws
    (self : ProtoType.t -> Z -> Loc -> string -> nat -> Z -> M unit) (fuel : nat)
    (t : ProtoType.t) (o : Loc) (bp : string) (d : nat) (g : Z) (s : State)
    (f : Field.t) (tag p1 len p2 : Z) :
  uint32 buffer (st_pos s) = Got tag p1 ->
  findField t (Z.shiftr tag 3) = Some f ->
  Field.map f = false ->
  Field.repeated f = true ->
  Field.packed f = true ->
  Z.land tag 7 = 2 ->
  readMethod (Field.type f) = None ->
  uint32 buffer p1 = Got len p2 ->
  0 < len ->
  throws (readField root buffer self (S fuel) t o bp d g) s.
Proof.
  intros Htag Hfind Hmap Hrep Hpacked Hwire Hmethod Hlen Hpos.
  unfold readField.
  apply throws_bind_pure; [pure_heap|]. intros startPos h0.
  eapply throws_bind_read; [simpl; exact Htag|].
  cbv zeta. rewrite Hfind, Hmap, Hrep, Hpacked, Hwire. simpl.
  apply throws_bind_pure; [apply pureHeap_ensureArray|]. intros u1 h1. simpl.
  apply throws_bind_pure; [pure_heap|]. intros currentPath h2. simpl.
  eapply throws_bind_read; [simpl; exact Hlen|].
  apply throws_bind_getPos. simpl.
  apply throws_bind_pure; [apply pureHeap_ensureArray|]. intros u2 h4. simpl.
  apply throws_bind_pure; [pure_heap|]. intros arr h5. simpl.
  apply throws_bind_left. simpl. apply throws_bind_getPos. simpl.
  rewrite (proj2 (Z.ltb_lt p2 (p2 + len))) by lia.
  apply throws_bind_left. unfold readerReflect. rewrite Hmethod.
  eexists. reflexivity.
Qed.
End Runs.

(** A non-empty packed block of a type without a reader method as the
    first field of the root message: the call of the missing reader
    method is what throws. *)
Lemma readField_packed_first {reader : WireReader} (root : Root)
    (buffer : list byte)
    (self : ProtoType.t -> Z -> Loc -> string -> nat -> Z -> M unit)
    (fuel : nat) (type : ProtoType.t) (f : Field.t) (tag p1 len p2 : Z) :
  uint32 buffer 0 = Got tag p1 ->
  findField type (Z.shiftr tag 3) = Some f ->
  Field.map f = false ->
  Field.repeated f = true ->
  Field.packed f = true ->
  Z.land tag 7 = 2 ->
  readMethod (Field.type f) = None ->
  uint32 buffer p1 = Got len p2 ->
  0 < len ->
  readField root buffer self (S fuel) type 0%nat EmptyString 0%nat 0 initialState
  = Throw (JsTypeError "reader[field.type] is not a function").
Proof.
  intros Htag Hfind Hmap Hrep Hpacked Hwire Hmethod Hlen Hpos.
  unfold readField, bind, getPos, readerCall. simpl. rewrite Htag.
  cbv zeta. rewrite Hfind, Hmap, Hrep, Hpacked, Hwire. simpl.
  unfold ensureArray, bind, getProp, propLookup. simpl.
  destruct (inherited (Field.name f)) eqn:Hinh; simpl;
    rewrite ?String.eqb_refl; simpl; rewrite Hlen; simpl;
    rewrite ?String.eqb_refl, ?Hinh; simpl;
    rewrite (proj2 (Z.ltb_lt p2 (p2 + len))) by lia;
    unfold readerReflect; rewrite Hmethod; reflexivity.
Qed.

Lemma readMessage_throws {reader : WireReader} (root : Root) (buffer : list byte)
    (fuel : nat) (t : ProtoType.t) (e : Z) (o : Loc) (bp : string) (d : nat) (g : Z)
    (s : State) (err : Thrown) :
  st_pos s < e ->
  readField root buffer (readMessage root buffer fuel) fuel t o bp d g s = Throw err ->
  readMessage root buffer (S fuel) t e o bp d g s = Throw err.
Proof.
  intros Hlt Hfield. simpl. unfold bind at 1. simpl.
  rewrite (proj2 (Z.ltb_lt _ _) Hlt). unfold bind at 1. rewrite Hfield. reflexivity.
Qed.

(** C6. A buffer that holds only field 99 with wire type 0 and value 5,
    decoded against a schema without a field 99, is decoded without
    failure: one region with path [unknown_99] over exactly the tag and
    the varint, bytes 0 to 3.  When the same unknown field occurs again
    there are two regions with that same path and the decoded object stays
    empty.  In general an occurrence of an unknown field leaves the
    decoded objects untouched and its path carries no index, so unknown
    fields are never grouped into arrays. *)
Theorem unknown_field_scenario :
  (forall (root : Root) (type : ProtoType.t),
      findField type 99 = None ->
      decodeWithRegions (reader := specReader) root [x98; x06; x05] type
      = Ok (Decoded.mk (VRef 0%nat)
              [ByteRegion.mk 0 3 "unknown_99" (VStr "Unknown Field") "unknown" 0
                 "unknown_99" 0]
              [OObject []])
      /\ decodeWithRegions (reader := specReader) root
           [x98; x06; x05; x98; x06; x05] type
         = Ok (Decoded.mk (VRef 0%nat)
                 [ ByteRegion.mk 0 3 "unknown_99" (VStr "Unknown Field") "unknown" 0
                     "unknown_99" 0;
                   ByteRegion.mk 3 6 "unknown_99" (VStr "Unknown Field") "unknown" 0
                     "unknown_99" 0 ]
                 [OObject []]))
  /\ (forall (reader : WireReader) (root : Root) (buffer : list byte)
        (self : ProtoType.t -> Z -> Loc -> string -> nat -> Z -> M unit)
        (fuel : nat) (t : ProtoType.t) (o : Loc) (bp : string) (d : nat) (g : Z)
        (s : State) (tag p1 : Z) (u : unit) (p2 : Z),
         uint32 buffer (st_pos s) = Got tag p1 ->
         findField t (Z.shiftr tag 3) = None ->
         skipType buffer (Z.land tag 7) p1 = Got u p2 ->
         readField root buffer self fuel t o bp d g s =
         Ok (tt, mkState p2 (st_heap s)
                   (st_regions s ++
                      [ByteRegion.mk (st_pos s) p2
                         (joinPath bp ("unknown_" ++ decimal (Z.shiftr tag 3)))
                         (VStr "Unknown Field") "unknown" (Z.land tag 7)
                         ("unknown_" ++ decimal (Z.shiftr tag 3)) d]))).
Proof.
  split.
  - intros root type Hnone. split.
    + unfold decodeWithRegions. simpl (List.length _).
      erewrite readMessage_next;
        [|simpl; lia
         |eapply (readField_unknown (reader := specReader)) with (tag := 792) (p1 := 2) (p2 := 3);
          [reflexivity|exact Hnone|reflexivity]].
      rewrite readMessage_done by (simpl; lia). reflexivity.
    + unfold decodeWithRegions. simpl (List.length _).
      erewrite readMessage_next;
        [|simpl; lia
         |eapply (readField_unknown (reader := specReader)) with (tag := 792) (p1 := 2) (p2 := 3);
          [reflexivity|exact Hnone|reflexivity]].
      erewrite readMessage_next;
        [|simpl; lia
         |eapply (readField_unknown (reader := specReader)) with (tag := 792) (p1 := 5) (p2 := 6);
          [reflexivity|exact Hnone|reflexivity]].
      rewrite readMessage_done by (simpl; lia). reflexivity.
  - intros reader root buffer self fuel t o bp d g s tag p1 u p2.
    apply readField_unknown.
Qed.

Lemma unknown_field_scenario_witness :
  findField Examples.Person 99 = None
  /\ decodeWithRegions (reader := specReader) Examples.noTypes [x98; x06; x05]
       Examples.Person
     = Ok (Decoded.mk (VRef 0%nat)
             [ByteRegion.mk 0 3 "unknown_99" (VStr "Unknown Field") "unknown" 0
                "unknown_99" 0]
             [OObject []])
  /\ readField (reader := specReader) Examples.noTypes [x98; x06; x05; x98; x06; x05]
       (fun _ _ _ _ _ _ => ret tt) 0 Examples.Person 0%nat EmptyString 0%nat 0
       (mkState 3 [OObject []] [])
     = Ok (tt, mkState 6 [OObject []]
                 [ByteRegion.mk 3 6 "unknown_99" (VStr "Unknown Field") "unknown" 0
                    "unknown_99" 0]).
Proof.
  split; [reflexivity|]. split.
  - exact (proj1 (proj1 unknown_field_scenario Examples.noTypes Examples.Person eq_refl)).
  - exact (proj2 unknown_field_scenario specReader Examples.noTypes
             [x98; x06; x05; x98; x06; x05] (fun _ _ _ _ _ _ => ret tt) 0%nat
             Examples.Person 0%nat EmptyString 0%nat 0 (mkState 3 [OObject []] [])
             792 5 tt 6 eq_refl eq_refl eq_refl).
Defined.

(** C9, as stated, fails: when the packed block is empty the loop body
    never runs, nothing is read through the missing method, and the decode
    succeeds with an empty array. *)
Lemma empty_packed_block_counterexample :
  readMethod (WireReader := specReader) "Color" = None
  /\ decodeWithRegions (reader := specReader) Examples.noTypes [x0a; x00] Examples.Colors
     = Ok (Decoded.mk (VRef 0%nat)
             [ByteRegion.mk 0 2 "c" (VRef 1%nat) "packed Color" 2 "c" 0]
             [OObject [("c"%string, VRef 1%nat)]; OArray []]).
Proof. split; reflexivity. Qed.

(** C9, amended. For a repeated packed field with wire type 2 whose type
    names no read method of the reader, and whose block is not empty,
    there is no local recovery: wherever the loop of [readMessage] meets
    the field the call throws, and when the field comes first in the
    buffer the error is the call of the missing method and the whole
    decode fails. *)
Theorem packed_without_method_fails {reader : WireReader} (root : Root)
    (buffer : list byte) :
  (forall (fuel : nat) (t : ProtoType.t) (endPos : Z) (o : Loc) (bp : string)
          (d : nat) (g : Z) (s : State) (f : Field.t) (tag p1 len p2 : Z),
      st_pos s < endPos ->
      uint32 buffer (st_pos s) = Got tag p1 ->
      findField t (Z.shiftr tag 3) = Some f ->
      Field.map f = false ->
      Field.repeated f = true ->
      Field.packed f = true ->
      Z.land tag 7 = 2 ->
      readMethod (Field.type f) = None ->
      uint32 buffer p1 = Got len p2 ->
      0 < len ->
      exists e, readMessage root buffer (S (S fuel)) t endPos o bp d g s = Throw e)
  /\
  (forall (type : ProtoType.t) (f : Field.t) (tag p1 len p2 : Z),
      uint32 buffer 0 = Got tag p1 ->
      findField type (Z.shiftr tag 3) = Some f ->
      Field.map f = false ->
      Field.repeated f = true ->
      Field.packed f = true ->
      Z.land tag 7 = 2 ->
      readMethod (Field.type f) = None ->
      uint32 buffer p1 = Got len p2 ->
      0 < len ->
      readMessage root buffer (S (List.length buffer)) type
        (Z.of_nat (List.length buffer)) 0%nat EmptyString 0%nat 0 initialState
      = Throw (JsTypeError "reader[field.type] is not a function")
      /\ decodeWithRegions root buffer type = Throw (JsError failureMessage)).
Proof.
  split.
  - intros fuel t endPos o bp d g s f tag p1 len p2
           Hend Htag Hfind Hmap Hrep Hpacked Hwire Hmethod Hlen Hpos.
    destruct (readField_packed_throws root buffer
                (readMessage root buffer (S fuel)) fuel t o bp d g s f tag p1 len p2
                Htag Hfind Hmap Hrep Hpacked Hwire Hmethod Hlen Hpos) as [e He].
    exists e. apply readMessage_throws; assumption.
  - intros type f tag p1 len p2 Htag Hfind Hmap Hrep Hpacked Hwire Hmethod Hlen Hpos.
    assert (Hrun :
      readMessage root buffer (S (List.length buffer)) type
        (Z.of_nat (List.length buffer)) 0%nat EmptyString 0%nat 0 initialState
      = Throw (JsTypeError "reader[field.type] is not a function")).
    { destruct (uint32_advances _ _ _ _ Htag) as [_ Hnonempty].
      destruct (List.length buffer) as [|n] eqn:Hn; [simpl in Hnonempty; lia|].
      apply readMessage_throws; [simpl; lia|].
      eapply readField_packed_first; eassumption. }
    split; [exact Hrun|].
    unfold decodeWithRegions. rewrite Hrun. reflexivity.
Qed.

Lemma packed_without_method_fails_witness :
  uint32 (WireReader := specReader) [x0a; x01; x01] 0 = Got 10 1
  /\ findField Examples.Colors (Z.shiftr 10 3)
     = Some (Field.mk 1 "c" "Color" true true false REnum)
  /\ readMethod (WireReader := specReader) "Color" = None
  /\ uint32 (WireReader := specReader) [x0a; x01; x01] 1 = Got 1 2
  /\ 0 < 1
  /\ (exists e,
         readMessage (reader := specReader) Examples.noTypes [x0a; x01; x01] 4
           Examples.Colors 3 0%nat EmptyString 0%nat 0 initialState = Throw e)
  /\ decodeWithRegions (reader := specReader) Examples.noTypes [x0a; x01; x01]
       Examples.Colors = Throw (JsError failureMessage).
Proof.
  do 4 (split; [reflexivity|]). split; [lia|]. split.
  - exact (proj1 (packed_without_method_fails (reader := specReader)
                    Examples.noTypes [x0a; x01; x01])
             2%nat Examples.Colors 3 0%nat EmptyString 0%nat 0 initialState
             (Field.mk 1 "c" "Color" true true false REnum) 10 1 1 2
             eq_refl eq_refl eq_refl eq_refl eq_refl eq_refl eq_refl eq_refl
             eq_refl eq_refl).
  - exact (proj2 (proj2 (packed_without_method_fails (reader := specReader)
                           Examples.noTypes [x0a; x01; x01])
                    Examples.Colors (Field.mk 1 "c" "Color" true true false REnum)
                    10 1 1 2
                    eq_refl eq_refl eq_refl eq_refl eq_refl eq_refl eq_refl eq_refl
                    eq_refl)).
Defined.

(** ** What the loop over a message leaves in its object *)

(** [n] names a plain field of [t]: every field of [t] of this name is
    neither repeated nor a map; [n] is not one of the names
    [unknown_<id>] under which the regions of unknown fields are
    recorded; and [n] is not [__proto__], the one key whose assignment is
    not a store. *)
Definition plainField (t : ProtoType.t) (n : string) : Prop :=
  (forall f, In f (ProtoType.fields t) -> Field.name f = n ->
             Field.repeated f = false /\ Field.map f = false) /\
  String.prefix "unknown_" n = false /\
  n <> "__proto__"%string.

(** Region [r] was recorded at depth [d] under the field name [n]. *)
Definition recordedFor (d : nat) (n : string) (r : ByteRegion.t) : bool :=
  (ByteRegion.depth r =? d)%nat && String.eqb (ByteRegion.fieldName r) n.

(** The last region of the list that was recorded at depth [d] under the
    field name [n]. *)
Fixpoint lastOccurrence (d : nat) (n : string) (regions : list ByteRegion.t)
  : option ByteRegion.t :=
  match regions with
  | [] => None
  | r :: rest =>
      match lastOccurrence d n rest with
      | Some later => Some later
      | None => if recordedFor d n r then Some r else None
      end
  end.

(** The objects of [h] other than [o] are in [h'] what they were. *)
Definition othersKept (o : Loc) (h h' : Heap) : Prop :=
  forall l props,
    l <> o -> nth_error h l = Some (OObject props) ->
    nth_error h' l = Some (OObject props).

(** From [h] to [h'] no object of [h] has changed but [o], and of [o] no
    property but [key]. *)
Definition heapStep (o : Loc) (key : string) (h h' : Heap) : Prop :=
  othersKept o h h' /\
  forall props,
    nth_error h o = Some (OObject props) ->
    exists props',
      nth_error h' o = Some (OObject props') /\
      forall n, n <> key -> propLookup n props' = propLookup n props.

Lemma heapStep_refl (o : Loc) (key : string) (h : Heap) : heapStep o key h h.
Proof.
  split; [intros l props _ H; exact H|].
  intros props H. exists props. split; [exact H|reflexivity].
Qed.

Lemma heapStep_trans (o : Loc) (key : string) (h1 h2 h3 : Heap) :
  heapStep o key h1 h2 -> heapStep o key h2 h3 -> heapStep o key h1 h3.
Proof.
  intros [K12 P12] [K23 P23]. split.
  - intros l props Hl H. apply K23, K12; assumption.
  - intros props H. destruct (P12 _ H) as (props2 & H2 & E2).
    destruct (P23 _ H2) as (props3 & H3 & E3).
    exists props3. split; [exact H3|].
    intros n Hn. rewrite E3, E2 by exact Hn. reflexivity.
Qed.

Lemma nth_error_heapUpdate_same (x : Obj) (h : Heap) :
  forall l y, nth_error h l = Some y -> nth_error (heapUpdate l x h) l = Some x.
Proof.
  induction h as [|z h IH]; intros [|l] y H; simpl in *;
    try discriminate; [reflexivity|eapply IH; eassumption].
Qed.

Lemma nth_error_heapUpdate_other (x : Obj) (h : Heap) :
  forall l l', l <> l' -> nth_error (heapUpdate l x h) l' = nth_error h l'.
Proof.
  induction h as [|z h IH]; intros [|l] [|l'] H; simpl; try reflexivity.
  - contradiction.
  - apply IH. intros Heq. apply H. rewrite Heq. reflexivity.
Qed.

Lemma propLookup_propStore_same (k : string) (v : Value)
    (props : list (string * Value)) :
  propLookup k (propStore k v props) = v.
Proof.
  unfold propLookup. induction props as [|kv props IH]; simpl.
  - rewrite String.eqb_refl. reflexivity.
  - destruct (String.eqb (fst kv) k) eqn:Heq; simpl.
    + rewrite String.eqb_refl. reflexivity.
    + rewrite Heq. exact IH.
Qed.

Lemma propLookup_propStore_other (k : string) (v : Value)
    (props : list (string * Value)) (n : string) :
  n <> k -> propLookup n (propStore k v props) = propLookup n props.
Proof.
  intros Hn. unfold propLookup.
  assert (Hkn : String.eqb k n = false) by (apply String.eqb_neq; congruence).
  induction props as [|kv props IH]; simpl.
  - rewrite Hkn. reflexivity.
  - destruct (String.eqb (fst kv) k) eqn:Heq; simpl.
    + apply String.eqb_eq in Heq. rewrite Heq, Hkn. reflexivity.
    + destruct (String.eqb (fst kv) n); [reflexivity|exact IH].
Qed.

Lemma heapStep_setProp (o : Loc) (key : string) (v : Value) (h : Heap)
    (props : list (string * Value)) :
  nth_error h o = Some (OObject props) ->
  heapStep o key h (heapUpdate o (OObject (propStore key v props)) h).
Proof.
  intros Ho. split.
  - intros l q Hl H. rewrite nth_error_heapUpdate_other by congruence. exact H.
  - intros props0 H. rewrite Ho in H. inversion H; subst props0.
    exists (propStore key v props). split.
    + eapply nth_error_heapUpdate_same. exact Ho.
    + intros n Hn. apply propLookup_propStore_other. exact Hn.
Qed.

Lemma heapStep_push (o : Loc) (key : string) (l : Loc) (elems elems' : list Value)
    (h : Heap) :
  nth_error h l = Some (OArray elems) ->
  heapStep o key h (heapUpdate l (OArray elems') h).
Proof.
  intros Hl. split.
  - intros l' q _ H. rewrite nth_error_heapUpdate_other; [exact H|].
    intros Heq. subst l'. rewrite Hl in H. discriminate.
  - intros props H. exists props. split; [|reflexivity].
    rewrite nth_error_heapUpdate_other; [exact H|].
    intros Heq. subst l. rewrite Hl in H. discriminate.
Qed.

Lemma heapStep_alloc (o : Loc) (key : string) (x : Obj) (h : Heap) :
  heapStep o key h (h ++ [x]).
Proof.
  assert (Hkeep : forall l y, nth_error h l = Some y -> nth_error (h ++ [x]) l = Some y).
  { intros l y H. rewrite nth_error_app1; [exact H|].
    apply nth_error_Some. congruence. }
  split.
  - intros l props _ H. apply Hkeep. exact H.
  - intros props H. exists props. split; [apply Hkeep; exact H|reflexivity].
Qed.

(** Operations on the store that leave the cursor and the region list
    alone and change, of the objects there were, at most the property
    [key] of [o]. *)
Definition stepsHeap {A} (o : Loc) (key : string) (m : M A) : Prop :=
  forall s,
    match m s with
    | Ok (_, s') =>
        st_pos s' = st_pos s /\ st_regions s' = st_regions s /\
        heapStep o key (st_heap s) (st_heap s')
    | Throw _ => True
    | OutOfFuel => False
    end.

Lemma stepsHeap_ret {A} (o : Loc) (key : string) (a : A) : stepsHeap o key (ret a).
Proof. intros s. simpl. auto using heapStep_refl. Qed.

Lemma stepsHeap_bind {A B} (o : Loc) (key : string) (m : M A) (k : A -> M B) :
  stepsHeap o key m -> (forall a, stepsHeap o key (k a)) -> stepsHeap o key (bind m k).
Proof.
  intros Hm Hk s. unfold bind. specialize (Hm s).
  destruct (m s) as [[a s1]|e|]; auto.
  specialize (Hk a s1). destruct (k a s1) as [[b s2]|e|]; auto.
  destruct Hm as (Hp1 & Hr1 & H1), Hk as (Hp2 & Hr2 & H2).
  split; [congruence|]. split; [congruence|].
  eapply heapStep_trans; eassumption.
Qed.

Lemma stepsHeap_alloc (o : Loc) (key : string) (x : Obj) : stepsHeap o key (alloc x).
Proof. intros s. simpl. auto using heapStep_alloc. Qed.

Lemma stepsHeap_newArray (o : Loc) (key : string) : stepsHeap o key newArray.
Proof. apply stepsHeap_alloc. Qed.

Lemma stepsHeap_getProp (o : Loc) (key : string) (obj : Loc) (k : string) :
  stepsHeap o key (getProp obj k).
Proof.
  intros s. unfold getProp.
  destruct (nth_error (st_heap s) obj) as [[props|elems]|]; simpl;
    auto using heapStep_refl.
Qed.

Lemma stepsHeap_setProp (o : Loc) (key : string) (v : Value) :
  stepsHeap o key (setProp o key v).
Proof.
  intros s. unfold setProp.
  destruct (nth_error (st_heap s) o) as [[props|elems]|] eqn:Ho; simpl; auto.
  auto using heapStep_setProp.
Qed.

Lemma stepsHeap_isArray (o : Loc) (key : string) (v : Value) :
  stepsHeap o key (isArray v).
Proof.
  intros s. unfold isArray. destruct v; simpl; auto using heapStep_refl.
  destruct (nth_error (st_heap s) l) as [[props|elems]|]; simpl;
    auto using heapStep_refl.
Qed.

Lemma stepsHeap_arrayLength (o : Loc) (key : string) (v : Value) :
  stepsHeap o key (arrayLength v).
Proof.
  intros s. unfold arrayLength. destruct v; simpl; auto.
  destruct (nth_error (st_heap s) l) as [[props|elems]|]; simpl;
    auto using heapStep_refl.
Qed.

Lemma stepsHeap_arrayPush (o : Loc) (key : string) (a v : Value) :
  stepsHeap o key (arrayPush a v).
Proof.
  intros s. unfold arrayPush. destruct a; simpl; auto.
  destruct (nth_error (st_heap s) l) as [[props|elems]|] eqn:Hl; simpl; auto.
  split; [reflexivity|]. split; [reflexivity|].
  eapply heapStep_push. exact Hl.
Qed.

Lemma stepsHeap_ensureArray (o : Loc) (key : string) :
  stepsHeap o key (ensureArray o key).
Proof.
  unfold ensureArray. apply stepsHeap_bind; [apply stepsHeap_getProp|].
  intros cur. destruct (negb (truthy cur)); [|apply stepsHeap_ret].
  apply stepsHeap_bind; [apply stepsHeap_newArray|].
  intros a. apply stepsHeap_setProp.
Qed.

Lemma stepsHeap_storeValue (o : Loc) (f : Field.t) (v : Value) :
  stepsHeap o (Field.name f) (storeValue f o (Field.name f) v).
Proof.
  unfold storeValue. destruct (Field.repeated f); [|apply stepsHeap_setProp].
  apply stepsHeap_bind; [apply stepsHeap_getProp|].
  intros arr. apply stepsHeap_arrayPush.
Qed.

Lemma wp_stepsHeap {A} (o : Loc) (key : string) (m : M A) (s : State)
    (Q : A -> State -> Prop) :
  stepsHeap o key m ->
  (forall a h', heapStep o key (st_heap s) h' ->
                Q a (mkState (st_pos s) h' (st_regions s))) ->
  wp True m s Q.
Proof.
  intros Hm HQ. unfold wp. specialize (Hm s).
  destruct (m s) as [[a [p h rs]]|e|]; simpl in *; [|trivial|trivial].
  destruct Hm as (-> & -> & Hstep). apply HQ. exact Hstep.
Qed.

Lemma unknown_prefix (s : string) : String.prefix "unknown_" ("unknown_" ++ s) = true.
Proof. simpl. destruct s; reflexivity. Qed.

Lemma lastOccurrence_app (d : nat) (n : string) (l1 l2 : list ByteRegion.t) :
  lastOccurrence d n (l1 ++ l2) =
  match lastOccurrence d n l2 with
  | Some later => Some later
  | None => lastOccurrence d n l1
  end.
Proof.
  induction l1 as [|r l1 IH]; simpl.
  - destruct (lastOccurrence d n l2); reflexivity.
  - rewrite IH. destruct (lastOccurrence d n l2); reflexivity.
Qed.

Lemma lastOccurrence_deeper (d : nat) (n : string) (kids : list ByteRegion.t) :
  Forall (fun k => (S d <= ByteRegion.depth k)%nat) kids ->
  lastOccurrence d n kids = None.
Proof.
  induction 1 as [|k kids Hk Hkids IH]; simpl; [reflexivity|].
  rewrite IH. unfold recordedFor.
  destruct (Nat.eqb_spec (ByteRegion.depth k) d); [lia|reflexivity].
Qed.

Section ObjectFacts.
Context {reader : WireReader}.
Variable root : Root.
Variable buffer : list byte.

(** The packed loop records nothing and changes no object. *)
Lemma packedLoop_heap (o : Loc) (key : string) (fuel : nat) (typeName : string)
    (arr : Value) (packedEnd : Z) :
  forall s,
    wp True (packedLoop buffer fuel typeName arr packedEnd) s
      (fun _ s' =>
         st_regions s' = st_regions s /\ heapStep o key (st_heap s) (st_heap s')).
Proof.
  induction fuel as [|fuel IH]; intros s; [exact I|].
  simpl. apply wp_bind, wp_getPos.
  destruct (st_pos s <? packedEnd).
  - apply wp_bind. unfold readerReflect.
    destruct (readMethod typeName) as [method|]; [|exact I].
    apply wp_readerCall. intros val p' _.
    apply wp_bind, (wp_stepsHeap o key); [apply stepsHeap_arrayPush|].
    intros [] h' Hstep. simpl in Hstep |- *.
    eapply wp_weaken; [apply IH|].
    simpl. intros _ s' [Hrs Hstep']. split; [exact Hrs|].
    eapply heapStep_trans; eassumption.
  - apply wp_ret. split; [reflexivity|apply heapStep_refl].
Qed.

(** What one run of the loop of [readMessage] for the object [o] of type
    [t] at depth [d] guarantees: the regions it appends are at depth [d]
    or deeper; it changes no other object that there was; and for every
    plain field name, the regions recorded for it at depth [d] carry the
    one path of the field, and the object holds under that name the value
    of the last of them, or what it held before when there is none. *)
Definition messagePost (t : ProtoType.t) (o : Loc) (bp : string) (d : nat)
    (s : State) : unit -> State -> Prop :=
  fun _ s' =>
    exists new,
      st_regions s' = st_regions s ++ new /\
      Forall (fun r => (d <= ByteRegion.depth r)%nat) new /\
      othersKept o (st_heap s) (st_heap s') /\
      forall props,
        nth_error (st_heap s) o = Some (OObject props) ->
        exists props',
          nth_error (st_heap s') o = Some (OObject props') /\
          forall n,
            plainField t n ->
            (forall r, In r new -> ByteRegion.depth r = d ->
                       ByteRegion.fieldName r = n ->
                       ByteRegion.path r = joinPath bp n) /\
            match lastOccurrence d n new with
            | Some r => propLookup n props' = ByteRegion.value r
            | None => propLookup n props' = propLookup n props
            end.

(** One field occurrence: the regions of the nested call, all deeper,
    then its own region [r]; no property but the one of the field is
    changed; and when the field is plain, the object holds the value of
    [r] under the name of the field. *)
Definition fieldPost (t : ProtoType.t) (o : Loc) (bp : string) (d : nat)
    (s : State) : unit -> State -> Prop :=
  fun _ s' =>
    exists kids r,
      st_regions s' = st_regions s ++ kids ++ [r] /\
      Forall (fun k => (S d <= ByteRegion.depth k)%nat) kids /\
      ByteRegion.depth r = d /\
      heapStep o (ByteRegion.fieldName r) (st_heap s) (st_heap s') /\
      forall n,
        plainField t n -> ByteRegion.fieldName r = n ->
        ByteRegion.path r = joinPath bp n /\
        forall props,
          nth_error (st_heap s) o = Some (OObject props) ->
          exists props',
            nth_error (st_heap s') o = Some (OObject props') /\
            propLookup n props' = ByteRegion.value r.

Section Field.
Variable self : ProtoType.t -> Z -> Loc -> string -> nat -> Z -> M unit.
Variable fuel : nat.
Hypothesis self_post :
  forall t e o bp d s, wp True (self t e o bp d 0) s (messagePost t o bp d s).

(** A field that is repeated or a map has no plain name. *)
Lemma not_plain (t : ProtoType.t) (f : Field.t) (n : string) :
  In f (ProtoType.fields t) ->
  Field.repeated f = true \/ Field.map f = true ->
  plainField t n -> Field.name f = n -> False.
Proof.
  intros Hin Hkind [Hplain _] Hname.
  destruct (Hplain f Hin Hname) as [Hrep Hmap].
  destruct Hkind; congruence.
Qed.

Lemma wp_if_ensureArray (rep : bool) (o : Loc) (key : string) (p : Z) (h : Heap)
    (rs : list ByteRegion.t) (Q : unit -> State -> Prop) :
  (forall h1, heapStep o key h h1 -> (rep = false -> h1 = h) ->
              Q tt (mkState p h1 rs)) ->
  wp True (if rep then ensureArray o key else ret tt) (mkState p h rs) Q.
Proof.
  intros HQ. destruct rep.
  - apply (wp_stepsHeap o key); [apply stepsHeap_ensureArray|].
    intros [] h1 H1. apply HQ; [exact H1|discriminate].
  - apply wp_ret, HQ; [apply heapStep_refl|reflexivity].
Qed.

Lemma wp_currentPath (rep : bool) (o : Loc) (key bp : string) (p : Z) (h : Heap)
    (rs : list ByteRegion.t) (Q : string -> State -> Prop) :
  (forall cp h1, heapStep o key h h1 ->
                 (rep = false -> cp = joinPath bp key /\ h1 = h) ->
                 Q cp (mkState p h1 rs)) ->
  wp True
    (if rep then
       cur <- getProp o key ;;
       isArr <- isArray cur ;;
       if isArr then
         n <- arrayLength cur ;;
         ret (joinPath bp key ++ "[" ++ decimal n ++ "]")%string
       else ret (joinPath bp key)
     else ret (joinPath bp key)) (mkState p h rs) Q.
Proof.
  intros HQ. destruct rep.
  - apply (wp_stepsHeap o key).
    + apply stepsHeap_bind; [apply stepsHeap_getProp|]. intros cur.
      apply stepsHeap_bind; [apply stepsHeap_isArray|]. intros [|].
      * apply stepsHeap_bind; [apply stepsHeap_arrayLength|]. intros n.
        apply stepsHeap_ret.
      * apply stepsHeap_ret.
    + intros cp h1 H1. apply HQ; [exact H1|discriminate].
  - apply wp_ret, HQ; [apply heapStep_refl|auto].
Qed.

Lemma wp_storeValue (f : Field.t) (o : Loc) (v : Value) (p : Z) (h : Heap)
    (rs : list ByteRegion.t) (Q : unit -> State -> Prop) :
  (forall h1, heapStep o (Field.name f) h h1 ->
              (Field.repeated f = false ->
               forall props, nth_error h o = Some (OObject props) ->
                 nth_error h1 o = Some (OObject (propStore (Field.name f) v props))) ->
              Q tt (mkState p h1 rs)) ->
  wp True (storeValue f o (Field.name f) v) (mkState p h rs) Q.
Proof.
  intros HQ. unfold storeValue. destruct (Field.repeated f).
  - apply (wp_stepsHeap o (Field.name f)).
    + apply stepsHeap_bind; [apply stepsHeap_getProp|].
      intros arr. apply stepsHeap_arrayPush.
    + intros [] h1 H1. apply HQ; [exact H1|discriminate].
  - unfold wp, setProp. cbn [st_heap st_pos st_regions].
    destruct (nth_error h o) as [[props|elems]|] eqn:Ho; try exact I.
    apply HQ; [apply heapStep_setProp; exact Ho|].
    intros _ props0 Hprops0. inversion Hprops0; subst props0.
    eapply nth_error_heapUpdate_same. exact Ho.
Qed.

(** Recording the region of the occurrence ends the iteration. *)
Lemma recordRegion_props (t : ProtoType.t) (o : Loc) (bp : string) (d : nat)
    (p0 : Z) (h0 : Heap) (rs : list ByteRegion.t) (f : Field.t) (wireType : Z)
    (kids : list ByteRegion.t) (cp : string) (v : Value) (p : Z) (h : Heap) :
  Forall (fun k => (S d <= ByteRegion.depth k)%nat) kids ->
  heapStep o (Field.name f) h0 h ->
  (forall n, plainField t n -> Field.name f = n ->
             cp = joinPath bp n /\
             forall props, nth_error h0 o = Some (OObject props) ->
               exists props',
                 nth_error h o = Some (OObject props') /\ propLookup n props' = v) ->
  wp True (recordRegion p0 cp v (Some f) wireType (Field.name f) d)
    (mkState p h (rs ++ kids)) (fieldPost t o bp d (mkState p0 h0 rs)).
Proof.
  intros Hkids Hstep Hexact. unfold recordRegion.
  apply wp_bind, wp_getPos, wp_pushRegion. cbn [st_pos st_heap st_regions].
  eexists kids, _. split; [rewrite <- app_assoc; reflexivity|].
  split; [exact Hkids|]. split; [reflexivity|]. split; [exact Hstep|].
  exact Hexact.
Qed.


Lemma readField_props (t : ProtoType.t) (o : Loc) (bp : string) (d : nat)
    (s : State) :
  wp True (readField root buffer self fuel t o bp d 0) s (fieldPost t o bp d s).
Proof.
  destruct s as [p0 h0 rs]. unfold readField.
  apply wp_bind, wp_getPos. cbn [st_pos].
  apply wp_bind, wp_readerCall. intros tag p1 _. cbn [st_pos st_heap st_regions].
  cbv zeta.
  destruct (findField t (Z.shiftr tag 3)) as [f|] eqn:Hfind.
  2: {
    apply wp_bind, wp_ret. apply wp_bind, wp_ret.
    apply wp_bind, wp_readerCall. intros u p2 _. cbn [st_pos st_heap st_regions].
    unfold recordRegion. apply wp_bind, wp_getPos, wp_pushRegion.
    cbn [st_pos st_heap st_regions].
    eexists [], _. split; [reflexivity|]. split; [constructor|].
    split; [reflexivity|]. split; [apply heapStep_refl|].
    cbn [ByteRegion.fieldName]. intros n [_ [Hpre _]] Hname. subst n.
    rewrite unknown_prefix in Hpre. discriminate. }
  assert (Hin : In f (ProtoType.fields t)).
  { unfold findField in Hfind. apply find_some in Hfind. tauto. }
  apply wp_bind, wp_if_ensureArray. intros h1 H1 Hsame1.
  apply wp_bind, wp_currentPath. intros cp h2 H12 Hsame2.
  assert (H2 : heapStep o (Field.name f) h0 h2)
    by (eapply heapStep_trans; eassumption).
  assert (Hcp : Field.repeated f = false -> cp = joinPath bp (Field.name f) /\ h2 = h0).
  { intros Hrep. destruct (Hsame2 Hrep) as [Hcp Hh]. split; [exact Hcp|].
    rewrite Hh. apply Hsame1. exact Hrep. }
  clear h1 H1 Hsame1 H12 Hsame2.
  destruct (Field.map f) eqn:Hmap.
  { apply wp_bind, wp_readerCall. intros u p2 _. cbn [st_pos st_heap st_regions].
    rewrite <- (app_nil_r rs) at 1.
    apply recordRegion_props; [constructor|exact H2|].
    intros n Hplain Hname. exfalso. eapply not_plain; eauto. }
  destruct (Field.repeated f && Field.packed f && (Z.land tag 7 =? 2)) eqn:Hpk.
  { assert (Hrep : Field.repeated f = true).
    { destruct (Field.repeated f); [reflexivity|discriminate]. }
    apply wp_bind, wp_readerCall. intros packedLen p2 _.
    cbn [st_pos st_heap st_regions].
    apply wp_bind, wp_getPos. cbn [st_pos].
    apply wp_bind, (wp_stepsHeap o (Field.name f)); [apply stepsHeap_ensureArray|].
    intros [] h3 H3. cbn [st_pos st_heap st_regions] in H3 |- *.
    apply wp_bind, (wp_stepsHeap o (Field.name f)); [apply stepsHeap_getProp|].
    intros arr h4 H4. cbn [st_pos st_heap st_regions] in H4 |- *.
    apply wp_bind. eapply wp_weaken; [apply (packedLoop_heap o (Field.name f))|].
    intros _ [p3 h5 rs'] [Hrs H5]. cbn [st_pos st_heap st_regions] in Hrs, H5. subst rs'.
    apply wp_bind, wp_getPos, wp_pushRegion. cbn [st_pos st_heap st_regions].
    eexists [], _. split; [reflexivity|]. split; [constructor|].
    split; [reflexivity|]. cbn [ByteRegion.fieldName]. split.
    - eapply heapStep_trans; [exact H2|].
      eapply heapStep_trans; [exact H3|].
      eapply heapStep_trans; [exact H4|exact H5].
    - intros n Hplain Hname. exfalso. eapply not_plain; eauto. }
  clear Hpk. apply wp_bind.
  assert (Hstore : forall v p,
             wp True (storeValue f o (Field.name f) v ;; ret v) (mkState p h2 rs)
               (fun a s1 =>
                  wp True
                    (recordRegion p0 cp a (Some f) (Z.land tag 7) (Field.name f) d) s1
                    (fieldPost t o bp d (mkState p0 h0 rs)))).
  { intros v p. apply wp_bind, wp_storeValue. intros h3 H3 Hexact. apply wp_ret.
    rewrite <- (app_nil_r rs) at 1.
    apply recordRegion_props;
      [constructor|eapply heapStep_trans; eassumption|].
    intros n Hplain Hname.
    destruct (proj1 Hplain f Hin Hname) as [Hrep _].
    destruct (Hcp Hrep) as [Hcpeq Hh]. subst h2.
    split; [rewrite Hcpeq, Hname; reflexivity|].
    intros props Hprops. exists (propStore (Field.name f) v props).
    split; [apply Hexact; assumption|].
    rewrite <- Hname. apply propLookup_propStore_same. }
  assert (Hleaf :
    wp True (v <- match readMethod (Field.type f) with
                  | Some method => readerCall buffer method
                  | None =>
                      match Field.resolvedType f with
                      | REnum => n <- readerCall buffer int32 ;; ret (VNum n)
                      | _ =>
                          readerCall buffer (fun b q => skipType b (Z.land tag 7) q) ;;
                          ret (VStr "[Skipped]")
                      end
                  end ;;
             storeValue f o (Field.name f) v ;; ret v)
      (mkState p1 h2 rs)
      (fun a s1 =>
         wp True (recordRegion p0 cp a (Some f) (Z.land tag 7) (Field.name f) d) s1
           (fieldPost t o bp d (mkState p0 h0 rs)))).
  { apply wp_bind.
    destruct (readMethod (Field.type f)) as [method|].
    - apply wp_readerCall. intros v p _. apply Hstore.
    - destruct (Field.resolvedType f);
        apply wp_bind, wp_readerCall; intros x p _; apply wp_ret; apply Hstore. }
  destruct (Z.land tag 7 =? 2); [|exact Hleaf].
  destruct (Field.resolvedType f) as [| |ref] eqn:Hres; [exact Hleaf|exact Hleaf|].
  clear Hleaf Hstore.
  apply wp_bind, wp_readerCall. intros len p2 _. cbn [st_pos st_heap st_regions].
  apply wp_bind, wp_getPos. cbn [st_pos].
  apply wp_bind. unfold newObject, alloc at 1, wp at 1.
  cbn [st_pos st_heap st_regions].
  assert (Hfresh : forall l y, nth_error h2 l = Some y -> l <> List.length h2).
  { intros l y Hl Heq. assert (l < List.length h2)%nat by (apply nth_error_Some; congruence).
    lia. }
  apply wp_bind, wp_storeValue. intros h4 H4 Hexact.
  apply wp_bind. eapply wp_weaken; [apply self_post|].
  intros [] [p5 h5 rs5] (kids & Hrs & Hdepth & Hkept & _).
  cbn [st_pos st_heap st_regions] in Hrs, Hkept |- *. subst rs5.
  apply wp_ret.
  assert (H04 : heapStep o (Field.name f) h0 h4).
  { eapply heapStep_trans; [exact H2|].
    eapply heapStep_trans; [apply heapStep_alloc|exact H4]. }
  apply recordRegion_props.
  - exact Hdepth.
  - split.
    + intros l props Hl Hobj. apply Hkept; [|apply H04; assumption].
      eapply Hfresh. apply (proj1 H2); eassumption.
    + intros props Hobj.
      destruct (proj2 H04 props Hobj) as (props' & Hobj' & Hsame).
      exists props'. split; [|exact Hsame].
      apply Hkept; [|exact Hobj'].
      destruct (proj2 H2 props Hobj) as (props2 & Hobj2 & _).
      eapply Hfresh. exact Hobj2.
  - intros n Hplain Hname.
    destruct (proj1 Hplain f Hin Hname) as [Hrep _].
    destruct (Hcp Hrep) as [Hcpeq Hh]. subst h2.
    split; [rewrite Hcpeq, Hname; reflexivity|].
    intros props Hprops.
    exists (propStore (Field.name f) (VRef (List.length h0)) props). split.
    + apply Hkept; [eapply Hfresh; exact Hprops|].
      apply Hexact; [exact Hrep|].
      rewrite nth_error_app1; [exact Hprops|].
      apply nth_error_Some. congruence.
    + rewrite <- Hname. apply propLookup_propStore_same.
Qed.
End Field.

Lemma readMessage_props (fuel : nat) :
  forall t e o bp d s,
    wp True (readMessage root buffer fuel t e o bp d 0) s (messagePost t o bp d s).
Proof.
  induction fuel as [|fuel IH]; intros t e o bp d s; [exact I|].
  simpl. apply wp_bind, wp_getPos.
  destruct (st_pos s <? e).
  - apply wp_bind. eapply wp_weaken; [apply readField_props; exact IH|].
    intros [] s1 (kids & r & Hrs1 & Hkids & Hdepth & Hstep & Hexact).
    eapply wp_weaken; [apply IH|].
    intros [] s2 (new & Hrs2 & Hnew & Hkept & Hprops).
    exists (kids ++ r :: new).
    split; [rewrite Hrs2, Hrs1, <- !app_assoc; reflexivity|].
    split.
    { apply Forall_app. split.
      - eapply Forall_impl; [|exact Hkids]. simpl. intros k Hk. lia.
      - constructor; [lia|exact Hnew]. }
    split.
    { intros l props Hl Hobj. apply Hkept; [exact Hl|].
      apply (proj1 Hstep); assumption. }
    intros props Hobj.
    destruct (proj2 Hstep props Hobj) as (props1 & Hobj1 & Hsame1).
    destruct (Hprops props1 Hobj1) as (props2 & Hobj2 & Hplain2).
    exists props2. split; [exact Hobj2|].
    intros n Hplain. destruct (Hplain2 n Hplain) as [Hpaths Hlast]. split.
    + intros x Hx Hxd Hxn. apply in_app_or in Hx. destruct Hx as [Hx|[Hx|Hx]].
      * rewrite Forall_forall in Hkids. specialize (Hkids x Hx). simpl in Hkids. lia.
      * subst x. apply (Hexact n Hplain Hxn).
      * apply Hpaths; assumption.
    + rewrite lastOccurrence_app. cbn [lastOccurrence].
      destruct (lastOccurrence d n new) as [later|]; [exact Hlast|].
      unfold recordedFor. rewrite Hdepth, Nat.eqb_refl. cbn [andb].
      destruct (String.eqb_spec (ByteRegion.fieldName r) n) as [Hname|Hname].
      * destruct (Hexact n Hplain Hname) as [_ Hvalue].
        destruct (Hvalue props Hobj) as (props1' & Hobj1' & Hv).
        rewrite Hobj1 in Hobj1'. inversion Hobj1'; subst props1'.
        rewrite Hlast. exact Hv.
      * rewrite (lastOccurrence_deeper d n kids Hkids).
        rewrite Hlast. apply Hsame1. congruence.
  - apply wp_ret. exists []. split; [symmetry; apply app_nil_r|].
    split; [constructor|]. split; [intros l props _ H; exact H|].
    intros props Hobj. exists props. split; [exact Hobj|].
    intros n _. split; [intros r []|reflexivity].
Qed.
End ObjectFacts.

(** C10. When a known field that is neither repeated nor a map occurs
    more than once, the last occurrence wins.  For every decode that
    returns, whatever else the buffer holds, and for every such field
    name (other than a synthetic [unknown_<id>] name): all the regions recorded for the field at the top level carry
    the same path, so that [findRegionsByPath] returns every one of them,
    and the decoded object holds the value of the last of these regions
    (when there is none, the property is what an empty object gives).
    The same holds for every call of [readMessage] that returns, at any
    depth and for any object: under the name of the field the object
    holds the value of the last region that the call recorded for it.
    A second occurrence does not make the decode fail: a buffer that is
    two occurrences of a field read by a reader method decodes, whatever
    the reader and the two values, to the second value and two regions
    of the same path, and likewise for a nested message field, whose
    second object replaces the first. *)
Theorem second_occurrence_wins :
  (forall (reader : WireReader) (root : Root) (buffer : list byte)
          (type : ProtoType.t) (d : Decoded.t) (n : string),
      decodeWithRegions root buffer type = Ok d ->
      plainField type n ->
      exists props,
        nth_error (Decoded.heap d) 0 = Some (OObject props) /\
        (forall r, In r (Decoded.regions d) ->
                   ByteRegion.depth r = 0%nat -> ByteRegion.fieldName r = n ->
                   ByteRegion.path r = n /\
                   In r (findRegionsByPath (Decoded.regions d) n)) /\
        match lastOccurrence 0 n (Decoded.regions d) with
        | Some r => propLookup n props = ByteRegion.value r
        | None => propLookup n props = propLookup n []
        end)
  /\
  (forall (reader : WireReader) (root : Root) (buffer : list byte) (fuel : nat)
          (t : ProtoType.t) (e : Z) (o : Loc) (bp : string) (depth : nat)
          (s s' : State) (props : list (string * Value)) (n : string),
      readMessage root buffer fuel t e o bp depth 0 s = Ok (tt, s') ->
      nth_error (st_heap s) o = Some (OObject props) ->
      plainField t n ->
      exists new props',
        st_regions s' = st_regions s ++ new /\
        nth_error (st_heap s') o = Some (OObject props') /\
        (forall r, In r new ->
                   ByteRegion.depth r = depth -> ByteRegion.fieldName r = n ->
                   ByteRegion.path r = joinPath bp n) /\
        match lastOccurrence depth n new with
        | Some r => propLookup n props' = ByteRegion.value r
        | None => propLookup n props' = propLookup n props
        end)
  /\
  (forall (reader : WireReader) (root : Root) (buffer : list byte)
          (type : ProtoType.t) (f : Field.t)
          (method : list byte -> Z -> Read Value)
          (tag1 p1 : Z) (v1 : Value) (p2 tag2 p3 : Z) (v2 : Value),
      uint32 buffer 0 = Got tag1 p1 ->
      findField type (Z.shiftr tag1 3) = Some f ->
      Field.repeated f = false ->
      Field.map f = false ->
      (forall ref, Field.resolvedType f <> RType ref) ->
      readMethod (Field.type f) = Some method ->
      method buffer p1 = Got v1 p2 ->
      uint32 buffer p2 = Got tag2 p3 ->
      Z.shiftr tag2 3 = Z.shiftr tag1 3 ->
      method buffer p3 = Got v2 (Z.of_nat (List.length buffer)) ->
      let r1 := ByteRegion.mk 0 p2 (Field.name f) v1 (Field.type f) (Z.land tag1 7)
                  (Field.name f) 0 in
      let r2 := ByteRegion.mk p2 (Z.of_nat (List.length buffer)) (Field.name f) v2
                  (Field.type f) (Z.land tag2 7) (Field.name f) 0 in
      decodeWithRegions root buffer type
      = Ok (Decoded.mk (VRef 0%nat) [r1; r2] [OObject [(Field.name f, v2)]])
      /\ findRegionsByPath [r1; r2] (Field.name f) = [r1; r2])
  /\
  (let mx1 := ByteRegion.mk 2 4 "m.x" (VNum 1) "int32" 0 "x" 1 in
   let m1 := ByteRegion.mk 0 4 "m" (VRef 1%nat) "Inner" 2 "m" 0 in
   let mx2 := ByteRegion.mk 6 8 "m.x" (VNum 2) "int32" 0 "x" 1 in
   let m2 := ByteRegion.mk 4 8 "m" (VRef 2%nat) "Inner" 2 "m" 0 in
   decodeWithRegions (reader := specReader) Examples.innerRoot
     [x0a; x02; x08; x01; x0a; x02; x08; x02] Examples.Outer
   = Ok (Decoded.mk (VRef 0%nat) [mx1; m1; mx2; m2]
           [ OObject [("m"%string, VRef 2%nat)];
             OObject [("x"%string, VNum 1)];
             OObject [("x"%string, VNum 2)] ])
   /\ findRegionsByPath [mx1; m1; mx2; m2] "m" = [m1; m2]).
Proof.
  assert (Hcall :
    forall (reader : WireReader) (root : Root) (buffer : list byte) (fuel : nat)
           (t : ProtoType.t) (e : Z) (o : Loc) (bp : string) (depth : nat)
           (s s' : State) (props : list (string * Value)) (n : string),
      readMessage root buffer fuel t e o bp depth 0 s = Ok (tt, s') ->
      nth_error (st_heap s) o = Some (OObject props) ->
      plainField t n ->
      exists new props',
        st_regions s' = st_regions s ++ new /\
        nth_error (st_heap s') o = Some (OObject props') /\
        (forall r, In r new ->
                   ByteRegion.depth r = depth -> ByteRegion.fieldName r = n ->
                   ByteRegion.path r = joinPath bp n) /\
        match lastOccurrence depth n new with
        | Some r => propLookup n props' = ByteRegion.value r
        | None => propLookup n props' = propLookup n props
        end).
  { intros reader root buffer fuel t e o bp depth s s' props n Hrun Hobj Hplain.
    pose proof (readMessage_props root buffer fuel t e o bp depth s) as Hpost.
    unfold wp in Hpost. rewrite Hrun in Hpost.
    destruct Hpost as (new & Hrs & _ & _ & Hprops).
    destruct (Hprops props Hobj) as (props' & Hobj' & Hfields).
    destruct (Hfields n Hplain) as [Hpaths Hlast].
    exists new, props'. repeat split; assumption. }
  split; [|split; [exact Hcall|split; [|split; reflexivity]]].
  - intros reader root buffer type d n Hd Hplain.
    unfold decodeWithRegions in Hd.
    destruct (readMessage root buffer (S (List.length buffer)) type
                (Z.of_nat (List.length buffer)) 0%nat EmptyString 0%nat 0 initialState)
      as [[[] s']|err|] eqn:Hrun; try discriminate.
    inversion Hd; subst d. cbn [Decoded.heap Decoded.regions].
    destruct (Hcall reader root buffer _ type _ 0%nat EmptyString 0%nat
                initialState s' [] n Hrun eq_refl Hplain)
      as (new & props' & Hrs & Hobj & Hpaths & Hlast).
    cbn [initialState st_regions app] in Hrs. rewrite Hrs.
    exists props'. split; [exact Hobj|]. split; [|exact Hlast].
    intros r Hr Hdepth Hname.
    assert (Hpath : ByteRegion.path r = n) by (apply (Hpaths r Hr Hdepth Hname)).
    split; [exact Hpath|].
    unfold findRegionsByPath. apply filter_In. split; [exact Hr|].
    apply String.eqb_eq. exact Hpath.
  - intros reader root buffer type f method tag1 p1 v1 p2 tag2 p3 v2
           Htag1 Hfind Hrep Hmap Hres Hmethod Hread1 Htag2 Hsame Hread2 r1 r2.
    split.
    + destruct (uint32_advances _ _ _ _ Htag1) as [H01 _].
      destruct (readMethod_advances _ _ _ _ _ _ Hmethod Hread1) as [H12 _].
      destruct (uint32_advances _ _ _ _ Htag2) as [H23 _].
      destruct (readMethod_advances _ _ _ _ _ _ Hmethod Hread2) as [H3e _].
      unfold decodeWithRegions.
      remember (Z.of_nat (List.length buffer)) as e eqn:He.
      destruct (List.length buffer) as [|[|k]]; try (simpl in He; lia).
      erewrite readMessage_next;
        [|simpl; lia
         |eapply readField_scalar
            with (props := []) (f := f) (method := method) (tag := tag1) (p1 := p1);
          [reflexivity|exact Htag1|exact Hfind|exact Hrep|exact Hmap|exact Hres
          |exact Hmethod|exact Hread1]].
      erewrite readMessage_next;
        [|simpl; lia
         |eapply readField_scalar
            with (props := [(Field.name f, v1)]) (f := f) (method := method)
                 (tag := tag2) (p1 := p3);
          [reflexivity|exact Htag2|rewrite Hsame; exact Hfind|exact Hrep|exact Hmap
          |exact Hres|exact Hmethod|exact Hread2]].
      rewrite readMessage_done by (simpl; lia).
      simpl. rewrite String.eqb_refl. reflexivity.
    + unfold findRegionsByPath. simpl. rewrite String.eqb_refl. reflexivity.
Qed.

Lemma second_occurrence_wins_witness :
  let name := ByteRegion.mk 0 4 "name" (VStr "Al") "string" 2 "name" 0 in
  let first := ByteRegion.mk 4 6 "id" (VNum 7) "int32" 0 "id" 0 in
  let second := ByteRegion.mk 6 8 "id" (VNum 9) "int32" 0 "id" 0 in
  let d := Decoded.mk (VRef 0%nat) [name; first; second]
             [OObject [("name"%string, VStr "Al"); ("id"%string, VNum 9)]] in
  decodeWithRegions (reader := specReader) Examples.noTypes
    [x0a; x02; x41; x6c; x10; x07; x10; x09] Examples.Person = Ok d /\
  plainField Examples.Person "id" /\
  exists props,
    nth_error (Decoded.heap d) 0 = Some (OObject props) /\
    propLookup "id" props = VNum 9 /\
    findRegionsByPath (Decoded.regions d) "id" = [first; second].
Proof.
  intros name first second d.
  assert (Hd : decodeWithRegions (reader := specReader) Examples.noTypes
                 [x0a; x02; x41; x6c; x10; x07; x10; x09] Examples.Person = Ok d)
    by reflexivity.
  assert (Hplain : plainField Examples.Person "id").
  { split; [|split; [reflexivity|discriminate]].
    intros f [Hf|[Hf|[]]] Hname; subst f; split; reflexivity. }
  split; [exact Hd|]. split; [exact Hplain|].
  destruct (proj1 second_occurrence_wins specReader Examples.noTypes
              [x0a; x02; x41; x6c; x10; x07; x10; x09] Examples.Person d "id"%string
              Hd Hplain) as (props & Hobj & _ & Hlast).
  exists props. split; [exact Hobj|]. split; [exact Hlast|reflexivity].
Defined.

(** ** Further properties of the decoder's region list *)

(** Two regions of one list, the first in front of the second: the first
    lies wholly before the second or inside it. *)
Definition beforeOrInside (A B : ByteRegion.t) : Prop :=
  ByteRegion.end_ A <= ByteRegion.start B \/
  (ByteRegion.start B <= ByteRegion.start A /\
   ByteRegion.end_ A <= ByteRegion.end_ B).

Lemma ForallOrdPairs_app {A} (R : A -> A -> Prop) (l1 l2 : list A) :
  ForallOrdPairs R l1 ->
  ForallOrdPairs R l2 ->
  (forall a b, In a l1 -> In b l2 -> R a b) ->
  ForallOrdPairs R (l1 ++ l2).
Proof.
  intros H1 H2 Hcross. induction H1 as [|a l Ha Hl IH]; simpl; [assumption|].
  constructor.
  - apply Forall_app. split; [assumption|].
    apply Forall_forall. intros b Hb. apply Hcross; simpl; auto.
  - apply IH. intros x y Hx Hy. apply Hcross; simpl; auto.
Qed.

Lemma ForallOrdPairs_split {A} (R : A -> A -> Prop) (l1 : list A) (a : A)
    (l2 : list A) (b : A) (l3 : list A) :
  ForallOrdPairs R (l1 ++ a :: l2 ++ b :: l3) -> R a b.
Proof.
  induction l1 as [|x l1 IH]; simpl; intros H; inversion H; subst.
  - match goal with
    | Hall : Forall (R a) _ |- _ => rewrite Forall_forall in Hall; apply Hall
    end.
    apply in_elt.
  - apply IH. assumption.
Qed.

Lemma Emitted_ordered (d : nat) (lo hi : Z) (l : list ByteRegion.t) :
  Emitted d lo hi l -> ForallOrdPairs beforeOrInside l.
Proof.
  induction 1 as [d p|d lo a b hi kids r rest Hlt Hkids IHkids Hs He Hd Hrest IHrest].
  - constructor.
  - pose proof (Emitted_bounds _ _ _ _ Hkids) as Bkids.
    pose proof (Emitted_bounds _ _ _ _ Hrest) as Brest.
    rewrite Forall_forall in Bkids, Brest.
    apply ForallOrdPairs_app; [assumption| |].
    + constructor; [|assumption].
      apply Forall_forall. intros x Hx. left. specialize (Brest _ Hx). lia.
    + intros x y Hx [Hy|Hy].
      * subst y. right. specialize (Bkids _ Hx). lia.
      * left. specialize (Bkids _ Hx). specialize (Brest _ Hy). lia.
Qed.

(** The cursor when the loop of [readMessage] returns. *)
Lemma readMessage_exit_cursor {reader : WireReader} (root : Root) (buffer : list byte)
    (fuel : nat) :
  forall t e o bp d g s u s',
    readMessage root buffer fuel t e o bp d g s = Ok (u, s') -> e <= st_pos s'.
Proof.
  induction fuel as [|fuel IH]; simpl; intros t e o bp d g s u s' H; [discriminate|].
  unfold bind at 1 in H. simpl in H.
  destruct (Z.ltb_spec (st_pos s) e) as [Hlt|Hge].
  - unfold bind at 1 in H.
    destruct (readField root buffer (readMessage root buffer fuel) fuel t o bp d g s)
      as [[u1 s1]|err|]; try discriminate.
    eapply IH; eassumption.
  - inversion H; subst. assumption.
Qed.

(** The region list of a successful decode is the emission of the root
    loop from offset 0 to an offset at or past the end of the buffer. *)
Lemma decodeWithRegions_emitted_to_end {reader : WireReader} (root : Root)
    (buffer : list byte) (type : ProtoType.t) (d : Decoded.t) :
  decodeWithRegions root buffer type = Ok d ->
  exists hi,
    Z.of_nat (List.length buffer) <= hi /\ Emitted 0 0 hi (Decoded.regions d).
Proof.
  unfold decodeWithRegions.
  pose proof (readMessage_wp root buffer True (S (List.length buffer)) type
                (Z.of_nat (List.length buffer)) 0%nat EmptyString 0%nat initialState
                (or_introl I))
    as H.
  unfold wp in H.
  destruct (readMessage root buffer (S (List.length buffer)) type
              (Z.of_nat (List.length buffer)) 0%nat EmptyString 0%nat 0 initialState)
    as [[u s]|e|] eqn:Hrun; try discriminate.
  intros Hd. inversion Hd; subst d. simpl.
  destruct H as (new & Hrs & Hnew). simpl in Hrs, Hnew.
  exists (st_pos s). split.
  - eapply readMessage_exit_cursor. exact Hrun.
  - rewrite Hrs. exact Hnew.
Qed.

Lemma Emitted_covers (d : nat) (lo hi : Z) (l : list ByteRegion.t) :
  Emitted d lo hi l ->
  forall i, lo <= i < hi ->
            exists r, In r l /\ ByteRegion.depth r = d /\
                      ByteRegion.start r <= i < ByteRegion.end_ r.
Proof.
  induction 1 as [d p|d lo a b hi kids r rest Hlt Hkids IHkids Hs He Hd Hrest IHrest];
    intros i Hi.
  - lia.
  - destruct (Z.lt_ge_cases i b) as [Hib|Hib].
    + exists r. split; [apply in_elt|]. split; [assumption|]. lia.
    + destruct (IHrest i) as (x & Hx & Hdx & Hcx); [lia|].
      exists x. split; [|auto]. apply in_or_app. right. simpl. auto.
Qed.

(** What [findRegionByByte] returns, in terms of the list it is given. *)
Lemma findRegionByByte_some (regions : list ByteRegion.t) (byteIndex : Z)
    (r : ByteRegion.t) :
  findRegionByByte regions byteIndex = Some r ->
  exists before after,
    regions = before ++ r :: after /\
    covers byteIndex r = true /\
    (forall x, In x before -> covers byteIndex x = true -> span r < span x) /\
    (forall x, In x after -> covers byteIndex x = true -> span r <= span x).
Proof.
  unfold findRegionByByte. intros Hfind.
  pose proof (sort_bySpan_head (filter (covers byteIndex) regions)) as H.
  rewrite Hfind in H. destruct H as (c1 & c2 & Hc & H1 & H2).
  apply filter_split in Hc. destruct Hc as (l1 & l2 & Hl & Hf1 & Hf2 & Hr).
  exists l1, l2. repeat split; try assumption.
  - intros x Hx Hcov. apply H1. rewrite <- Hf1. apply filter_In. auto.
  - intros x Hx Hcov. apply H2. rewrite <- Hf2. apply filter_In. auto.
Qed.

Lemma findRegionByByte_none (regions : list ByteRegion.t) (byteIndex : Z) :
  findRegionByByte regions byteIndex = None ->
  forall r, In r regions -> covers byteIndex r = false.
Proof.
  unfold findRegionByByte. intros Hfind r Hr.
  pose proof (sort_bySpan_head (filter (covers byteIndex) regions)) as H.
  rewrite Hfind in H.
  destruct (covers byteIndex r) eqn:Hcov; [|reflexivity].
  assert (Hin : In r (filter (covers byteIndex) regions)) by (apply filter_In; auto).
  rewrite H in Hin. contradiction.
Qed.

(** X1. In the region list of a successful decode, of two regions the one
    that comes first lies wholly before the other or inside it: regions
    never overlap partially. *)
Theorem regions_nested_or_disjoint {reader : WireReader} (root : Root)
    (buffer : list byte) (type : ProtoType.t) (d : Decoded.t)
    (l1 : list ByteRegion.t) (A : ByteRegion.t) (l2 : list ByteRegion.t)
    (B : ByteRegion.t) (l3 : list ByteRegion.t) :
  decodeWithRegions root buffer type = Ok d ->
  Decoded.regions d = l1 ++ A :: l2 ++ B :: l3 ->
  ByteRegion.end_ A <= ByteRegion.start B \/
  (ByteRegion.start B <= ByteRegion.start A /\
   ByteRegion.end_ A <= ByteRegion.end_ B).
Proof.
  intros Hd Hsplit.
  apply decodeWithRegions_emitted in Hd. destruct Hd as [hi Hem].
  apply Emitted_ordered in Hem. rewrite Hsplit in Hem.
  exact (ForallOrdPairs_split beforeOrInside _ _ _ _ _ Hem).
Qed.

Lemma regions_nested_or_disjoint_witness :
  let mx1 := ByteRegion.mk 2 4 "m.x" (VNum 1) "int32" 0 "x" 1 in
  let m1 := ByteRegion.mk 0 4 "m" (VRef 1%nat) "Inner" 2 "m" 0 in
  let mx2 := ByteRegion.mk 6 8 "m.x" (VNum 2) "int32" 0 "x" 1 in
  let m2 := ByteRegion.mk 4 8 "m" (VRef 2%nat) "Inner" 2 "m" 0 in
  let d := Decoded.mk (VRef 0%nat) [mx1; m1; mx2; m2]
             [ OObject [("m"%string, VRef 2%nat)];
               OObject [("x"%string, VNum 1)];
               OObject [("x"%string, VNum 2)] ] in
  decodeWithRegions (reader := specReader) Examples.innerRoot
    [x0a; x02; x08; x01; x0a; x02; x08; x02] Examples.Outer = Ok d /\
  Decoded.regions d = [mx1] ++ m1 :: [mx2] ++ m2 :: [] /\
  (ByteRegion.end_ m1 <= ByteRegion.start m2 \/
   (ByteRegion.start m2 <= ByteRegion.start m1 /\
    ByteRegion.end_ m1 <= ByteRegion.end_ m2)).
Proof.
  intros mx1 m1 mx2 m2 d.
  assert (Hd : decodeWithRegions (reader := specReader) Examples.innerRoot
                 [x0a; x02; x08; x01; x0a; x02; x08; x02] Examples.Outer = Ok d)
    by reflexivity.
  split; [exact Hd|]. split; [reflexivity|].
  exact (regions_nested_or_disjoint (reader := specReader) Examples.innerRoot
           [x0a; x02; x08; x01; x0a; x02; x08; x02] Examples.Outer d
           [mx1] m1 [mx2] m2 [] Hd eq_refl).
Defined.

(** X2. After a successful decode every byte of the buffer lies in a
    region: [findRegionByByte] returns a region, which contains the byte,
    for every index from 0 to the length of the buffer. *)
Theorem every_byte_has_a_region {reader : WireReader} (root : Root)
    (buffer : list byte) (type : ProtoType.t) (d : Decoded.t) (byteIndex : Z) :
  decodeWithRegions root buffer type = Ok d ->
  0 <= byteIndex < Z.of_nat (List.length buffer) ->
  exists r,
    findRegionByByte (Decoded.regions d) byteIndex = Some r /\
    ByteRegion.start r <= byteIndex < ByteRegion.end_ r.
Proof.
  intros Hd Hi.
  apply decodeWithRegions_emitted_to_end in Hd. destruct Hd as (hi & Hhi & Hem).
  destruct (Emitted_covers _ _ _ _ Hem byteIndex) as (x & Hx & _ & Hcx); [lia|].
  destruct (findRegionByByte (Decoded.regions d) byteIndex) as [r|] eqn:Hfind.
  - exists r. split; [reflexivity|].
    apply findRegionByByte_some in Hfind.
    destruct Hfind as (before & after & _ & Hcov & _).
    apply covers_spec. assumption.
  - exfalso. pose proof (findRegionByByte_none _ _ Hfind x Hx) as Hno.
    apply covers_spec in Hcx. congruence.
Qed.

Lemma every_byte_has_a_region_witness :
  let mx := ByteRegion.mk 2 4 "m.x" (VNum 1) "int32" 0 "x" 1 in
  let m := ByteRegion.mk 0 4 "m" (VRef 1%nat) "Inner" 2 "m" 0 in
  let d := Decoded.mk (VRef 0%nat) [mx; m]
             [OObject [("m"%string, VRef 1%nat)]; OObject [("x"%string, VNum 1)]] in
  decodeWithRegions (reader := specReader) Examples.innerRoot
    [x0a; x02; x08; x01] Examples.Outer = Ok d /\
  0 <= 1 < Z.of_nat (List.length [x0a; x02; x08; x01]) /\
  exists r,
    findRegionByByte (Decoded.regions d) 1 = Some r /\
    ByteRegion.start r <= 1 < ByteRegion.end_ r.
Proof.
  intros mx m d.
  assert (Hd : decodeWithRegions (reader := specReader) Examples.innerRoot
                 [x0a; x02; x08; x01] Examples.Outer = Ok d) by reflexivity.
  assert (Hi : 0 <= 1 < Z.of_nat (List.length [x0a; x02; x08; x01])) by (simpl; lia).
  split; [exact Hd|]. split; [exact Hi|].
  exact (every_byte_has_a_region (reader := specReader) Examples.innerRoot
           [x0a; x02; x08; x01] Examples.Outer d 1 Hd Hi).
Defined.

(** X3. On the regions of a successful decode, the region that
    [findRegionByByte] returns for a byte is the innermost one: every
    region that contains the byte contains the returned region. *)
Theorem found_region_is_innermost {reader : WireReader} (root : Root)
    (buffer : list byte) (type : ProtoType.t) (d : Decoded.t) (byteIndex : Z)
    (r x : ByteRegion.t) :
  decodeWithRegions root buffer type = Ok d ->
  findRegionByByte (Decoded.regions d) byteIndex = Some r ->
  In x (Decoded.regions d) ->
  ByteRegion.start x <= byteIndex < ByteRegion.end_ x ->
  ByteRegion.start x <= ByteRegion.start r /\
  ByteRegion.end_ r <= ByteRegion.end_ x.
Proof.
  intros Hd Hfind Hx Hcx.
  apply decodeWithRegions_emitted in Hd. destruct Hd as [hi Hem].
  apply Emitted_ordered in Hem.
  apply findRegionByByte_some in Hfind.
  destruct Hfind as (before & after & Hsplit & Hcr & Hbefore & Hafter).
  apply covers_spec in Hcr.
  rewrite Hsplit in Hx, Hem.
  apply in_app_or in Hx. destruct Hx as [Hx|[Hx|Hx]].
  - exfalso.
    assert (Hspan : span r < span x)
      by (apply Hbefore; [assumption|apply covers_spec; assumption]).
    apply in_split in Hx. destruct Hx as (b1 & b2 & Hb). subst before.
    rewrite <- app_assoc in Hem. simpl in Hem.
    pose proof (ForallOrdPairs_split beforeOrInside _ _ _ _ _ Hem) as Hrel.
    unfold beforeOrInside, span in *. lia.
  - subst x. lia.
  - apply in_split in Hx. destruct Hx as (a1 & a2 & Ha). subst after.
    pose proof (ForallOrdPairs_split beforeOrInside _ _ _ _ _ Hem) as Hrel.
    unfold beforeOrInside in Hrel. lia.
Qed.

Lemma found_region_is_innermost_witness :
  let mx := ByteRegion.mk 2 4 "m.x" (VNum 1) "int32" 0 "x" 1 in
  let m := ByteRegion.mk 0 4 "m" (VRef 1%nat) "Inner" 2 "m" 0 in
  let d := Decoded.mk (VRef 0%nat) [mx; m]
             [OObject [("m"%string, VRef 1%nat)]; OObject [("x"%string, VNum 1)]] in
  decodeWithRegions (reader := specReader) Examples.innerRoot
    [x0a; x02; x08; x01] Examples.Outer = Ok d /\
  findRegionByByte (Decoded.regions d) 3 = Some mx /\
  In m (Decoded.regions d) /\
  ByteRegion.start m <= 3 < ByteRegion.end_ m /\
  ByteRegion.start m <= ByteRegion.start mx /\
  ByteRegion.end_ mx <= ByteRegion.end_ m.
Proof.
  intros mx m d.
  assert (Hd : decodeWithRegions (reader := specReader) Examples.innerRoot
                 [x0a; x02; x08; x01] Examples.Outer = Ok d) by reflexivity.
  assert (Hfind : findRegionByByte (Decoded.regions d) 3 = Some mx) by reflexivity.
  assert (Hin : In m (Decoded.regions d)) by (simpl; auto).
  assert (Hc : ByteRegion.start m <= 3 < ByteRegion.end_ m) by (simpl; lia).
  split; [exact Hd|]. split; [exact Hfind|]. split; [exact Hin|]. split; [exact Hc|].
  exact (found_region_is_innermost (reader := specReader) Examples.innerRoot
           [x0a; x02; x08; x01] Examples.Outer d 3 mx m Hd Hfind Hin Hc).
Defined.

(** ** Repeated fields *)

(** One occurrence of a field in the buffer: its tag, the offset of its
    value, the value read and the offset after it. *)
Record Occurrence : Type := mkOccurrence {
  occ_tag : Z;
  occ_valuePos : Z;
  occ_value : Value;
  occ_end : Z
}.

(** The bytes from [p] to [pend] are the occurrences [occs] of field
    [fieldId], each value read by [method], one after the other. *)
Fixpoint occurrencesFrom {reader : WireReader} (buffer : list byte)
    (method : list byte -> Z -> Read Value) (fieldId : Z) (p : Z)
    (occs : list Occurrence) (pend : Z) : Prop :=
  match occs with
  | [] => p = pend
  | o :: rest =>
      uint32 buffer p = Got (occ_tag o) (occ_valuePos o) /\
      Z.shiftr (occ_tag o) 3 = fieldId /\
      method buffer (occ_valuePos o) = Got (occ_value o) (occ_end o) /\
      occurrencesFrom buffer method fieldId (occ_end o) rest pend
  end.

(** The regions expected for these occurrences when they are elements of
    the repeated field [f], the first of them with index [index]. *)
Fixpoint elementRegions (f : Field.t) (index : nat) (p : Z) (occs : list Occurrence)
  : list ByteRegion.t :=
  match occs with
  | [] => []
  | o :: rest =>
      ByteRegion.mk p (occ_end o)
        (Field.name f ++ "[" ++ decimal (Z.of_nat index) ++ "]")%string
        (occ_value o) (Field.type f) (Z.land (occ_tag o) 7) (Field.name f) 0
      :: elementRegions f (S index) (occ_end o) rest
  end.

Section RepeatedRuns.
Context {reader : WireReader}.
Variable root : Root.
Variable buffer : list byte.
Variable type : ProtoType.t.
Variable f : Field.t.
Variable method : list byte -> Z -> Read Value.
Hypothesis f_repeated : Field.repeated f = true.
Hypothesis f_not_map : Field.map f = false.
Hypothesis f_not_packed : Field.packed f = false.
Hypothesis f_not_message : forall ref, Field.resolvedType f <> RType ref.
Hypothesis f_method : readMethod (Field.type f) = Some method.

Lemma occurrencesFrom_le (fieldId : Z) (occs : list Occurrence) :
  forall p pend, occurrencesFrom buffer method fieldId p occs pend -> p <= pend.
Proof.
  induction occs as [|o rest IH]; simpl; intros p pend H.
  - lia.
  - destruct H as (Htag & _ & Hread & Hrest).
    apply uint32_advances in Htag.
    apply (readMethod_advances _ _ _ _ _ _ f_method) in Hread.
    apply IH in Hrest. lia.
Qed.

(** The first occurrence creates the array, unless the object inherits a
    member of the field's name. *)
Lemma readField_repeated_first
    (self : ProtoType.t -> Z -> Loc -> string -> nat -> Z -> M unit) (fuel : nat)
    (p : Z) (rs : list ByteRegion.t) (o : Occurrence) :
  inherited (Field.name f) = false ->
  uint32 buffer p = Got (occ_tag o) (occ_valuePos o) ->
  findField type (Z.shiftr (occ_tag o) 3) = Some f ->
  method buffer (occ_valuePos o) = Got (occ_value o) (occ_end o) ->
  readField root buffer self fuel type 0%nat EmptyString 0%nat 0
    (mkState p [OObject []] rs)
  = Ok (tt, mkState (occ_end o)
              [OObject [(Field.name f, VRef 1%nat)]; OArray [occ_value o]]
              (rs ++ elementRegions f 0 p [o])).
Proof.
  intros Hown Htag Hfind Hread.
  unfold readField, bind, getPos, readerCall. simpl. rewrite Htag.
  cbv zeta. rewrite Hfind, f_not_map, f_repeated, f_not_packed. simpl.
  unfold ensureArray, bind, getProp, propLookup. simpl. rewrite Hown. simpl.
  rewrite !String.eqb_refl. simpl.
  destruct (Z.land (occ_tag o) 7 =? 2);
    destruct (Field.resolvedType f) as [| |ref] eqn:Hres;
    try (exfalso; eapply f_not_message; reflexivity);
    rewrite f_method; simpl; rewrite Hread; simpl;
    unfold storeValue, bind, getProp, propLookup; rewrite f_repeated; simpl;
    rewrite !String.eqb_refl; reflexivity.
Qed.

(** With a field name that every object inherits ([toString],
    [constructor], ...) no array is created, and appending to the
    inherited member throws. *)
Lemma readField_repeated_inherited
    (self : ProtoType.t -> Z -> Loc -> string -> nat -> Z -> M unit) (fuel : nat)
    (p : Z) (rs : list ByteRegion.t) (o : Occurrence) :
  inherited (Field.name f) = true ->
  uint32 buffer p = Got (occ_tag o) (occ_valuePos o) ->
  findField type (Z.shiftr (occ_tag o) 3) = Some f ->
  method buffer (occ_valuePos o) = Got (occ_value o) (occ_end o) ->
  readField root buffer self fuel type 0%nat EmptyString 0%nat 0
    (mkState p [OObject []] rs)
  = Throw (JsTypeError "push is not a function").
Proof.
  intros Hinh Htag Hfind Hread.
  unfold readField, bind, getPos, readerCall. simpl. rewrite Htag.
  cbv zeta. rewrite Hfind, f_not_map, f_repeated, f_not_packed. simpl.
  unfold ensureArray, bind, getProp, propLookup. simpl. rewrite Hinh. simpl.
  destruct (Z.land (occ_tag o) 7 =? 2);
    destruct (Field.resolvedType f) as [| |ref] eqn:Hres;
    try (exfalso; eapply f_not_message; reflexivity);
    rewrite f_method; simpl; rewrite Hread; simpl;
    unfold storeValue, bind, getProp, propLookup; rewrite f_repeated; simpl;
    rewrite Hinh; reflexivity.
Qed.

(** A later occurrence is appended, and its index is the number of
    elements that the array held. *)
Lemma readField_repeated_next
    (self : ProtoType.t -> Z -> Loc -> string -> nat -> Z -> M unit) (fuel : nat)
    (p : Z) (elems : list Value) (rs : list ByteRegion.t) (o : Occurrence) :
  uint32 buffer p = Got (occ_tag o) (occ_valuePos o) ->
  findField type (Z.shiftr (occ_tag o) 3) = Some f ->
  method buffer (occ_valuePos o) = Got (occ_value o) (occ_end o) ->
  readField root buffer self fuel type 0%nat EmptyString 0%nat 0
    (mkState p [OObject [(Field.name f, VRef 1%nat)]; OArray elems] rs)
  = Ok (tt, mkState (occ_end o)
              [OObject [(Field.name f, VRef 1%nat)]; OArray (elems ++ [occ_value o])]
              (rs ++ elementRegions f (List.length elems) p [o])).
Proof.
  intros Htag Hfind Hread.
  unfold readField, bind, getPos, readerCall. simpl. rewrite Htag.
  cbv zeta. rewrite Hfind, f_not_map, f_repeated, f_not_packed. simpl.
  unfold ensureArray, bind, getProp, propLookup. simpl.
  repeat (rewrite String.eqb_refl; simpl).
  destruct (Z.land (occ_tag o) 7 =? 2);
    destruct (Field.resolvedType f) as [| |ref] eqn:Hres;
    try (exfalso; eapply f_not_message; reflexivity);
    rewrite f_method; simpl; rewrite Hread; simpl;
    unfold storeValue, bind, getProp, propLookup; rewrite f_repeated; simpl;
    rewrite !String.eqb_refl; reflexivity.
Qed.

Lemma readMessage_repeated_rest (fieldId : Z) (pend : Z) (occs : list Occurrence) :
  findField type fieldId = Some f ->
  forall (fuel : nat) (p : Z) (elems : list Value) (rs : list ByteRegion.t),
    (List.length occs < fuel)%nat ->
    occurrencesFrom buffer method fieldId p occs pend ->
    readMessage root buffer fuel type pend 0%nat EmptyString 0%nat 0
      (mkState p [OObject [(Field.name f, VRef 1%nat)]; OArray elems] rs)
    = Ok (tt, mkState pend
                [OObject [(Field.name f, VRef 1%nat)];
                 OArray (elems ++ List.map occ_value occs)]
                (rs ++ elementRegions f (List.length elems) p occs)).
Proof.
  intros Hfind. induction occs as [|o rest IH]; intros fuel p elems rs Hfuel Hocc.
  - simpl in Hocc. subst p. destruct fuel as [|fuel]; [simpl in Hfuel; lia|].
    rewrite readMessage_done by (simpl; lia).
    simpl. rewrite !app_nil_r. reflexivity.
  - destruct fuel as [|fuel]; [simpl in Hfuel; lia|].
    pose proof (occurrencesFrom_le _ _ _ _ Hocc) as Hle.
    simpl in Hocc. destruct Hocc as (Htag & Hid & Hread & Hrest).
    pose proof (occurrencesFrom_le _ _ _ _ Hrest) as Hle2.
    pose proof (uint32_advances _ _ _ _ Htag) as [Hadv1 _].
    pose proof (readMethod_advances _ _ _ _ _ _ f_method Hread) as [Hadv2 _].
    erewrite readMessage_next;
      [|simpl; lia
       |apply readField_repeated_next;
        [exact Htag|rewrite Hid; exact Hfind|exact Hread]].
    rewrite IH; [|simpl in Hfuel; lia|exact Hrest].
    rewrite length_app. simpl. rewrite Nat.add_1_r.
    rewrite <- !app_assoc. reflexivity.
Qed.
End RepeatedRuns.

(** The decode of a run of occurrences of one repeated field. *)
Lemma decode_repeated_occurrences {reader : WireReader} (root : Root)
    (buffer : list byte) (type : ProtoType.t) (f : Field.t)
    (method : list byte -> Z -> Read Value) (fieldId : Z)
    (o : Occurrence) (rest : list Occurrence) :
  Field.repeated f = true ->
  Field.map f = false ->
  Field.packed f = false ->
  (forall ref, Field.resolvedType f <> RType ref) ->
  readMethod (Field.type f) = Some method ->
  findField type fieldId = Some f ->
  occurrencesFrom buffer method fieldId 0 (o :: rest) (Z.of_nat (List.length buffer)) ->
  inherited (Field.name f) = false ->
  decodeWithRegions root buffer type
  = Ok (Decoded.mk (VRef 0%nat)
          (elementRegions f 0 0 (o :: rest))
          [ OObject [(Field.name f, VRef 1%nat)];
            OArray (List.map occ_value (o :: rest)) ]).
Proof.
  intros Hrep Hmap Hpacked Hres Hmethod Hfind Hocc Hown.
  assert (Hcount : forall occs p pend,
             occurrencesFrom buffer method fieldId p occs pend ->
             p + Z.of_nat (List.length occs) <= pend).
  { induction occs as [|x occs IH]; simpl; intros p pend H; [lia|].
    destruct H as (Htag & _ & Hread & Hrest).
    apply uint32_advances in Htag.
    apply (readMethod_advances _ _ _ _ _ _ Hmethod) in Hread.
    apply IH in Hrest. lia. }
  pose proof (Hcount _ _ _ Hocc) as Hlen. simpl List.length in Hlen.
  simpl in Hocc. destruct Hocc as (Htag & Hid & Hread & Hrest).
  pose proof (uint32_advances _ _ _ _ Htag) as [Hadv1 Hnonempty].
  unfold decodeWithRegions.
  erewrite readMessage_next;
    [|simpl; lia
     |apply (readField_repeated_first root buffer type f method
               Hrep Hmap Hpacked Hres Hmethod);
      [exact Hown|exact Htag|rewrite Hid; exact Hfind|exact Hread]].
  rewrite (readMessage_repeated_rest root buffer type f method
             Hrep Hmap Hpacked Hres Hmethod fieldId _ rest Hfind);
    [reflexivity| |exact Hrest].
  apply Nat2Z.inj_lt. rewrite Nat2Z.inj_succ in Hlen. lia.
Qed.

(** X4. A buffer that consists of occurrences of one repeated field (not
    a map, not packed, not a nested message, its type a read method of the
    reader) decodes to an array that holds the values in the order of the
    buffer, and the region of the occurrence number [i] has the path
    [name[i]], counting from 0, provided that the name of the field is not
    a key that every object inherits.  When it is one ([toString],
    [constructor], ...), the decoder finds the inherited member in place
    of the array and the decode fails. *)
Theorem repeated_field_keeps_order {reader : WireReader} (root : Root)
    (buffer : list byte) (type : ProtoType.t) (f : Field.t)
    (method : list byte -> Z -> Read Value) (fieldId : Z)
    (o : Occurrence) (rest : list Occurrence) :
  Field.repeated f = true ->
  Field.map f = false ->
  Field.packed f = false ->
  (forall ref, Field.resolvedType f <> RType ref) ->
  readMethod (Field.type f) = Some method ->
  findField type fieldId = Some f ->
  occurrencesFrom buffer method fieldId 0 (o :: rest) (Z.of_nat (List.length buffer)) ->
  (inherited (Field.name f) = false ->
   decodeWithRegions root buffer type
   = Ok (Decoded.mk (VRef 0%nat)
           (elementRegions f 0 0 (o :: rest))
           [ OObject [(Field.name f, VRef 1%nat)];
             OArray (List.map occ_value (o :: rest)) ])) /\
  (inherited (Field.name f) = true ->
   decodeWithRegions root buffer type = Throw (JsError failureMessage)).
Proof.
  intros Hrep Hmap Hpacked Hres Hmethod Hfind Hocc. split.
  - exact (decode_repeated_occurrences root buffer type f method fieldId o rest
             Hrep Hmap Hpacked Hres Hmethod Hfind Hocc).
  - intros Hinh. simpl in Hocc. destruct Hocc as (Htag & Hid & Hread & _).
    pose proof (uint32_advances _ _ _ _ Htag) as [_ Hnonempty].
    assert (Hfield :
              readField root buffer (readMessage root buffer (List.length buffer))
                (List.length buffer) type 0%nat EmptyString 0%nat 0 initialState
              = Throw (JsTypeError "push is not a function")).
    { apply (readField_repeated_inherited root buffer type f method
               Hrep Hmap Hpacked Hres Hmethod _ _ _ _ o);
        [exact Hinh|exact Htag|rewrite Hid; exact Hfind|exact Hread]. }
    unfold decodeWithRegions.
    rewrite (readMessage_throws root buffer _ type
               (Z.of_nat (List.length buffer)) 0%nat EmptyString 0%nat 0
               initialState _ Hnonempty Hfield).
    reflexivity.
Qed.

Lemma repeated_field_keeps_order_witness :
  let read := fun b p => SpecReader.mapRead VNum (SpecReader.read_int32 b p) in
  let tags := Field.mk 1 "n" "int32" true false false RNone in
  let t := ProtoType.mk "T" [tags] in
  let hidden := Field.mk 1 "toString" "int32" true false false RNone in
  let o1 := mkOccurrence 8 1 (VNum 7) 2 in
  let o2 := mkOccurrence 8 3 (VNum 9) 4 in
  occurrencesFrom [x08; x07; x08; x09] read 1 0 [o1; o2] 4 /\
  decodeWithRegions (reader := specReader) Examples.noTypes [x08; x07; x08; x09] t
  = Ok (Decoded.mk (VRef 0%nat)
          [ ByteRegion.mk 0 2 "n[0]" (VNum 7) "int32" 0 "n" 0;
            ByteRegion.mk 2 4 "n[1]" (VNum 9) "int32" 0 "n" 0 ]
          [OObject [("n"%string, VRef 1%nat)]; OArray [VNum 7; VNum 9]]) /\
  decodeWithRegions (reader := specReader) Examples.noTypes [x08; x07; x08; x09]
    (ProtoType.mk "T" [hidden])
  = Throw (JsError failureMessage).
Proof.
  intros read tags t hidden o1 o2.
  assert (Hres : forall ref, RNone <> RType ref) by (intros ref H; discriminate H).
  assert (Hocc : occurrencesFrom (reader := specReader) [x08; x07; x08; x09]
                   read 1 0 [o1; o2] 4)
    by (simpl; repeat split; reflexivity).
  split; [exact Hocc|]. split.
  - exact (proj1 (repeated_field_keeps_order (reader := specReader)
                    Examples.noTypes [x08; x07; x08; x09] t tags read
                    1 o1 [o2] eq_refl eq_refl eq_refl Hres eq_refl eq_refl Hocc)
             eq_refl).
  - exact (proj2 (repeated_field_keeps_order (reader := specReader)
                    Examples.noTypes [x08; x07; x08; x09]
                    (ProtoType.mk "T" [hidden]) hidden read
                    1 o1 [o2] eq_refl eq_refl eq_refl Hres eq_refl eq_refl Hocc)
             eq_refl).
Defined.

(** ** Fields that are skipped *)

(** X5. A map field is never decoded: an occurrence of a (non-repeated)
    map field is skipped by its wire type wherever it is met, the decoded
    objects are left exactly as they were, and the region that is recorded
    for it carries the value [null] and the plain field path. *)
Theorem map_field_is_skipped {reader : WireReader} (root : Root)
    (buffer : list byte)
    (self : ProtoType.t -> Z -> Loc -> string -> nat -> Z -> M unit) (fuel : nat)
    (t : ProtoType.t) (o : Loc) (bp : string) (d : nat) (g : Z) (s : State)
    (f : Field.t) (tag p1 : Z) (u : unit) (p2 : Z) :
  uint32 buffer (st_pos s) = Got tag p1 ->
  findField t (Z.shiftr tag 3) = Some f ->
  Field.map f = true ->
  Field.repeated f = false ->
  skipType buffer (Z.land tag 7) p1 = Got u p2 ->
  readField root buffer self fuel t o bp d g s =
  Ok (tt, mkState p2 (st_heap s)
            (st_regions s ++
               [ByteRegion.mk (st_pos s) p2 (joinPath bp (Field.name f)) VNull
                  (Field.type f) (Z.land tag 7) (Field.name f) d])).
Proof.
  intros Htag Hfind Hmap Hrep Hskip.
  unfold readField, bind, getPos, readerCall. rewrite Htag.
  cbv zeta. rewrite Hfind, Hrep, Hmap. simpl. rewrite Hskip. reflexivity.
Qed.

Lemma map_field_is_skipped_witness :
  let f := Field.mk 1 "m" "string" false false true RNone in
  let t := ProtoType.mk "T" [f] in
  uint32 (WireReader := specReader) [x0a; x02; x08; x01] 0 = Got 10 1 /\
  findField t (Z.shiftr 10 3) = Some f /\
  skipType (WireReader := specReader) [x0a; x02; x08; x01] (Z.land 10 7) 1 = Got tt 4 /\
  readField (reader := specReader) Examples.noTypes [x0a; x02; x08; x01]
    (fun _ _ _ _ _ _ => ret tt) 0 t 0%nat EmptyString 0%nat 0 initialState
  = Ok (tt, mkState 4 [OObject []]
              [ByteRegion.mk 0 4 "m" VNull "string" 2 "m" 0]).
Proof.
  intros f t.
  do 3 (split; [reflexivity|]).
  exact (map_field_is_skipped (reader := specReader) Examples.noTypes
           [x0a; x02; x08; x01] (fun _ _ _ _ _ _ => ret tt) 0%nat t 0%nat
           EmptyString 0%nat 0 initialState f 10 1 tt 4
           eq_refl eq_refl eq_refl eq_refl eq_refl).
Defined.

(** X6. A known field whose type names no read method of the reader and
    is not an enum (for instance a message field that arrives with a wire
    type other than 2) does not make the decode fail: its bytes are
    skipped by wire type, the string "[Skipped]" is assigned to the field
    in the decoded object, and a region with that value is recorded. *)
Theorem unsupported_field_is_skipped {reader : WireReader} (root : Root)
    (buffer : list byte)
    (self : ProtoType.t -> Z -> Loc -> string -> nat -> Z -> M unit) (fuel : nat)
    (t : ProtoType.t) (o : Loc) (bp : string) (d : nat) (s : State)
    (props : list (string * Value)) (f : Field.t) (tag p1 : Z) (u : unit) (p2 : Z) :
  nth_error (st_heap s) o = Some (OObject props) ->
  uint32 buffer (st_pos s) = Got tag p1 ->
  findField t (Z.shiftr tag 3) = Some f ->
  Field.repeated f = false ->
  Field.map f = false ->
  readMethod (Field.type f) = None ->
  Field.resolvedType f <> REnum ->
  (Z.land tag 7 = 2 -> forall ref, Field.resolvedType f <> RType ref) ->
  skipType buffer (Z.land tag 7) p1 = Got u p2 ->
  readField root buffer self fuel t o bp d 0 s =
  Ok (tt, mkState p2
            (heapUpdate o (OObject (propStore (Field.name f) (VStr "[Skipped]") props))
               (st_heap s))
            (st_regions s ++
               [ByteRegion.mk (st_pos s) p2 (joinPath bp (Field.name f))
                  (VStr "[Skipped]") (Field.type f) (Z.land tag 7) (Field.name f) d])).
Proof.
  intros Hobj Htag Hfind Hrep Hmap Hmethod Henum Hwire Hskip.
  unfold readField, bind, getPos, readerCall. rewrite Htag.
  cbv zeta. rewrite Hfind. rewrite Hrep, Hmap. simpl.
  destruct (Z.eqb_spec (Z.land tag 7) 2) as [Heq|Hne];
    destruct (Field.resolvedType f) as [| |ref] eqn:Hr;
    try (exfalso; apply Henum; reflexivity);
    try (exfalso; eapply (Hwire Heq); reflexivity);
    rewrite Hmethod; simpl; rewrite Hskip; simpl;
    unfold storeValue, setProp; rewrite Hrep; simpl;
    rewrite Hobj; reflexivity.
Qed.

Lemma unsupported_field_is_skipped_witness :
  let f := Field.mk 1 "m" "Inner" false false false (RType "Inner") in
  let t := ProtoType.mk "Outer" [f] in
  readField (reader := specReader) Examples.innerRoot [x08; x05]
    (fun _ _ _ _ _ _ => ret tt) 0 t 0%nat EmptyString 0%nat 0 initialState
  = Ok (tt, mkState 2 [OObject [("m"%string, VStr "[Skipped]")]]
              [ByteRegion.mk 0 2 "m" (VStr "[Skipped]") "Inner" 0 "m" 0]).
Proof.
  intros f t.
  assert (Henum : Field.resolvedType f <> REnum) by (intros H; discriminate H).
  assert (Hwire : Z.land 8 7 = 2 -> forall ref, Field.resolvedType f <> RType ref)
    by (intros H; discriminate H).
  exact (unsupported_field_is_skipped (reader := specReader) Examples.innerRoot
           [x08; x05] (fun _ _ _ _ _ _ => ret tt) 0%nat t 0%nat EmptyString 0%nat
           initialState [] f 8 1 tt 2
           eq_refl eq_refl eq_refl eq_refl eq_refl eq_refl Henum Hwire eq_refl).
Defined.

(** ** Enum fields and packed blocks *)

(** X21. An enum field (its type names no read method of the reader, its
    resolved type is an enum) is read with [int32]: the number is assigned
    to the field in the decoded object, and the region carries the number
    and the name of the enum type, whatever the wire type of the tag. *)
Theorem enum_field_is_read_as_int32 {reader : WireReader} (root : Root)
    (buffer : list byte)
    (self : ProtoType.t -> Z -> Loc -> string -> nat -> Z -> M unit) (fuel : nat)
    (t : ProtoType.t) (o : Loc) (bp : string) (d : nat) (s : State)
    (props : list (string * Value)) (f : Field.t) (tag p1 n p2 : Z) :
  nth_error (st_heap s) o = Some (OObject props) ->
  uint32 buffer (st_pos s) = Got tag p1 ->
  findField t (Z.shiftr tag 3) = Some f ->
  Field.repeated f = false ->
  Field.map f = false ->
  readMethod (Field.type f) = None ->
  Field.resolvedType f = REnum ->
  int32 buffer p1 = Got n p2 ->
  readField root buffer self fuel t o bp d 0 s =
  Ok (tt, mkState p2
            (heapUpdate o (OObject (propStore (Field.name f) (VNum n) props))
               (st_heap s))
            (st_regions s ++
               [ByteRegion.mk (st_pos s) p2 (joinPath bp (Field.name f))
                  (VNum n) (Field.type f) (Z.land tag 7) (Field.name f) d])).
Proof.
  intros Hobj Htag Hfind Hrep Hmap Hmethod Henum Hread.
  unfold readField, bind, getPos, readerCall. rewrite Htag.
  cbv zeta. rewrite Hfind. rewrite Hrep, Hmap. simpl.
  rewrite Henum, Hmethod.
  destruct (Z.land tag 7 =? 2); simpl; rewrite Hread; simpl;
    unfold storeValue, setProp; rewrite Hrep; simpl;
    rewrite Hobj; reflexivity.
Qed.

Lemma enum_field_is_read_as_int32_witness :
  let f := Field.mk 2 "type" "PhoneType" false false false REnum in
  let t := ProtoType.mk "PhoneNumber" [f] in
  readField (reader := specReader) Examples.noTypes [x10; x02]
    (fun _ _ _ _ _ _ => ret tt) 0 t 0%nat EmptyString 0%nat 0 initialState
  = Ok (tt, mkState 2 [OObject [("type"%string, VNum 2)]]
              [ByteRegion.mk 0 2 "type" (VNum 2) "PhoneType" 0 "type" 0]).
Proof.
  intros f t.
  exact (enum_field_is_read_as_int32 (reader := specReader) Examples.noTypes
           [x10; x02] (fun _ _ _ _ _ _ => ret tt) 0%nat t 0%nat EmptyString 0%nat
           initialState [] f 16 1 2 2
           eq_refl eq_refl eq_refl eq_refl eq_refl eq_refl eq_refl eq_refl).
Defined.

(** From [p], the loop of lines 68-71 reads the values [elems] with the
    reader method [method], each paired with the cursor after it: one
    value as long as the cursor is before [packedEnd]; [final] is the
    cursor at which the loop stops. *)
Fixpoint packedFrom (buffer : list byte) (method : list byte -> Z -> Read Value)
    (packedEnd p : Z) (elems : list (Value * Z)) (final : Z) : Prop :=
  match elems with
  | [] => packedEnd <= p /\ final = p
  | (v, q) :: rest =>
      p < packedEnd /\ method buffer p = Got v q /\
      packedFrom buffer method packedEnd q rest final
  end.

Lemma packedLoop_run {reader : WireReader} (buffer : list byte)
    (typeName name : string) (method : list byte -> Z -> Read Value)
    (packedEnd : Z) (rs : list ByteRegion.t) :
  readMethod typeName = Some method ->
  forall (elems : list (Value * Z)) (fuel : nat) (p final : Z) (arr : list Value),
    (List.length elems < fuel)%nat ->
    packedFrom buffer method packedEnd p elems final ->
    packedLoop buffer fuel typeName (VRef 1%nat) packedEnd
      (mkState p [OObject [(name, VRef 1%nat)]; OArray arr] rs)
    = Ok (tt, mkState final
                [OObject [(name, VRef 1%nat)]; OArray (arr ++ List.map fst elems)] rs).
Proof.
  intros Hmethod.
  induction elems as [|[v q] rest IH]; intros fuel p final arr Hfuel Hfrom;
    (destruct fuel as [|fuel]; [simpl in Hfuel; lia|]); cbn [packedLoop].
  - destruct Hfrom as [Hge Hfinal]. subst final.
    unfold bind, getPos. cbn [st_pos].
    rewrite (proj2 (Z.ltb_ge _ _) Hge), app_nil_r. reflexivity.
  - destruct Hfrom as (Hlt & Hread & Hrest).
    unfold bind at 1. unfold getPos. cbn [st_pos].
    rewrite (proj2 (Z.ltb_lt _ _) Hlt).
    unfold bind at 1. unfold readerReflect. rewrite Hmethod.
    unfold readerCall. cbn [st_pos st_heap st_regions]. rewrite Hread.
    unfold bind at 1. unfold arrayPush. cbn [st_pos st_heap st_regions nth_error heapUpdate].
    rewrite (IH fuel q final (arr ++ [v])); [|simpl in Hfuel; lia|exact Hrest].
    cbn [List.map fst]. rewrite <- app_assoc. reflexivity.
Qed.

Lemma packedFrom_count {reader : WireReader} (buffer : list byte)
    (typeName : string) (method : list byte -> Z -> Read Value) (packedEnd : Z) :
  readMethod typeName = Some method ->
  forall (elems : list (Value * Z)) (p final : Z),
    packedFrom buffer method packedEnd p elems final ->
    elems = [] \/
    p + Z.of_nat (List.length elems) <= Z.of_nat (List.length buffer).
Proof.
  intros Hmethod. induction elems as [|[v q] rest IH]; intros p final Hfrom.
  - left. reflexivity.
  - right. destruct Hfrom as (_ & Hread & Hrest).
    apply (readMethod_advances _ _ _ _ _ _ Hmethod) in Hread.
    destruct (IH _ _ Hrest) as [Hnil|Hle].
    + subst rest. simpl. lia.
    + cbn [List.length]. rewrite Nat2Z.inj_succ. lia.
Qed.

(** The occurrence of a packed block at the start of the buffer. *)
Lemma readField_packed_block {reader : WireReader} (root : Root)
    (buffer : list byte)
    (self : ProtoType.t -> Z -> Loc -> string -> nat -> Z -> M unit) (fuel : nat)
    (type : ProtoType.t) (f : Field.t)
    (method : list byte -> Z -> Read Value) (tag p1 len p2 : Z)
    (elems : list (Value * Z)) (final : Z) :
  uint32 buffer 0 = Got tag p1 ->
  findField type (Z.shiftr tag 3) = Some f ->
  Field.map f = false ->
  Field.repeated f = true ->
  Field.packed f = true ->
  Z.land tag 7 = 2 ->
  readMethod (Field.type f) = Some method ->
  uint32 buffer p1 = Got len p2 ->
  packedFrom buffer method (p2 + len) p2 elems final ->
  (List.length elems < fuel)%nat ->
  inherited (Field.name f) = false ->
  readField root buffer self fuel type 0%nat EmptyString 0%nat 0 initialState
  = Ok (tt, mkState final
              [OObject [(Field.name f, VRef 1%nat)]; OArray (List.map fst elems)]
              [ByteRegion.mk 0 final (Field.name f) (VRef 1%nat)
                 ("packed " ++ Field.type f) 2 (Field.name f) 0]).
Proof.
  intros Htag Hfind Hmap Hrep Hpacked Hwire Hmethod Hlen Hfrom Hfuel Hown.
  unfold readField, bind, getPos, readerCall. simpl. rewrite Htag.
  cbv zeta. rewrite Hfind, Hmap, Hrep, Hpacked, Hwire. simpl.
  unfold ensureArray, bind, getProp, propLookup. simpl. rewrite Hown. simpl.
  rewrite !String.eqb_refl. simpl.
  rewrite Hlen. simpl.
  repeat (rewrite String.eqb_refl; simpl).
  rewrite (packedLoop_run buffer (Field.type f) (Field.name f) method
             (p2 + len) [] Hmethod elems fuel p2 final []);
    [|exact Hfuel|exact Hfrom].
  unfold pushRegion. simpl. rewrite Z.add_0_r. reflexivity.
Qed.

(** With a field name that every object inherits, no array is created and
    the first value of the block is pushed onto the inherited member. *)
Lemma readField_packed_inherited {reader : WireReader} (root : Root)
    (buffer : list byte)
    (self : ProtoType.t -> Z -> Loc -> string -> nat -> Z -> M unit) (fuel : nat)
    (type : ProtoType.t) (f : Field.t)
    (method : list byte -> Z -> Read Value) (tag p1 len p2 : Z)
    (v : Value) (q : Z) :
  uint32 buffer 0 = Got tag p1 ->
  findField type (Z.shiftr tag 3) = Some f ->
  Field.map f = false ->
  Field.repeated f = true ->
  Field.packed f = true ->
  Z.land tag 7 = 2 ->
  readMethod (Field.type f) = Some method ->
  uint32 buffer p1 = Got len p2 ->
  p2 < p2 + len ->
  method buffer p2 = Got v q ->
  inherited (Field.name f) = true ->
  readField root buffer self (S fuel) type 0%nat EmptyString 0%nat 0 initialState
  = Throw (JsTypeError "push is not a function").
Proof.
  intros Htag Hfind Hmap Hrep Hpacked Hwire Hmethod Hlen Hlt Hread Hinh.
  unfold readField, bind, getPos, readerCall. simpl. rewrite Htag.
  cbv zeta. rewrite Hfind, Hmap, Hrep, Hpacked, Hwire. simpl.
  unfold ensureArray, bind, getProp, propLookup. simpl. rewrite Hinh. simpl.
  rewrite Hlen. simpl.
  rewrite (proj2 (Z.ltb_lt _ _) Hlt).
  unfold readerReflect. rewrite Hmethod. unfold readerCall. simpl.
  rewrite Hread. reflexivity.
Qed.

(** X22. A packed block gets one region, not one for each element: when
    the buffer is a repeated packed field with wire type 2 whose type is
    a read method of the reader, the decode returns the array of the
    values read up to the declared end of the block, in the order of the
    buffer, and a single region from the tag to the end of the block,
    with the path of the field without an index and the type
    "packed <type>", provided that the name of the field is not a key that
    every object inherits.  When it is one and the block holds a value,
    the value is pushed onto the inherited member and the decode fails. *)
Theorem packed_block_is_one_region {reader : WireReader} (root : Root)
    (buffer : list byte) (type : ProtoType.t) (f : Field.t)
    (method : list byte -> Z -> Read Value) (tag p1 len p2 : Z)
    (elems : list (Value * Z)) (final : Z) :
  uint32 buffer 0 = Got tag p1 ->
  findField type (Z.shiftr tag 3) = Some f ->
  Field.map f = false ->
  Field.repeated f = true ->
  Field.packed f = true ->
  Z.land tag 7 = 2 ->
  readMethod (Field.type f) = Some method ->
  uint32 buffer p1 = Got len p2 ->
  packedFrom buffer method (p2 + len) p2 elems final ->
  Z.of_nat (List.length buffer) <= final ->
  (inherited (Field.name f) = false ->
   decodeWithRegions root buffer type
   = Ok (Decoded.mk (VRef 0%nat)
           [ByteRegion.mk 0 final (Field.name f) (VRef 1%nat)
              ("packed " ++ Field.type f) 2 (Field.name f) 0]
           [OObject [(Field.name f, VRef 1%nat)]; OArray (List.map fst elems)])) /\
  (inherited (Field.name f) = true ->
   elems <> [] ->
   decodeWithRegions root buffer type = Throw (JsError failureMessage)).
Proof.
  intros Htag Hfind Hmap Hrep Hpacked Hwire Hmethod Hlen Hfrom Hend.
  pose proof (uint32_advances _ _ _ _ Htag) as [Hp1 Hnonempty].
  pose proof (uint32_advances _ _ _ _ Hlen) as [Hp2 _].
  assert (Hfuel : (List.length elems < List.length buffer)%nat).
  { destruct (packedFrom_count buffer _ method _ Hmethod _ _ _ Hfrom) as [Hnil|Hle].
    - subst elems. simpl. lia.
    - lia. }
  unfold decodeWithRegions.
  destruct (List.length buffer) as [|n] eqn:Hn; [simpl in Hnonempty; lia|].
  split.
  - intros Hown.
    pose proof (readField_packed_block root buffer (readMessage root buffer (S n))
                  (S n) type f method tag p1 len p2 elems final
                  Htag Hfind Hmap Hrep Hpacked Hwire Hmethod Hlen Hfrom Hfuel Hown)
      as Hfield.
    erewrite readMessage_next; [|cbn [initialState st_pos]; lia|exact Hfield].
    rewrite readMessage_done by (cbn [st_pos]; lia).
    reflexivity.
  - intros Hinh Hsome. destruct elems as [|[v q] rest]; [contradiction|].
    destruct Hfrom as (Hlt & Hread & _).
    pose proof (readField_packed_inherited root buffer
                  (readMessage root buffer (S n)) n type f method tag p1 len p2 v q
                  Htag Hfind Hmap Hrep Hpacked Hwire Hmethod Hlen Hlt Hread Hinh)
      as Hfield.
    assert (Hstart : st_pos initialState < Z.of_nat (S n))
      by (cbn [initialState st_pos]; lia).
    rewrite (readMessage_throws root buffer (S n) type (Z.of_nat (S n)) 0%nat
               EmptyString 0%nat 0 initialState _ Hstart Hfield).
    reflexivity.
Qed.

Lemma packed_block_is_one_region_witness :
  let read := fun b p => SpecReader.mapRead VNum (SpecReader.read_int32 b p) in
  let hidden := Field.mk 1 "constructor" "int32" true true false RNone in
  packedFrom [x0a; x03; x07; x89; x00] read (2 + 3) 2 [(VNum 7, 3); (VNum 9, 5)] 5 /\
  decodeWithRegions (reader := specReader) Examples.noTypes
    [x0a; x03; x07; x89; x00] Examples.Ints
  = Ok (Decoded.mk (VRef 0%nat)
          [ByteRegion.mk 0 5 "v" (VRef 1%nat) "packed int32" 2 "v" 0]
          [OObject [("v"%string, VRef 1%nat)]; OArray [VNum 7; VNum 9]]) /\
  decodeWithRegions (reader := specReader) Examples.noTypes
    [x0a; x03; x07; x89; x00] (ProtoType.mk "Ints" [hidden])
  = Throw (JsError failureMessage).
Proof.
  intros read hidden.
  assert (Hfrom : packedFrom [x0a; x03; x07; x89; x00] read (2 + 3) 2
                    [(VNum 7, 3); (VNum 9, 5)] 5)
    by (simpl; repeat split; reflexivity || lia).
  assert (Hend : Z.of_nat (List.length [x0a; x03; x07; x89; x00]) <= 5)
    by (simpl; lia).
  assert (Hsome : [(VNum 7, 3); (VNum 9, 5)] <> []) by discriminate.
  split; [exact Hfrom|]. split.
  - exact (proj1 (packed_block_is_one_region (reader := specReader)
                    Examples.noTypes [x0a; x03; x07; x89; x00] Examples.Ints
                    (Field.mk 1 "v" "int32" true true false RNone) read 10 1 3 2
                    [(VNum 7, 3); (VNum 9, 5)] 5
                    eq_refl eq_refl eq_refl eq_refl eq_refl eq_refl eq_refl eq_refl
                    Hfrom Hend)
             eq_refl).
  - exact (proj2 (packed_block_is_one_region (reader := specReader)
                    Examples.noTypes [x0a; x03; x07; x89; x00]
                    (ProtoType.mk "Ints" [hidden]) hidden read 10 1 3 2
                    [(VNum 7, 3); (VNum 9, 5)] 5
                    eq_refl eq_refl eq_refl eq_refl eq_refl eq_refl eq_refl eq_refl
                    Hfrom Hend)
             eq_refl Hsome).
Defined.

(** ** A message type without fields *)

Lemma readMessage_no_fields {reader : WireReader} (root : Root) (buffer : list byte)
    (t : ProtoType.t) (fuel : nat) :
  ProtoType.fields t = [] ->
  forall e o bp d g s u s',
    readMessage root buffer fuel t e o bp d g s = Ok (u, s') ->
    st_heap s' = st_heap s /\
    exists new,
      st_regions s' = st_regions s ++ new /\
      Forall (fun r => ByteRegion.type r = "unknown"%string) new /\
      (st_pos s < e -> new <> []).
Proof.
  intros Hfields.
  assert (Hnone : forall fieldId, findField t fieldId = None).
  { intros fieldId. unfold findField. rewrite Hfields. reflexivity. }
  induction fuel as [|fuel IH]; simpl; intros e o bp d g s u s' H; [discriminate|].
  unfold bind at 1 in H. simpl in H.
  destruct (Z.ltb_spec (st_pos s) e) as [Hlt|Hge].
  - unfold bind at 1 in H.
    destruct (readField root buffer (readMessage root buffer fuel) fuel t o bp d g s)
      as [[u1 s1]|err|] eqn:Hfield; try discriminate.
    unfold readField, bind, getPos, readerCall in Hfield. simpl in Hfield.
    destruct (uint32 buffer (st_pos s)) as [tag p1|err] eqn:Htag; [|discriminate].
    cbv zeta in Hfield. rewrite Hnone in Hfield. simpl in Hfield.
    destruct (skipType buffer (Z.land tag 7) p1) as [u2 p2|err] eqn:Hskip;
      [|discriminate].
    simpl in Hfield. inversion Hfield; subst s1. clear Hfield.
    apply IH in H. simpl in H. destruct H as (Hheap & new & Hrs & Hall & _).
    split; [assumption|].
    eexists (_ :: new). split; [rewrite Hrs, <- app_assoc; reflexivity|].
    split; [constructor; [reflexivity|assumption]|].
    intros _. discriminate.
  - inversion H; subst. split; [reflexivity|].
    exists []. split; [symmetry; apply app_nil_r|]. split; [constructor|lia].
Qed.

(** X7. Decoding against a message type that has no fields never puts
    anything into the decoded object: when the decode returns, the result
    is the empty object, every region is of type "unknown", and there is
    at least one region if the buffer is not empty. *)
Theorem no_fields_gives_empty_object {reader : WireReader} (root : Root)
    (buffer : list byte) (type : ProtoType.t) (d : Decoded.t) :
  ProtoType.fields type = [] ->
  decodeWithRegions root buffer type = Ok d ->
  Decoded.result d = VRef 0%nat /\
  Decoded.heap d = [OObject []] /\
  Forall (fun r => ByteRegion.type r = "unknown"%string) (Decoded.regions d) /\
  (buffer <> [] -> Decoded.regions d <> []).
Proof.
  intros Hfields. unfold decodeWithRegions.
  destruct (readMessage root buffer (S (List.length buffer)) type
              (Z.of_nat (List.length buffer)) 0%nat EmptyString 0%nat 0 initialState)
    as [[u s]|e|] eqn:Hrun; try discriminate.
  intros Hd. inversion Hd; subst d. simpl.
  apply (readMessage_no_fields root buffer type _ Hfields) in Hrun.
  simpl in Hrun. destruct Hrun as (Hheap & new & Hrs & Hall & Hne).
  split; [reflexivity|]. split; [assumption|].
  rewrite Hrs. split; [assumption|].
  intros Hbuf. apply Hne. destruct buffer; [contradiction|simpl; lia].
Qed.

Lemma no_fields_gives_empty_object_witness :
  let d := Decoded.mk (VRef 0%nat)
             [ByteRegion.mk 0 2 "unknown_1" (VStr "Unknown Field") "unknown" 0
                "unknown_1" 0]
             [OObject []] in
  decodeWithRegions (reader := specReader) Examples.noTypes [x08; x05]
    (ProtoType.mk "Empty" []) = Ok d /\
  Decoded.heap d = [OObject []] /\
  Decoded.regions d <> [].
Proof.
  intros d.
  assert (Hd : decodeWithRegions (reader := specReader) Examples.noTypes [x08; x05]
                 (ProtoType.mk "Empty" []) = Ok d) by reflexivity.
  assert (Hne : [x08; x05] <> []) by discriminate.
  pose proof (no_fields_gives_empty_object (reader := specReader) Examples.noTypes
                [x08; x05] (ProtoType.mk "Empty" []) d eq_refl Hd) as H.
  split; [exact Hd|]. split; [exact (proj1 (proj2 H))|].
  exact (proj2 (proj2 (proj2 H)) Hne).
Defined.

(** ** src/components/HexViewer.tsx *)

Module HexViewer.

(** An index argument of [slice], made relative to the array: a negative
    index counts from the end, and the result is kept within the array. *)
Definition clampIndex (len i : Z) : Z :=
  if i <? 0 then Z.max (len + i) 0 else Z.min i len.

(** [data.slice(i, j)]. *)
Definition slice (data : list byte) (i j : Z) : list byte :=
  let len := Z.of_nat (List.length data) in
  let k := clampIndex len i in
  let final := clampIndex len j in
  firstn (Z.to_nat (final - k)) (skipn (Z.to_nat k) data).

Definition bytesPerRow : Z := 16.

(** Lines 26-28: [for (let i = 0; i < data.length; i += bytesPerRow)]; one
    unit of fuel per row. *)
Fixpoint gridFrom (fuel : nat) (data : list byte) (i : Z) : list (list byte) :=
  match fuel with
  | O => []
  | S fuel' =>
      if i <? Z.of_nat (List.length data) then
        slice data i (i + bytesPerRow) :: gridFrom fuel' data (i + bytesPerRow)
      else []
  end.

(** Lines 22-30.  There are never more rows than bytes. *)
Definition grid (data : list byte) : list (list byte) :=
  gridFrom (List.length data) data 0.

(** Lines 59 and 70: [offset = rowIndex * 16],
    [actualIndex = offset + colIndex]. *)
Definition rowOffset (rowIndex : nat) : Z := Z.of_nat rowIndex * 16.
Definition actualIndex (rowIndex colIndex : nat) : Z :=
  rowOffset rowIndex + Z.of_nat colIndex.

(** Lines 32-35. *)
Definition isHighlighted (hoveredRegion : option ByteRegion.t) (index : Z) : bool :=
  match hoveredRegion with
  | None => false
  | Some r => (ByteRegion.start r <=? index) && (index <? ByteRegion.end_ r)
  end.

(** The digit characters of [Number.prototype.toString(16)]. *)
Definition hexDigit (d : Z) : ascii :=
  if d <? 10 then ascii_of_N (Z.to_N (48 + d)) else ascii_of_N (Z.to_N (87 + d)).

(** The digits of [n], most significant first, in front of [acc]. *)
Fixpoint hexDigits (fuel : nat) (n : Z) (acc : string) : string :=
  match fuel with
  | O => acc
  | S fuel' =>
      let acc' := String (hexDigit (n mod 16)) acc in
      if n <? 16 then acc' else hexDigits fuel' (n / 16) acc'
  end.

(** [n.toString(16)] for an integer [n >= 0]; a number has no more
    hexadecimal digits than binary ones. *)
Definition toString16 (n : Z) : string :=
  hexDigits (S (Z.to_nat (Z.log2 n))) n EmptyString.

(** [toUpperCase] on one ASCII character. *)
Definition upperChar (c : ascii) : ascii :=
  let n := N_of_ascii c in
  if ((97 <=? n) && (n <=? 122))%N then ascii_of_N (n - 32) else c.

(** [s.toUpperCase()] on a string of ASCII characters. *)
Fixpoint toUpperCase (s : string) : string :=
  match s with
  | EmptyString => EmptyString
  | String c rest => String (upperChar c) (toUpperCase rest)
  end.

Fixpoint repeatChar (n : nat) (c : ascii) : string :=
  match n with
  | O => EmptyString
  | S n' => String c (repeatChar n' c)
  end.

(** [s.padStart(targetLength, c)] with a one-character pad string. *)
Definition padStart (targetLength : nat) (c : ascii) (s : string) : string :=
  (repeatChar (targetLength - String.length s) c ++ s)%string.

(** [n.toString(16).toUpperCase().padStart(width, '0')]: the labels of
    lines 51, 64 and 87. *)
Definition hexLabel (width : nat) (n : Z) : string :=
  padStart width "0"%char (toUpperCase (toString16 n)).

Definition byteLabel (b : byte) : string := hexLabel 2 (Z.of_N (Byte.to_N b)).
Definition offsetLabel (rowIndex : nat) : string := hexLabel 6 (rowOffset rowIndex).

(** Line 96: [(byte >= 32 && byte <= 126) ? String.fromCharCode(byte) : '.']. *)
Definition previewChar (b : byte) : ascii :=
  let n := Byte.to_N b in
  if ((32 <=? n) && (n <=? 126))%N then ascii_of_N n else "."%char.

(** The number that a string of hexadecimal digits (of either case)
    denotes, continuing from [acc]; other characters count as 0. *)
Definition hexValue (c : ascii) : Z :=
  let n := Z.of_N (N_of_ascii c) in
  if (48 <=? n) && (n <=? 57) then n - 48
  else if (65 <=? n) && (n <=? 70) then n - 55
  else if (97 <=? n) && (n <=? 102) then n - 87
  else 0.

Fixpoint parseHexFrom (acc : Z) (s : string) : Z :=
  match s with
  | EmptyString => acc
  | String c rest => parseHexFrom (acc * 16 + hexValue c) rest
  end.

Definition parseHex (s : string) : Z := parseHexFrom 0 s.

End HexViewer.

Module HexViewerFacts.
Import HexViewer.

Lemma slice_row (data : list byte) (i : Z) :
  0 <= i ->
  slice data i (i + bytesPerRow) = firstn 16 (skipn (Z.to_nat i) data).
Proof.
  intros Hi. unfold slice, clampIndex, bytesPerRow.
  rewrite (proj2 (Z.ltb_ge i 0)) by lia.
  rewrite (proj2 (Z.ltb_ge (i + 16) 0)) by lia.
  destruct (Z.le_gt_cases (Z.of_nat (List.length data)) i) as [Hout|Hin].
  - rewrite !Z.min_r by lia. rewrite Z.sub_diag. simpl.
    rewrite (skipn_all2 data) by lia. reflexivity.
  - rewrite (Z.min_l i) by lia.
    destruct (Z.le_gt_cases (i + 16) (Z.of_nat (List.length data))) as [Hfull|Hshort].
    + rewrite Z.min_l by lia. replace (i + 16 - i) with 16 by lia. reflexivity.
    + rewrite Z.min_r by lia.
      rewrite !firstn_all2; [reflexivity| |]; rewrite length_skipn; lia.
Qed.

Lemma gridFrom_nth (data : list byte) :
  forall (fuel : nat) (i : Z) (r : nat),
    0 <= i ->
    Z.of_nat (List.length data) - i <= Z.of_nat fuel ->
    nth r (gridFrom fuel data i) [] =
    firstn 16 (skipn (Z.to_nat (i + 16 * Z.of_nat r)) data).
Proof.
  induction fuel as [|fuel IH]; intros i r Hi Hfuel; cbn [gridFrom].
  - rewrite (skipn_all2 data) by lia. destruct r; reflexivity.
  - destruct (Z.ltb_spec i (Z.of_nat (List.length data))) as [Hlt|Hge].
    + destruct r as [|r]; cbn [nth].
      * rewrite slice_row by lia. do 3 f_equal. lia.
      * rewrite IH by (unfold bytesPerRow; lia). do 3 f_equal.
        unfold bytesPerRow. lia.
    + rewrite (skipn_all2 data) by lia. destruct r; reflexivity.
Qed.

Lemma gridFrom_nth_error (data : list byte) :
  forall (fuel : nat) (i : Z) (r : nat) (row : list byte),
    0 <= i ->
    nth_error (gridFrom fuel data i) r = Some row ->
    row = firstn 16 (skipn (Z.to_nat (i + 16 * Z.of_nat r)) data) /\
    i + 16 * Z.of_nat r < Z.of_nat (List.length data).
Proof.
  induction fuel as [|fuel IH]; intros i r row Hi H; cbn [gridFrom] in H.
  - destruct r; discriminate.
  - destruct (Z.ltb_spec i (Z.of_nat (List.length data))) as [Hlt|Hge];
      [|destruct r; discriminate].
    destruct r as [|r]; cbn [nth_error] in H.
    + inversion H; subst row. rewrite slice_row by lia.
      split; [do 3 f_equal; lia|lia].
    + apply IH in H; [|unfold bytesPerRow; lia]. unfold bytesPerRow in H.
      destruct H as [Hrow Hin]. split; [|lia].
      rewrite Hrow. do 3 f_equal. lia.
Qed.

Lemma gridFrom_concat (data : list byte) :
  forall (fuel : nat) (i : Z),
    0 <= i ->
    Z.of_nat (List.length data) - i <= Z.of_nat fuel ->
    List.concat (gridFrom fuel data i) = skipn (Z.to_nat i) data.
Proof.
  induction fuel as [|fuel IH]; intros i Hi Hfuel; cbn [gridFrom].
  - rewrite (skipn_all2 data) by lia. reflexivity.
  - destruct (Z.ltb_spec i (Z.of_nat (List.length data))) as [Hlt|Hge].
    + cbn [List.concat]. rewrite slice_row by lia. rewrite IH by (unfold bytesPerRow; lia).
      replace (Z.to_nat (i + bytesPerRow)) with (16 + Z.to_nat i)%nat
        by (unfold bytesPerRow; lia).
      rewrite <- skipn_skipn. apply firstn_skipn.
    + rewrite (skipn_all2 data) by lia. reflexivity.
Qed.

(** X8. The rows of the hex grid are the data cut into pieces of 16
    bytes: put end to end they give back the data, no row is empty, no row
    has more than 16 bytes, and every row that is followed by another row
    has exactly 16. *)
Theorem grid_rows_partition_data (data : list byte) :
  List.concat (grid data) = data /\
  forall (r : nat) (row : list byte),
    nth_error (grid data) r = Some row ->
    row <> [] /\
    (List.length row <= 16)%nat /\
    (nth_error (grid data) (S r) <> None -> List.length row = 16%nat).
Proof.
  split.
  - unfold grid. rewrite gridFrom_concat by lia. reflexivity.
  - unfold grid. intros r row Hrow.
    apply gridFrom_nth_error in Hrow; [|lia]. destruct Hrow as [Hrow Hin].
    assert (Hlen : List.length row =
                   Nat.min 16 (List.length data - Z.to_nat (0 + 16 * Z.of_nat r))).
    { rewrite Hrow, length_firstn, length_skipn. reflexivity. }
    split; [|split].
    + intros Hnil. rewrite Hnil in Hlen. cbn [List.length] in Hlen. lia.
    + lia.
    + intros Hnext.
      destruct (nth_error (gridFrom (List.length data) data 0) (S r)) as [next|] eqn:Hn;
        [|contradiction].
      apply gridFrom_nth_error in Hn; [|lia]. destruct Hn as [_ Hin2]. lia.
Qed.

Lemma grid_rows_partition_data_witness :
  let data := [x0a; x02; x41; x6c; x10; x07; x0a; x02; x41; x6c; x10; x07;
               x0a; x02; x41; x6c; x10; x07] in
  nth_error (grid data) 0
  = Some [x0a; x02; x41; x6c; x10; x07; x0a; x02; x41; x6c; x10; x07;
          x0a; x02; x41; x6c] /\
  nth_error (grid data) 1 <> None /\
  List.length [x0a; x02; x41; x6c; x10; x07; x0a; x02; x41; x6c; x10; x07;
               x0a; x02; x41; x6c] = 16%nat.
Proof.
  intros data.
  assert (Hrow : nth_error (grid data) 0
                 = Some [x0a; x02; x41; x6c; x10; x07; x0a; x02; x41; x6c; x10; x07;
                         x0a; x02; x41; x6c]) by reflexivity.
  assert (Hnext : nth_error (grid data) 1 <> None) by (intros H; discriminate H).
  split; [exact Hrow|]. split; [exact Hnext|].
  exact (proj2 (proj2 (proj2 (grid_rows_partition_data data) 0%nat _ Hrow)) Hnext).
Defined.

(** X9. The byte shown in row [rowIndex], column [colIndex] of the hex
    grid is the byte of the data at [actualIndex = rowIndex * 16 +
    colIndex], the index that the cell reports when it is hovered; cells
    exist exactly for the indices of the data. *)
Theorem grid_cell_is_indexed_byte (data : list byte) (rowIndex colIndex : nat) :
  (colIndex < 16)%nat ->
  nth_error (nth rowIndex (grid data) []) colIndex =
  nth_error data (Z.to_nat (actualIndex rowIndex colIndex)).
Proof.
  intros Hcol. unfold grid. rewrite gridFrom_nth by lia.
  rewrite nth_error_firstn.
  destruct (Nat.ltb_spec colIndex 16) as [_|Hge]; [|lia].
  rewrite nth_error_skipn. f_equal. unfold actualIndex, rowOffset. lia.
Qed.

Lemma grid_cell_is_indexed_byte_witness :
  let data := [x0a; x02; x41; x6c; x10; x07; x0a; x02; x41; x6c; x10; x07;
               x0a; x02; x41; x6c; x10; x07] in
  (1 < 16)%nat /\
  nth_error (nth 1 (grid data) []) 1 = nth_error data (Z.to_nat (actualIndex 1 1)).
Proof.
  intros data.
  assert (Hcol : (1 < 16)%nat) by lia.
  split; [exact Hcol|].
  exact (grid_cell_is_indexed_byte data 1 1 Hcol).
Defined.

(** *** Labels *)

(** A character out of [0-9A-F]. *)
Definition upperHexChar (c : ascii) : bool :=
  let n := N_of_ascii c in
  ((48 <=? n) && (n <=? 57) || (65 <=? n) && (n <=? 70))%N.

Fixpoint upperHexOnly (s : string) : bool :=
  match s with
  | EmptyString => true
  | String c rest => upperHexChar c && upperHexOnly rest
  end.

Lemma upper_hexDigit_value (d : Z) :
  0 <= d < 16 ->
  hexValue (upperChar (hexDigit d)) = d /\
  upperHexChar (upperChar (hexDigit d)) = true.
Proof.
  intros Hd.
  assert (Hcases : d = 0 \/ d = 1 \/ d = 2 \/ d = 3 \/ d = 4 \/ d = 5 \/ d = 6 \/
                   d = 7 \/ d = 8 \/ d = 9 \/ d = 10 \/ d = 11 \/ d = 12 \/
                   d = 13 \/ d = 14 \/ d = 15) by lia.
  repeat (destruct Hcases as [->|Hcases]; [split; reflexivity|]).
  subst d. split; reflexivity.
Qed.

Lemma hexDigits_spec :
  forall (fuel : nat) (n : Z) (acc : string),
    0 <= n < 16 ^ Z.of_nat fuel ->
    parseHexFrom 0 (toUpperCase (hexDigits fuel n acc)) =
    parseHexFrom n (toUpperCase acc) /\
    (upperHexOnly (toUpperCase acc) = true ->
     upperHexOnly (toUpperCase (hexDigits fuel n acc)) = true).
Proof.
  induction fuel as [|fuel IH]; intros n acc Hn.
  - assert (n = 0) by (simpl in Hn; lia). subst n. split; auto.
  - assert (Hmod : 0 <= n mod 16 < 16) by (apply Z.mod_pos_bound; lia).
    destruct (upper_hexDigit_value _ Hmod) as [Hval Hupper].
    cbn [hexDigits]. destruct (Z.ltb_spec n 16) as [Hsmall|Hbig].
    + cbn [toUpperCase parseHexFrom upperHexOnly].
      rewrite Hval, Hupper, Z.mod_small by lia. split; [reflexivity|].
      intros Hacc. rewrite Hacc. reflexivity.
    + assert (Hdiv : 0 <= n / 16 < 16 ^ Z.of_nat fuel).
      { split; [apply Z.div_pos; lia|].
        apply Z.div_lt_upper_bound; [lia|].
        rewrite Nat2Z.inj_succ, Z.pow_succ_r in Hn by lia. lia. }
      destruct (IH (n / 16) (String (hexDigit (n mod 16)) acc) Hdiv) as [IHv IHu].
      split.
      * rewrite IHv. cbn [toUpperCase parseHexFrom]. rewrite Hval. f_equal.
        pose proof (Z.div_mod n 16). lia.
      * intros Hacc. apply IHu. cbn [toUpperCase upperHexOnly].
        rewrite Hupper, Hacc. reflexivity.
Qed.

Lemma hexDigits_length :
  forall (fuel k : nat) (n : Z) (acc : string),
    (1 <= k)%nat ->
    0 <= n < 16 ^ Z.of_nat k ->
    (String.length (hexDigits fuel n acc) <= k + String.length acc)%nat.
Proof.
  induction fuel as [|fuel IH]; intros k n acc Hk Hn; cbn [hexDigits]; [lia|].
  destruct (Z.ltb_spec n 16) as [Hsmall|Hbig]; [cbn [String.length]; lia|].
  destruct k as [|[|k]]; [lia|change (16 ^ Z.of_nat 1) with 16 in Hn; lia|].
  assert (Hdiv : 0 <= n / 16 < 16 ^ Z.of_nat (S k)).
  { split; [apply Z.div_pos; lia|].
    apply Z.div_lt_upper_bound; [lia|].
    rewrite (Nat2Z.inj_succ (S k)), Z.pow_succ_r in Hn by lia. lia. }
  specialize (IH (S k) (n / 16) (String (hexDigit (n mod 16)) acc)).
  cbn [String.length] in IH. lia.
Qed.

Lemma toString16_fuel (n : Z) :
  0 <= n -> n < 16 ^ Z.of_nat (S (Z.to_nat (Z.log2 n))).
Proof.
  intros Hn. pose proof (Z.log2_nonneg n) as Hlog.
  rewrite Nat2Z.inj_succ, Z2Nat.id by lia.
  destruct (Z.eq_dec n 0) as [->|Hpos]; [simpl; lia|].
  pose proof (Z.log2_spec n) as Hspec.
  assert (2 ^ Z.succ (Z.log2 n) <= 16 ^ Z.succ (Z.log2 n))
    by (apply Z.pow_le_mono_l; lia).
  lia.
Qed.

Lemma toUpperCase_length (s : string) :
  String.length (toUpperCase s) = String.length s.
Proof. induction s as [|c s IH]; simpl; congruence. Qed.

Lemma repeatChar_append_length (k : nat) (c : ascii) (s : string) :
  String.length (repeatChar k c ++ s) = (k + String.length s)%nat.
Proof. induction k as [|k IH]; simpl; congruence. Qed.

Lemma parse_leading_zeros (k : nat) (s : string) :
  parseHexFrom 0 (repeatChar k "0"%char ++ s) = parseHexFrom 0 s.
Proof. induction k as [|k IH]; [reflexivity|exact IH]. Qed.

Lemma upperHexOnly_leading_zeros (k : nat) (s : string) :
  upperHexOnly s = true -> upperHexOnly (repeatChar k "0"%char ++ s) = true.
Proof. intros Hs. induction k as [|k IH]; [assumption|exact IH]. Qed.

Lemma hexLabel_spec (width : nat) (n : Z) :
  (1 <= width)%nat ->
  0 <= n < 16 ^ Z.of_nat width ->
  String.length (hexLabel width n) = width /\
  upperHexOnly (hexLabel width n) = true /\
  parseHex (hexLabel width n) = n.
Proof.
  intros Hw Hn. unfold hexLabel, padStart, parseHex, toString16.
  pose proof (toString16_fuel n (proj1 Hn)) as Hfuel.
  destruct (hexDigits_spec (S (Z.to_nat (Z.log2 n))) n EmptyString
              (conj (proj1 Hn) Hfuel)) as [Hparse Hupper].
  pose proof (hexDigits_length (S (Z.to_nat (Z.log2 n))) width n EmptyString Hw Hn)
    as Hlen.
  cbn [String.length] in Hlen.
  split; [|split].
  - rewrite repeatChar_append_length, toUpperCase_length. lia.
  - apply upperHexOnly_leading_zeros. apply Hupper. reflexivity.
  - rewrite parse_leading_zeros, Hparse. reflexivity.
Qed.

(** X10. The labels of the hex view are exact: a byte is shown as exactly
    two characters out of [0-9A-F] that denote it in base 16, and the
    offset of a row, as long as it is below 16^6, as exactly six such
    characters that denote the offset. *)
Theorem hex_labels_are_exact :
  (forall b : byte,
      String.length (byteLabel b) = 2%nat /\
      upperHexOnly (byteLabel b) = true /\
      parseHex (byteLabel b) = Z.of_N (Byte.to_N b)) /\
  (forall rowIndex : nat,
      rowOffset rowIndex < 16 ^ 6 ->
      String.length (offsetLabel rowIndex) = 6%nat /\
      upperHexOnly (offsetLabel rowIndex) = true /\
      parseHex (offsetLabel rowIndex) = rowOffset rowIndex).
Proof.
  split.
  - intros b. unfold byteLabel. apply hexLabel_spec; [lia|].
    pose proof (Byte.to_N_bounded b). simpl. lia.
  - intros rowIndex Hoff. unfold offsetLabel. apply hexLabel_spec; [lia|].
    unfold rowOffset in *. simpl. lia.
Qed.

Lemma hex_labels_are_exact_witness :
  rowOffset 3 < 16 ^ 6 /\
  offsetLabel 3 = "000030"%string /\
  byteLabel x0a = "0A"%string /\
  String.length (offsetLabel 3) = 6%nat /\
  parseHex (offsetLabel 3) = rowOffset 3.
Proof.
  assert (Hoff : rowOffset 3 < 16 ^ 6) by (vm_compute; reflexivity).
  split; [exact Hoff|]. split; [reflexivity|]. split; [reflexivity|].
  pose proof (proj2 hex_labels_are_exact 3%nat Hoff) as H.
  split; [exact (proj1 H)|exact (proj2 (proj2 H))].
Defined.

(** X11. The ASCII column never shows a control or non-ASCII character:
    whatever the byte, the character shown has a code from 32 to 126; it
    is the byte's own character when that is printable and a dot
    otherwise. *)
Theorem preview_is_printable (b : byte) :
  (32 <= N_of_ascii (previewChar b) <= 126)%N /\
  previewChar b =
  (if ((32 <=? Byte.to_N b) && (Byte.to_N b <=? 126))%N
   then ascii_of_byte b else "."%char).
Proof.
  destruct b; split; try reflexivity; vm_compute; split; discriminate.
Qed.

End HexViewerFacts.

(** ** src/types.ts: DecodingResult *)

Module DecodingResult.
(** [{ data, regions, error? }], with the store in which [data] is to be
    read. *)
Record t : Type := mk {
  data : Value;
  regions : list ByteRegion.t;
  error : option string;
  heap : Heap
}.
End DecodingResult.

(** ** src/App.tsx: the effects of the application *)

Module App.

(** A reflection object of the parsed schema, as [traverse] looks at it:
    whether it is an instance of [protobuf.Type], and its [nested]
    property, if it has one, in the order of [Object.keys]. *)
#[local] Unset Elimination Schemes.
Inductive ReflectionObject : Type :=
| Reflection (isType : bool) (nested : option (list (string * ReflectionObject))).
#[local] Set Elimination Schemes.

(** Lines 61-71; [types.push] is the returned list. *)
Fixpoint traverse (obj : ReflectionObject) (fullPath : string) (types : list string)
  : list string :=
  match obj with
  | Reflection isType nested =>
      let types := if isType then types ++ [fullPath] else types in
      match nested with
      | None => types
      | Some entries =>
          fold_left
            (fun acc entry => traverse (snd entry) (joinPath fullPath (fst entry)) acc)
            entries types
      end
  end.

(** The number of message types in a reflection tree. *)
Fixpoint countTypes (obj : ReflectionObject) : nat :=
  match obj with
  | Reflection isType nested =>
      ((if isType then 1 else 0) +
       match nested with
       | None => 0
       | Some entries =>
           fold_left (fun n entry => n + countTypes (snd entry)) entries 0
       end)%nat
  end.

(** The reflection object reached from [obj] by the keys [keys], each
    looked up in the [nested] property of the one before, is a message
    type. *)
Fixpoint typeAt (obj : ReflectionObject) (keys : list string) : Prop :=
  match obj, keys with
  | Reflection isType _, [] => isType = true
  | Reflection _ nested, key :: rest =>
      exists child,
        In (key, child) (match nested with Some entries => entries | None => [] end) /\
        typeAt child rest
  end.

(** The full name of what is reached from the root by [keys]: the path
    that [traverse] has built when it gets there. *)
Definition fullName (keys : list string) : string :=
  fold_left joinPath keys EmptyString.

(** [types.includes(s)]. *)
Definition includes (types : list string) (s : string) : bool :=
  existsb (String.eqb s) types.

(** Lines 81-83: the selected type after the schema was parsed. *)
Definition selectAfterParse (types : list string) (selectedType : string) : string :=
  match types with
  | first :: _ => if negb (includes types selectedType) then first else selectedType
  | [] => selectedType
  end.

Record ProtoView : Type := mkProtoView {
  parsedRoot : option ReflectionObject;
  types : list string;
  selectedType : string;
  parseError : option string
}.

(** Lines 55-89.  [parsed] is what [protobuf.parse] gave: the root of the
    schema, or the message of the error it threw. *)
Definition parseEffect (parsed : string + ReflectionObject) (v : ProtoView) : ProtoView :=
  match parsed with
  | inr root =>
      let found := traverse root EmptyString [] in
      mkProtoView (Some root) found (selectAfterParse found (selectedType v)) None
  | inl message =>
      mkProtoView (parsedRoot v) (types v) (selectedType v)
        (Some ("Proto syntax error: " ++ message)%string)
  end.

(** The parsed root as the decoding effect uses it: [lookupType], which
    returns the type or throws an error with a message, and the
    resolution of type references. *)
Record ParsedRoot : Type := mkParsedRoot {
  lookupType : string -> string + ProtoType.t;
  resolve : Root
}.

(** [e.message].  Only [Error] objects reach the handlers of the
    application; the texts of the other errors belong to the library and
    the engine. *)
Definition messageOf (e : Thrown) : string :=
  match e with
  | JsError message => message
  | JsTypeError what => what
  | JsRangeError offset => ("index out of range: " ++ decimal offset)%string
  end.

Record DecodeView : Type := mkDecodeView {
  decodingResult : option DecodingResult.t;
  error : option string
}.

(** Lines 92-108. *)
Definition decodeEffect {reader : WireReader} (root : option ParsedRoot)
    (selected : string) (binaryData : list byte) (v : DecodeView)
  : Outcome DecodeView :=
  match root with
  | None => Ok (mkDecodeView None (error v))
  | Some parsed =>
      if String.eqb selected EmptyString || (List.length binaryData =? 0)%nat then
        Ok (mkDecodeView None (error v))
      else
        match lookupType parsed selected with
        | inl message =>
            Ok (mkDecodeView None (Some ("Decoding failed: " ++ message)%string))
        | inr type =>
            match decodeWithRegions (resolve parsed) binaryData type with
            | Ok d =>
                Ok (mkDecodeView
                      (Some (DecodingResult.mk (Decoded.result d) (Decoded.regions d)
                               None (Decoded.heap d)))
                      None)
            | Throw e =>
                Ok (mkDecodeView None
                      (Some ("Decoding failed: " ++ messageOf e)%string))
            | OutOfFuel => OutOfFuel
            end
        end
  end.

Record Hover : Type := mkHover {
  hoveredByteIndex : option Z;
  hoveredPath : option string;
  hoveredRegion : option ByteRegion.t
}.

(** Lines 111-124. *)
Definition syncHovers (result : option DecodingResult.t) (h : Hover) : Hover :=
  match result with
  | None => h
  | Some res =>
      match hoveredByteIndex h with
      | Some byteIndex =>
          let region := findRegionByByte (DecodingResult.regions res) byteIndex in
          mkHover (hoveredByteIndex h) (option_map ByteRegion.path region) region
      | None =>
          match hoveredPath h with
          | Some p =>
              let region :=
                find (fun r => String.eqb (ByteRegion.path r) p)
                  (DecodingResult.regions res) in
              mkHover (hoveredByteIndex h) (hoveredPath h) region
          | None => mkHover (hoveredByteIndex h) (hoveredPath h) None
          end
      end
  end.

(** The state setters that the views are given (lines 253 and 272): the
    hex view calls the first with the index of the byte on entering it and
    with [undefined] on leaving it (HexViewer.tsx, lines 77-78); the tree
    calls the second with the path of the node entered (line 324) and
    with [undefined] on leaving the tree (line 418). *)
Definition setHoveredByteIndex (index : option Z) (h : Hover) : Hover :=
  mkHover index (hoveredPath h) (hoveredRegion h).

Definition setHoveredPath (path : option string) (h : Hover) : Hover :=
  mkHover (hoveredByteIndex h) path (hoveredRegion h).

End App.

(** ** src/App.tsx, second part: the tree view (JsonViewer) *)

Module JsonViewer.

(** Line 381: the path of a child node,
    [path ? (isArray ? `${path}[${idx}]` : `${path}.${key}`) : key]. *)
Definition childPath (path : string) (isArray : bool) (idx : nat) (key : string)
  : string :=
  if negb (String.eqb path EmptyString) then
    if isArray then (path ++ "[" ++ decimal (Z.of_nat idx) ++ "]")%string
    else (path ++ "." ++ key)%string
  else key.

(** Line 320:
    [hoveredPath === path || (hoveredPath?.startsWith(path + '.') && !expanded)]. *)
Definition isHighlighted (hoveredPath : option string) (path : string)
    (expanded : bool) : bool :=
  match hoveredPath with
  | None => false
  | Some hovered =>
      String.eqb hovered path ||
      (String.prefix (path ++ ".") hovered && negb expanded)
  end.

(** Lines 334-342: the type and the size in bytes shown beside a node. *)
Definition getRegionInfo (regions : list ByteRegion.t) (path : string)
  : option (string * Z) :=
  match find (fun reg => String.eqb (ByteRegion.path reg) path) regions with
  | Some r => Some (ByteRegion.type r, ByteRegion.end_ r - ByteRegion.start r)
  | None => None
  end.

(** [Object.keys(v).length]. *)
Definition keysCount (heap : Heap) (v : Value) : nat :=
  match v with
  | VRef l =>
      match nth_error heap l with
      | Some (OObject props) => List.length props
      | Some (OArray elems) => List.length elems
      | None => 0
      end
  | VStr s => String.length s
  | VBytes bs => List.length bs
  | _ => 0
  end.

(** Line 409: [!data || Object.keys(data).length === 0], the condition
    under which "Waiting for decoded data..." is shown instead of the
    tree.  [data] is [decodingResult?.data]. *)
Definition showsPlaceholder (heap : Heap) (data : option Value) : bool :=
  match data with
  | None => true
  | Some v => negb (truthy v) || (keysCount heap v =? 0)%nat
  end.

End JsonViewer.

(** ** Properties of the application's effects *)

Module AppFacts.
Import App.

Lemma ReflectionObject_induction (P : ReflectionObject -> Prop) :
  (forall isType, P (Reflection isType None)) ->
  (forall isType entries,
      Forall (fun entry => P (snd entry)) entries ->
      P (Reflection isType (Some entries))) ->
  forall obj, P obj.
Proof.
  intros Hnone Hsome.
  refine (fix IH (obj : ReflectionObject) : P obj :=
            match obj with
            | Reflection isType None => Hnone isType
            | Reflection isType (Some entries) =>
                Hsome isType entries
                  ((fix all (l : list (string * ReflectionObject))
                      : Forall (fun entry => P (snd entry)) l :=
                      match l with
                      | [] => Forall_nil _
                      | entry :: rest =>
                          Forall_cons entry
                            (match entry as e return P (snd e) with
                             | (key, child) => IH child
                             end)
                            (all rest)
                      end) entries)
            end).
Qed.

Lemma traverse_lists (obj : ReflectionObject) :
  forall fullPath,
    (forall acc, traverse obj fullPath acc = acc ++ traverse obj fullPath []) /\
    List.length (traverse obj fullPath []) = countTypes obj /\
    (forall name,
        In name (traverse obj fullPath []) <->
        exists keys, typeAt obj keys /\ name = fold_left joinPath keys fullPath).
Proof.
  induction obj as [isType|isType entries Hentries] using ReflectionObject_induction;
    intros fullPath.
  - split; [|split].
    + intros acc. destruct isType; simpl; [reflexivity|symmetry; apply app_nil_r].
    + destruct isType; reflexivity.
    + intros name. split.
      * destruct isType; simpl; [|contradiction].
        intros [Heq|[]]. exists []. split; [reflexivity|symmetry; exact Heq].
      * intros ([|key rest] & Hat & Hname).
        -- simpl in Hat, Hname. subst isType name. left. reflexivity.
        -- simpl in Hat. destruct Hat as (child & [] & _).
  - set (step := fun (acc : list string) (entry : string * ReflectionObject) =>
                   traverse (snd entry) (joinPath fullPath (fst entry)) acc).
    set (below := fun entry : string * ReflectionObject =>
                    traverse (snd entry) (joinPath fullPath (fst entry)) []).
    assert (Hfold : forall acc, fold_left step entries acc = acc ++ flat_map below entries).
    { clear - Hentries. induction Hentries as [|entry rest Hentry Hrest IH];
        intros acc; simpl.
      - symmetry. apply app_nil_r.
      - rewrite IH. subst step below. cbv beta.
        rewrite (proj1 (Hentry (joinPath fullPath (fst entry))) acc).
        rewrite <- app_assoc. reflexivity. }
    assert (Hcount : forall n,
               fold_left (fun n entry => (n + countTypes (snd entry))%nat) entries n
               = (n + List.length (flat_map below entries))%nat).
    { clear - Hentries. induction Hentries as [|entry rest Hentry Hrest IH];
        intros n; simpl.
      - lia.
      - rewrite IH, length_app. subst below. cbv beta.
        rewrite (proj1 (proj2 (Hentry (joinPath fullPath (fst entry))))). lia. }
    assert (Hshape : forall acc,
               traverse (Reflection isType (Some entries)) fullPath acc
               = acc ++ (if isType then [fullPath] else []) ++ flat_map below entries).
    { intros acc. cbn [traverse]. fold step. rewrite Hfold.
      destruct isType; [rewrite <- app_assoc|]; reflexivity. }
    split; [|split].
    + intros acc. rewrite (Hshape acc), (Hshape []). reflexivity.
    + rewrite (Hshape []). cbn [countTypes]. rewrite Hcount.
      simpl. rewrite length_app. destruct isType; simpl; lia.
    + intros name. rewrite (Hshape []). simpl. rewrite in_app_iff, in_flat_map.
      split.
      * intros [Hhere|(entry & Hentry & Hbelow)].
        -- destruct isType; [|contradiction]. destruct Hhere as [Heq|[]].
           exists []. split; [reflexivity|symmetry; exact Heq].
        -- rewrite Forall_forall in Hentries.
           apply (proj2 (proj2 (Hentries entry Hentry _))) in Hbelow.
           destruct Hbelow as (keys & Hat & Hname).
           exists (fst entry :: keys). split; [|exact Hname].
           simpl. exists (snd entry). split; [|exact Hat].
           destruct entry; exact Hentry.
      * intros ([|key rest] & Hat & Hname).
        -- simpl in Hat, Hname. subst isType name. left. left. reflexivity.
        -- simpl in Hat. destruct Hat as (child & Hchild & Hat).
           right. exists (key, child). split; [exact Hchild|].
           rewrite Forall_forall in Hentries.
           apply (proj2 (proj2 (Hentries (key, child) Hchild _))).
           exists rest. split; [exact Hat|exact Hname].
Qed.

Lemma string_append_assoc (a b c : string) :
  ((a ++ b) ++ c)%string = (a ++ b ++ c)%string.
Proof. induction a as [|ch a IH]; simpl; [reflexivity|rewrite IH; reflexivity]. Qed.

Lemma fullName_dotted (keys : list string) :
  Forall (fun key => key <> EmptyString) keys ->
  fullName keys = String.concat "." keys.
Proof.
  unfold fullName. intros Hkeys.
  assert (Hfrom : forall rest prefix,
             prefix <> EmptyString ->
             fold_left joinPath rest prefix
             = String.concat "." (prefix :: rest) /\
             fold_left joinPath rest prefix <> EmptyString).
  { induction rest as [|key rest IH]; intros prefix Hprefix.
    - split; [reflexivity|exact Hprefix].
    - assert (Hjoin : joinPath prefix key = (prefix ++ "." ++ key)%string).
      { unfold joinPath. destruct (String.eqb_spec prefix EmptyString);
          [contradiction|reflexivity]. }
      assert (Hne : joinPath prefix key <> EmptyString).
      { rewrite Hjoin. destruct prefix; [contradiction|discriminate]. }
      cbn [fold_left]. destruct (IH _ Hne) as [Heq Hne']. split; [|exact Hne'].
      rewrite Heq, Hjoin. cbn [String.concat].
      destruct rest; [reflexivity|rewrite string_append_assoc; reflexivity]. }
  destruct Hkeys as [|key rest Hkey Hrest]; [reflexivity|].
  cbn [fold_left]. unfold joinPath at 2. cbn [String.eqb].
  apply Hfrom. exact Hkey.
Qed.

Lemma includes_In (types : list string) (s : string) :
  includes types s = true <-> In s types.
Proof.
  unfold includes. rewrite existsb_exists. split.
  - intros (x & Hx & Heq). apply String.eqb_eq in Heq. subst. assumption.
  - intros Hin. exists s. split; [assumption|apply String.eqb_refl].
Qed.

(** X12. After a schema was parsed, the list of message types holds
    exactly the full names of the message types of the schema, nested
    ones included: a name is listed if and only if it is the name of a
    message type that is reached from the root by a path of keys, which
    is these keys joined by dots, and the list has one entry for each
    message type.  If there is at least one, the selected type is a name
    of that list, and a previous selection that is still in the list is
    kept. *)
Theorem parsed_schema_selects_a_listed_type (root : ReflectionObject) (v : ProtoView) :
  (forall name,
      In name (types (parseEffect (inr root) v)) <->
      exists keys, typeAt root keys /\ name = fullName keys) /\
  (forall keys,
      Forall (fun key => key <> EmptyString) keys ->
      fullName keys = String.concat "." keys) /\
  List.length (types (parseEffect (inr root) v)) = countTypes root /\
  ((0 < countTypes root)%nat ->
   In (selectedType (parseEffect (inr root) v)) (types (parseEffect (inr root) v))) /\
  (In (selectedType v) (types (parseEffect (inr root) v)) ->
   selectedType (parseEffect (inr root) v) = selectedType v).
Proof.
  destruct (traverse_lists root EmptyString) as (_ & Hlen & Hnames).
  cbn [parseEffect types selectedType].
  split; [exact Hnames|]. split; [exact fullName_dotted|].
  split; [exact Hlen|].
  unfold selectAfterParse.
  destruct (traverse root EmptyString []) as [|first rest] eqn:Hfound.
  - split; [simpl in Hlen; lia|reflexivity].
  - split.
    + intros _. destruct (includes (first :: rest) (selectedType v)) eqn:Hinc.
      * exact (proj1 (includes_In _ _) Hinc).
      * left. reflexivity.
    + intros Hin. apply (proj2 (includes_In _ _)) in Hin. rewrite Hin. reflexivity.
Qed.

Lemma parsed_schema_selects_a_listed_type_witness :
  let person :=
    Reflection true
      (Some [("PhoneType"%string, Reflection false None);
             ("PhoneNumber"%string, Reflection true None)]) in
  let root :=
    Reflection false
      (Some [("example"%string, Reflection false (Some [("Person"%string, person)]))]) in
  let v := mkProtoView None [] EmptyString None in
  types (parseEffect (inr root) v)
  = ["example.Person"%string; "example.Person.PhoneNumber"%string] /\
  typeAt root ["example"; "Person"; "PhoneNumber"]%string /\
  In "example.Person.PhoneNumber"%string (types (parseEffect (inr root) v)) /\
  (0 < countTypes root)%nat /\
  In (selectedType (parseEffect (inr root) v)) (types (parseEffect (inr root) v)).
Proof.
  intros person root v.
  assert (Hpos : (0 < countTypes root)%nat) by (vm_compute; lia).
  assert (Hat : typeAt root ["example"; "Person"; "PhoneNumber"]%string).
  { simpl. eexists. split; [left; reflexivity|].
    eexists. split; [left; reflexivity|].
    eexists. split; [right; left; reflexivity|reflexivity]. }
  split; [reflexivity|]. split; [exact Hat|]. split.
  - apply (proj1 (parsed_schema_selects_a_listed_type root v)).
    exists ["example"; "Person"; "PhoneNumber"]%string. split; [exact Hat|reflexivity].
  - split; [exact Hpos|].
    exact (proj1 (proj2 (proj2 (proj2 (parsed_schema_selects_a_listed_type root v))))
             Hpos).
Defined.

(** X13. The decoding effect has three outcomes.  Without a parsed schema,
    without a selected type or with an empty buffer nothing is decoded:
    the result is cleared and the error stays what it was.  Otherwise,
    when the selected type exists, either the decode returned and the
    result holds its value and regions with the error cleared, or the
    result is cleared and the error is exactly "Decoding failed: Failed to
    decode binary with provided proto type.". *)
Theorem decode_effect_outcomes {reader : WireReader} (root : option ParsedRoot)
    (selected : string) (binaryData : list byte) (v : DecodeView) :
  ((root = None \/ selected = EmptyString \/ binaryData = []) ->
   decodeEffect root selected binaryData v = Ok (mkDecodeView None (error v))) /\
  (forall parsed type,
      root = Some parsed ->
      selected <> EmptyString ->
      binaryData <> [] ->
      lookupType parsed selected = inr type ->
      (exists d,
          decodeWithRegions (resolve parsed) binaryData type = Ok d /\
          decodeEffect root selected binaryData v
          = Ok (mkDecodeView
                  (Some (DecodingResult.mk (Decoded.result d) (Decoded.regions d)
                           None (Decoded.heap d)))
                  None)) \/
      decodeEffect root selected binaryData v
      = Ok (mkDecodeView None
              (Some "Decoding failed: Failed to decode binary with provided proto type."%string))).
Proof.
  split.
  - intros [Hroot|[Hsel|Hdata]]; unfold decodeEffect.
    + rewrite Hroot. reflexivity.
    + destruct root; [|reflexivity]. rewrite Hsel. reflexivity.
    + destruct root; [|reflexivity]. rewrite Hdata. simpl.
      rewrite orb_true_r. reflexivity.
  - intros parsed type Hroot Hsel Hdata Hlookup. unfold decodeEffect.
    rewrite Hroot. apply String.eqb_neq in Hsel. rewrite Hsel.
    destruct binaryData as [|b rest]; [contradiction|].
    cbn [List.length Nat.eqb orb]. rewrite Hlookup.
    pose proof (decodeWithRegions_total (resolve parsed) (b :: rest) type) as Htotal.
    destruct (decodeWithRegions (resolve parsed) (b :: rest) type)
      as [d|e|] eqn:Hdecode.
    + left. exists d. split; reflexivity.
    + right. unfold decodeWithRegions in Hdecode.
      destruct (readMessage (resolve parsed) (b :: rest)
                  (S (List.length (b :: rest))) type
                  (Z.of_nat (List.length (b :: rest))) 0%nat EmptyString 0%nat 0
                  initialState) as [[u s]|err|]; try discriminate.
      inversion Hdecode; subst e. reflexivity.
    + contradiction.
Qed.

Lemma decode_effect_outcomes_witness :
  let parsed :=
    mkParsedRoot
      (fun name => if String.eqb name "Person" then inr Examples.Person
                   else inl ("no such type: " ++ name)%string)
      Examples.noTypes in
  decodeEffect (reader := specReader) (Some parsed) "Person" [] (mkDecodeView None None)
  = Ok (mkDecodeView None None) /\
  decodeEffect (reader := specReader) (Some parsed) "Person" [x08]
    (mkDecodeView None None)
  = Ok (mkDecodeView None
          (Some "Decoding failed: Failed to decode binary with provided proto type."%string)).
Proof.
  intros parsed. split.
  - exact (proj1 (decode_effect_outcomes (reader := specReader) (Some parsed)
                    "Person" [] (mkDecodeView None None))
             (or_intror (or_intror eq_refl))).
  - reflexivity.
Defined.

Lemma find_hd_filter {A} (f : A -> bool) (l : list A) :
  find f l = hd_error (filter f l).
Proof.
  induction l as [|x l IH]; simpl; [reflexivity|].
  destruct (f x); [reflexivity|exact IH].
Qed.

(** X14. When a byte of a successfully decoded buffer is hovered, the
    hover effect always finds a region: it contains the hovered byte, the
    hovered path becomes the path of that region, and the hex view
    highlights the hovered byte. *)
Theorem hovered_byte_selects_its_region {reader : WireReader} (root : Root)
    (buffer : list byte) (type : ProtoType.t) (d : Decoded.t) (byteIndex : Z)
    (h : Hover) :
  decodeWithRegions root buffer type = Ok d ->
  0 <= byteIndex < Z.of_nat (List.length buffer) ->
  hoveredByteIndex h = Some byteIndex ->
  let result :=
    DecodingResult.mk (Decoded.result d) (Decoded.regions d) None (Decoded.heap d) in
  exists r,
    hoveredRegion (syncHovers (Some result) h) = Some r /\
    hoveredPath (syncHovers (Some result) h) = Some (ByteRegion.path r) /\
    ByteRegion.start r <= byteIndex < ByteRegion.end_ r /\
    HexViewer.isHighlighted (hoveredRegion (syncHovers (Some result) h)) byteIndex
    = true.
Proof.
  intros Hd Hi Hbyte result.
  apply decodeWithRegions_emitted_to_end in Hd. destruct Hd as (hi & Hhi & Hem).
  destruct (Emitted_covers _ _ _ _ Hem byteIndex) as (x & Hx & _ & Hcx); [lia|].
  unfold syncHovers. rewrite Hbyte. simpl.
  destruct (findRegionByByte (Decoded.regions d) byteIndex) as [r|] eqn:Hfind.
  - exists r. apply findRegionByByte_some in Hfind.
    destruct Hfind as (before & after & _ & Hcov & _).
    split; [reflexivity|]. split; [reflexivity|].
    split; [apply covers_spec; assumption|exact Hcov].
  - exfalso. pose proof (findRegionByByte_none _ _ Hfind x Hx) as Hno.
    apply covers_spec in Hcx. congruence.
Qed.

Lemma hovered_byte_selects_its_region_witness :
  let mx := ByteRegion.mk 2 4 "m.x" (VNum 1) "int32" 0 "x" 1 in
  let m := ByteRegion.mk 0 4 "m" (VRef 1%nat) "Inner" 2 "m" 0 in
  let d := Decoded.mk (VRef 0%nat) [mx; m]
             [OObject [("m"%string, VRef 1%nat)]; OObject [("x"%string, VNum 1)]] in
  let h := mkHover (Some 3) None None in
  decodeWithRegions (reader := specReader) Examples.innerRoot
    [x0a; x02; x08; x01] Examples.Outer = Ok d /\
  syncHovers
    (Some (DecodingResult.mk (Decoded.result d) (Decoded.regions d) None
             (Decoded.heap d))) h
  = mkHover (Some 3) (Some "m.x"%string) (Some mx) /\
  exists r,
    hoveredRegion
      (syncHovers
         (Some (DecodingResult.mk (Decoded.result d) (Decoded.regions d) None
                  (Decoded.heap d))) h) = Some r /\
    ByteRegion.start r <= 3 < ByteRegion.end_ r.
Proof.
  intros mx m d h.
  assert (Hd : decodeWithRegions (reader := specReader) Examples.innerRoot
                 [x0a; x02; x08; x01] Examples.Outer = Ok d) by reflexivity.
  assert (Hi : 0 <= 3 < Z.of_nat (List.length [x0a; x02; x08; x01])) by (simpl; lia).
  split; [exact Hd|]. split; [reflexivity|].
  destruct (hovered_byte_selects_its_region (reader := specReader)
              Examples.innerRoot [x0a; x02; x08; x01] Examples.Outer d 3 h
              Hd Hi eq_refl) as (r & Hr & _ & Hc & _).
  exists r. split; [exact Hr|exact Hc].
Defined.

(** X15. The hover effect is stable: running it again on the hover state
    it produced, with the same decoding result, changes nothing, although
    it has changed the hovered path on which it depends. *)
Theorem sync_hovers_is_stable (result : option DecodingResult.t) (h : Hover) :
  syncHovers result (syncHovers result h) = syncHovers result h.
Proof.
  unfold syncHovers. destruct result as [res|]; [|reflexivity].
  destruct h as [byteIndex path region]. simpl.
  destruct byteIndex as [i|]; simpl; [reflexivity|].
  destruct path as [p|]; reflexivity.
Qed.

(** X16. When a path is hovered in the tree (and no byte), the region that
    is highlighted is the first one that [findRegionsByPath] returns for
    the path, hence the earliest occurrence when a field occurs more than
    once; the size that the tree shows beside the node is the size of that
    same region. *)
Theorem hovered_path_selects_first_region (res : DecodingResult.t) (h : Hover)
    (p : string) :
  hoveredByteIndex h = None ->
  hoveredPath h = Some p ->
  hoveredRegion (syncHovers (Some res) h)
  = hd_error (findRegionsByPath (DecodingResult.regions res) p) /\
  JsonViewer.getRegionInfo (DecodingResult.regions res) p
  = option_map (fun r => (ByteRegion.type r, ByteRegion.end_ r - ByteRegion.start r))
      (hoveredRegion (syncHovers (Some res) h)).
Proof.
  intros Hbyte Hpath. unfold syncHovers, JsonViewer.getRegionInfo, findRegionsByPath.
  rewrite Hbyte, Hpath. simpl.
  split; [apply find_hd_filter|].
  destruct (find (fun r => String.eqb (ByteRegion.path r) p)
              (DecodingResult.regions res)); reflexivity.
Qed.

Lemma hovered_path_selects_first_region_witness :
  let r1 := ByteRegion.mk 0 2 "id" (VNum 7) "int32" 0 "id" 0 in
  let r2 := ByteRegion.mk 2 4 "id" (VNum 9) "int32" 0 "id" 0 in
  let res := DecodingResult.mk (VRef 0%nat) [r1; r2] None
               [OObject [("id"%string, VNum 9)]] in
  let h := mkHover None (Some "id"%string) None in
  hoveredRegion (syncHovers (Some res) h) = Some r1 /\
  hoveredRegion (syncHovers (Some res) h)
  = hd_error (findRegionsByPath (DecodingResult.regions res) "id").
Proof.
  intros r1 r2 res h. split; [reflexivity|].
  exact (proj1 (hovered_path_selects_first_region res h "id" eq_refl eq_refl)).
Defined.

(** X17. The highlight outlives the hover of a byte.  When the mouse
    leaves a byte of a decoded buffer, the hovered path that the effect
    had set stays, so the next run of the effect does not clear the
    highlight: it highlights the first region of the list that has the
    path of the region found for the byte, which need not be that
    region. *)
Theorem highlight_stays_after_leaving_byte {reader : WireReader} (root : Root)
    (buffer : list byte) (type : ProtoType.t) (d : Decoded.t) (byteIndex : Z)
    (h : Hover) :
  decodeWithRegions root buffer type = Ok d ->
  0 <= byteIndex < Z.of_nat (List.length buffer) ->
  hoveredByteIndex h = Some byteIndex ->
  let result :=
    Some (DecodingResult.mk (Decoded.result d) (Decoded.regions d) None
            (Decoded.heap d)) in
  let entered := syncHovers result h in
  let left := syncHovers result (setHoveredByteIndex None entered) in
  exists r r',
    hoveredRegion entered = Some r /\
    hoveredRegion left = Some r' /\
    hoveredPath left = Some (ByteRegion.path r) /\
    ByteRegion.path r' = ByteRegion.path r /\
    hd_error (findRegionsByPath (Decoded.regions d) (ByteRegion.path r)) = Some r'.
Proof.
  intros Hd Hi Hbyte result entered left.
  apply decodeWithRegions_emitted_to_end in Hd. destruct Hd as (hi & Hhi & Hem).
  destruct (Emitted_covers _ _ _ _ Hem byteIndex) as (x & Hx & _ & Hcx); [lia|].
  subst left entered result. unfold syncHovers, setHoveredByteIndex.
  rewrite Hbyte. simpl.
  destruct (findRegionByByte (Decoded.regions d) byteIndex) as [r|] eqn:Hfind.
  - apply findRegionByByte_some in Hfind.
    destruct Hfind as (before & after & Hsplit & _).
    simpl.
    destruct (find (fun r0 => String.eqb (ByteRegion.path r0) (ByteRegion.path r))
                (Decoded.regions d)) as [r'|] eqn:Hpath.
    + exists r, r'. unfold findRegionsByPath. rewrite <- find_hd_filter, Hpath.
      apply find_some in Hpath. destruct Hpath as [_ Heq].
      apply String.eqb_eq in Heq. repeat split; assumption || reflexivity.
    + exfalso.
      assert (Hin : In r (Decoded.regions d))
        by (rewrite Hsplit; apply in_or_app; right; left; reflexivity).
      pose proof (find_none _ _ Hpath r Hin) as Hno. simpl in Hno.
      rewrite String.eqb_refl in Hno. discriminate.
  - exfalso. pose proof (findRegionByByte_none _ _ Hfind x Hx) as Hno.
    apply covers_spec in Hcx. congruence.
Qed.

Lemma highlight_stays_after_leaving_byte_witness :
  let first := ByteRegion.mk 0 2 "id" (VNum 7) "int32" 0 "id" 0 in
  let second := ByteRegion.mk 2 4 "id" (VNum 9) "int32" 0 "id" 0 in
  let d := Decoded.mk (VRef 0%nat) [first; second] [OObject [("id"%string, VNum 9)]] in
  let result :=
    Some (DecodingResult.mk (Decoded.result d) (Decoded.regions d) None
            (Decoded.heap d)) in
  let h := mkHover (Some 3) None None in
  decodeWithRegions (reader := specReader) Examples.noTypes
    [x10; x07; x10; x09] Examples.Person = Ok d /\
  hoveredRegion (syncHovers result h) = Some second /\
  hoveredRegion (syncHovers result (setHoveredByteIndex None (syncHovers result h)))
  = Some first /\
  exists r r',
    hoveredRegion (syncHovers result h) = Some r /\
    hoveredRegion (syncHovers result (setHoveredByteIndex None (syncHovers result h)))
    = Some r' /\
    ByteRegion.path r' = ByteRegion.path r.
Proof.
  intros first second d result h.
  assert (Hd : decodeWithRegions (reader := specReader) Examples.noTypes
                 [x10; x07; x10; x09] Examples.Person = Ok d) by reflexivity.
  assert (Hi : 0 <= 3 < Z.of_nat (List.length [x10; x07; x10; x09])) by (simpl; lia).
  split; [exact Hd|]. split; [reflexivity|]. split; [reflexivity|].
  destruct (highlight_stays_after_leaving_byte (reader := specReader)
              Examples.noTypes [x10; x07; x10; x09] Examples.Person d 3 h
              Hd Hi eq_refl) as (r & r' & Hr & Hr' & _ & Hp & _).
  exists r, r'. split; [exact Hr|]. split; [exact Hr'|exact Hp].
Defined.

End AppFacts.

(** ** Properties of the tree view *)

Module JsonViewerFacts.
Import JsonViewer.

Lemma append_cancel_l (a b c : string) :
  (a ++ b)%string = (a ++ c)%string -> b = c.
Proof.
  induction a as [|ch a IH]; simpl; intros H; [exact H|].
  inversion H. apply IH. assumption.
Qed.

Lemma append_bracket_cancel (a b : string) :
  (a ++ "]")%string = (b ++ "]")%string -> a = b.
Proof.
  revert b. induction a as [|ch a IH]; intros [|ch' b]; simpl; intros H.
  - reflexivity.
  - inversion H as [[Hc Hrest]]. destruct b; simpl in Hrest; discriminate.
  - inversion H as [[Hc Hrest]]. destruct a; simpl in Hrest; discriminate.
  - inversion H. f_equal. apply IH. assumption.
Qed.

Lemma decimal_of_nat_inj (a b : nat) :
  decimal (Z.of_nat a) = decimal (Z.of_nat b) -> a = b.
Proof.
  unfold decimal. intros H.
  assert (Huint : N.to_uint (Z.to_N (Z.of_nat a)) = N.to_uint (Z.to_N (Z.of_nat b))).
  { assert (Hnonnil : forall n, N.to_uint n <> Decimal.Nil).
    { intros [|p]; [discriminate|apply DecimalPos.Unsigned.to_uint_nonnil]. }
    apply (f_equal NilZero.uint_of_string) in H.
    rewrite !NilZero.usu in H by apply Hnonnil.
    injection H as H. exact H. }
  apply (f_equal N.of_uint) in Huint.
  rewrite !DecimalN.Unsigned.of_to in Huint. lia.
Qed.

Lemma append_empty (a b : string) :
  (a ++ b)%string = EmptyString -> a = EmptyString.
Proof. destruct a; [reflexivity|discriminate]. Qed.

(** The path of the tree node of the element [i] of the top-level array
    [name] is the path that the decoder gives to the region of that
    element. *)
Lemma element_node_path (name key : string) (i : nat) :
  name <> EmptyString ->
  childPath (childPath EmptyString false 0 name) true i key
  = (name ++ "[" ++ decimal (Z.of_nat i) ++ "]")%string.
Proof.
  intros Hname. unfold childPath. simpl.
  destruct (String.eqb name EmptyString) eqn:Heq; [|reflexivity].
  apply String.eqb_eq in Heq. contradiction.
Qed.

Lemma find_elementRegions (f : Field.t) (occs : list Occurrence) :
  forall (k : nat) (p : Z) (i : nat) (r : ByteRegion.t),
    nth_error (elementRegions f k p occs) i = Some r ->
    find (fun reg =>
            String.eqb (ByteRegion.path reg)
              (Field.name f ++ "[" ++ decimal (Z.of_nat (k + i)) ++ "]")%string)
      (elementRegions f k p occs) = Some r.
Proof.
  induction occs as [|o rest IH]; intros k p i r Hnth.
  - destruct i; discriminate.
  - cbn [elementRegions find ByteRegion.path]. destruct i as [|i].
    + rewrite Nat.add_0_r, String.eqb_refl. simpl in Hnth. exact Hnth.
    + destruct (String.eqb _ _) eqn:Heq.
      * apply String.eqb_eq in Heq. apply append_cancel_l in Heq.
        simpl in Heq. inversion Heq as [Hdec].
        apply append_bracket_cancel, decimal_of_nat_inj in Hdec. lia.
      * cbn [elementRegions nth_error] in Hnth.
        replace (k + S i)%nat with (S k + i)%nat by lia.
        apply IH. exact Hnth.
Qed.

(** X18. The elements of a repeated field have regions of their own in the
    tree: for a buffer of occurrences of one repeated field (as in X4),
    whose name is not empty and is not a key that every object inherits,
    the tree node of element [i] of the array shows the type of the field
    and the size in bytes of the region of occurrence [i], not those of
    another occurrence. *)
Theorem element_node_shows_its_region {reader : WireReader} (root : Root)
    (buffer : list byte) (type : ProtoType.t) (f : Field.t)
    (method : list byte -> Z -> Read Value) (fieldId : Z)
    (o : Occurrence) (rest : list Occurrence) (i : nat) (key : string) :
  Field.repeated f = true ->
  Field.map f = false ->
  Field.packed f = false ->
  (forall ref, Field.resolvedType f <> RType ref) ->
  readMethod (Field.type f) = Some method ->
  findField type fieldId = Some f ->
  occurrencesFrom buffer method fieldId 0 (o :: rest) (Z.of_nat (List.length buffer)) ->
  Field.name f <> EmptyString ->
  inherited (Field.name f) = false ->
  (i < List.length (o :: rest))%nat ->
  exists d r,
    decodeWithRegions root buffer type = Ok d /\
    nth_error (Decoded.regions d) i = Some r /\
    getRegionInfo (Decoded.regions d)
      (childPath (childPath EmptyString false 0 (Field.name f)) true i key)
    = Some (Field.type f, ByteRegion.end_ r - ByteRegion.start r).
Proof.
  intros Hrep Hmap Hpacked Hres Hmethod Hfind Hocc Hname Hown Hi.
  rewrite (decode_repeated_occurrences root buffer type f method fieldId o rest
             Hrep Hmap Hpacked Hres Hmethod Hfind Hocc Hown).
  assert (Hlen : forall occs k p,
             List.length (elementRegions f k p occs) = List.length occs).
  { induction occs as [|x occs IH]; intros k p; simpl; [reflexivity|].
    rewrite IH. reflexivity. }
  assert (Htype : forall occs k p r,
             In r (elementRegions f k p occs) -> ByteRegion.type r = Field.type f).
  { induction occs as [|x occs IH]; intros k p r; simpl; [contradiction|].
    intros [Hr|Hr]; [subst r; reflexivity|eapply IH; exact Hr]. }
  destruct (nth_error (elementRegions f 0 0 (o :: rest)) i) as [r|] eqn:Hnth.
  - eexists. exists r. split; [reflexivity|]. cbn [Decoded.regions].
    split; [exact Hnth|].
    unfold getRegionInfo. rewrite element_node_path by exact Hname.
    pose proof (find_elementRegions f (o :: rest) 0 0 i r Hnth) as Hfound.
    change (0 + i)%nat with i in Hfound. rewrite Hfound.
    rewrite (Htype _ _ _ _ (nth_error_In _ _ Hnth)). reflexivity.
  - exfalso. apply nth_error_None in Hnth. rewrite Hlen in Hnth. lia.
Qed.

Lemma element_node_shows_its_region_witness :
  let tags := Field.mk 1 "n" "int32" true false false RNone in
  let t := ProtoType.mk "T" [tags] in
  let o1 := mkOccurrence 8 1 (VNum 7) 2 in
  let o2 := mkOccurrence 8 3 (VNum 9) 5 in
  exists d r,
    decodeWithRegions (reader := specReader) Examples.noTypes
      [x08; x07; x08; x89; x00] t = Ok d /\
    nth_error (Decoded.regions d) 1 = Some r /\
    getRegionInfo (Decoded.regions d)
      (childPath (childPath EmptyString false 0 "n") true 1 "1")
    = Some ("int32"%string, ByteRegion.end_ r - ByteRegion.start r).
Proof.
  intros tags t o1 o2.
  assert (Hres : forall ref, RNone <> RType ref) by (intros ref H; discriminate H).
  assert (Hname : Field.name tags <> EmptyString) by discriminate.
  assert (Hi : (1 < List.length [o1; o2])%nat)
    by (simpl; lia).
  assert (Hocc : occurrencesFrom (reader := specReader) [x08; x07; x08; x89; x00]
                   (fun b p => SpecReader.mapRead VNum (SpecReader.read_int32 b p))
                   1 0 [o1; o2] 5)
    by (simpl; repeat split; reflexivity).
  exact (element_node_shows_its_region (reader := specReader) Examples.noTypes
           [x08; x07; x08; x89; x00] t tags
           (fun b p => SpecReader.mapRead VNum (SpecReader.read_int32 b p))
           1 o1 [o2] 1 "1"
           eq_refl eq_refl eq_refl Hres eq_refl eq_refl Hocc Hname eq_refl Hi).
Defined.

Lemma prefix_append (a b c : string) :
  String.prefix (a ++ b) (a ++ c) = String.prefix b c.
Proof.
  induction a as [|ch a IH]; simpl; [reflexivity|].
  destruct (ascii_dec ch ch) as [_|Hne]; [exact IH|contradiction].
Qed.

Lemma prefix_self_append (a b : string) : String.prefix a (a ++ b) = true.
Proof.
  induction a as [|ch a IH]; simpl; [destruct b; reflexivity|].
  destruct (ascii_dec ch ch) as [_|Hne]; [exact IH|contradiction].
Qed.

Lemma eqb_append_nonempty (a : string) (c : ascii) (b : string) :
  String.eqb (a ++ String c b) a = false.
Proof.
  apply String.eqb_neq. induction a as [|ch a IH]; simpl; intros H.
  - discriminate.
  - inversion H. contradiction.
Qed.

(** X19. Which tree nodes are highlighted.  An expanded node is
    highlighted exactly when its own path is hovered.  A collapsed node
    is highlighted also for every hovered path that continues its path
    with a dot, so for the fields below a message, but for no hovered
    path that continues it with a bracket: hovering an element of a
    repeated field does not highlight the collapsed node of the array. *)
Theorem collapsed_node_highlight (path rest : string) (hoveredPath : option string) :
  (isHighlighted hoveredPath path true = true <-> hoveredPath = Some path) /\
  isHighlighted (Some (path ++ "." ++ rest)%string) path false = true /\
  isHighlighted (Some (path ++ "[" ++ rest)%string) path false = false /\
  isHighlighted (Some (path ++ "." ++ rest)%string) path true = false.
Proof.
  unfold isHighlighted. split; [|split; [|split]].
  - destruct hoveredPath as [hovered|]; [|split; discriminate].
    rewrite andb_false_r, orb_false_r. rewrite String.eqb_eq.
    split; [intros H; subst; reflexivity|intros H; inversion H; reflexivity].
  - replace (path ++ "." ++ rest)%string with ((path ++ ".") ++ rest)%string.
    + rewrite prefix_self_append. simpl. apply orb_true_r.
    + clear. induction path as [|ch path IH]; simpl; [reflexivity|].
      rewrite IH. reflexivity.
  - simpl. rewrite eqb_append_nonempty, prefix_append. reflexivity.
  - simpl. rewrite eqb_append_nonempty, andb_false_r. reflexivity.
Qed.

(** X20. A decode that returns may still leave the tree empty: when the
    selected message type has no fields, the decode of any buffer that
    returns gives an object without keys, and the tree view shows
    "Waiting for decoded data..." in place of the tree, whatever regions
    were recorded. *)
Theorem empty_result_shows_placeholder {reader : WireReader} (root : Root)
    (buffer : list byte) (type : ProtoType.t) (d : Decoded.t) :
  ProtoType.fields type = [] ->
  decodeWithRegions root buffer type = Ok d ->
  showsPlaceholder (Decoded.heap d) (Some (Decoded.result d)) = true.
Proof.
  intros Hfields. unfold decodeWithRegions.
  destruct (readMessage root buffer (S (List.length buffer)) type
              (Z.of_nat (List.length buffer)) 0%nat EmptyString 0%nat 0 initialState)
    as [[u s]|e|] eqn:Hrun; try discriminate.
  intros Hd. inversion Hd; subst d.
  apply (readMessage_no_fields root buffer type _ Hfields) in Hrun.
  destruct Hrun as [Hheap _]. cbn [Decoded.heap Decoded.result].
  rewrite Hheap. reflexivity.
Qed.

Lemma empty_result_shows_placeholder_witness :
  let d := Decoded.mk (VRef 0%nat)
             [ByteRegion.mk 0 2 "unknown_1" (VStr "Unknown Field") "unknown" 0
                "unknown_1" 0]
             [OObject []] in
  decodeWithRegions (reader := specReader) Examples.noTypes [x08; x07]
    (ProtoType.mk "Empty" []) = Ok d /\
  showsPlaceholder (Decoded.heap d) (Some (Decoded.result d)) = true.
Proof.
  intros d.
  assert (Hd : decodeWithRegions (reader := specReader) Examples.noTypes [x08; x07]
                 (ProtoType.mk "Empty" []) = Ok d) by reflexivity.
  split; [exact Hd|].
  exact (empty_result_shows_placeholder (reader := specReader) Examples.noTypes
           [x08; x07] (ProtoType.mk "Empty" []) d eq_refl Hd).
Defined.

End JsonViewerFacts.
